(** * Two programs of the repository and their properties

    [LogFileManager] (Num1/logfilemanager.cpp) and [ParallelProcessor<T>]
    (Num3/ParallelProcessor.cpp), each embedded in a module of its own.  The
    definitions come first; the properties of the log manager follow those
    of the engine. *)

From Stdlib Require Import ZArith Lia String Ascii.
From stdpp Require Import base option list sorting gmap strings.

(** * LogFileManager (Num1/logfilemanager.cpp): a shallow embedding

    The manager owns a map from file names to output streams; the log files
    themselves live in the file system.  A state of the program is the map
    together with the contents of the files, and every member function is a
    function from states to a result and a state.

    Environment.  Whether the operating system lets a file be opened, and
    whether the text of a write reaches the file, is not decided by the
    program: each operation takes that decision as an argument ([os_ok], an
    [Outcome]).  A write that fails leaves the file in a state the program
    cannot know, which is the content carried by [Failed]; the stream keeps
    its error state, and closing such a stream may flush what remains in its
    buffer, so [closeLogFile] takes the content of the file after that.  The
    text returned by [getCurrentTimestamp], which reads the clock, is an
    argument of [writeLog].

    Files.  Different names are taken to name different files, and nothing
    but the program changes them.  Lines end with the character 10.
    Exhausted memory is left out, so no exception is thrown and the [catch]
    blocks are not entered. *)

Module LogFileManager.

Definition newline : ascii := "010"%char.

(** A [std::ofstream] held by the map: whether it is associated with a
    file, and whether [failbit] or [badbit] is set. *)
Record Stream : Type := mkStream {
  is_open : bool;
  fail : bool
}.

Record World : Type := mkWorld {
  logFiles : gmap string Stream;
  disk : gmap string string
}.

(** The manager as constructed ([LogFileManager() = default]). *)
Definition LogFileManager (files : gmap string string) : World := mkWorld ∅ files.

Inductive Outcome : Type :=
  | Written
  | Failed (content : string).

(** [std::ofstream(filename, std::ios::trunc)]: the file is created or
    emptied when it can be opened; otherwise the stream is not open and
    [failbit] is set. *)
Definition ofstream (os_ok : bool) (filename : string) (files : gmap string string)
  : Stream * gmap string string :=
  if os_ok then (mkStream true false, <[filename := EmptyString]> files)
  else (mkStream false true, files).

(** [stream << ... << std::endl]: nothing happens on a stream in an error
    state; otherwise the text is appended and flushed, or the write fails. *)
Definition put (text : string) (o : Outcome) (filename : string) (s : Stream)
    (files : gmap string string) : Stream * gmap string string :=
  if fail s then (s, files)
  else
    match o with
    | Written => (s, <[filename := default EmptyString (files !! filename) +:+ text]> files)
    | Failed content => (mkStream (is_open s) true, <[filename := content]> files)
    end.

(** [stream.close()]: a stream without error has nothing more to write. *)
Definition close (content : string) (filename : string) (s : Stream)
    (files : gmap string string) : gmap string string :=
  if fail s then <[filename := content]> files else files.

(** openLogFile (lines 39-59) *)
Definition openLogFile (os_ok : bool) (filename : string) (w : World) : bool * World :=
  match logFiles w !! filename with
  | Some _ => (true, w)
  | None =>
      let '(fileStream, files) := ofstream os_ok filename (disk w) in
      if negb (is_open fileStream) then (false, mkWorld (logFiles w) files)
      else (true, mkWorld (<[filename := fileStream]> (logFiles w)) files)
  end.

(** writeLog (lines 62-77) *)
Definition writeLog (timestamp : string) (o : Outcome) (filename message : string)
    (w : World) : bool * World :=
  match logFiles w !! filename with
  | None => (false, w)
  | Some s =>
      if negb (is_open s) then (false, w)
      else
        let '(s', files) :=
          put (timestamp +:+ message +:+ String newline EmptyString) o filename s (disk w) in
        (negb (fail s'), mkWorld (<[filename := s']> (logFiles w)) files)
  end.

(** [while (std::getline(file, line)) logs.push_back(line)] (lines 88-91):
    the characters up to each newline; what follows the last newline is a
    line of its own unless it is empty. *)
Fixpoint getlines (s : string) : list string :=
  match s with
  | EmptyString => []
  | String c s' =>
      if decide (c = newline) then EmptyString :: getlines s'
      else
        match getlines s' with
        | [] => [String c EmptyString]
        | line :: logs => String c line :: logs
        end
  end.

(** readLogs (lines 80-95) *)
Definition readLogs (os_ok : bool) (filename : string) (w : World) : list string :=
  match (if os_ok then disk w !! filename else None) with
  | None => []
  | Some text => getlines text
  end.

(** closeLogFile (lines 98-110) *)
Definition closeLogFile (content : string) (filename : string) (w : World) : bool * World :=
  match logFiles w !! filename with
  | None => (false, w)
  | Some s =>
      let files := if is_open s then close content filename s (disk w) else disk w in
      (true, mkWorld (delete filename (logFiles w)) files)
  end.

(** ** Sequences of calls *)

Inductive Op : Type :=
  | Open (os_ok : bool) (filename : string)
  | Write (timestamp : string) (o : Outcome) (filename message : string)
  | Close (content : string) (filename : string).

Definition step (op : Op) (w : World) : bool * World :=
  match op with
  | Open os_ok filename => openLogFile os_ok filename w
  | Write timestamp o filename message => writeLog timestamp o filename message w
  | Close content filename => closeLogFile content filename w
  end.

(** The values returned by the calls, and the state they leave. *)
Fixpoint exec (ops : list Op) (w : World) : list bool * World :=
  match ops with
  | [] => ([], w)
  | op :: ops' =>
      let '(b, w') := step op w in
      let '(bs, w'') := exec ops' w' in
      (b :: bs, w'')
  end.







End LogFileManager.

(** * ParallelProcessor<T> (Num3/ParallelProcessor.cpp): a shallow embedding

    The engine owns a [std::vector<T> data] and an [unsigned int num_threads].
    Every public operation splits the index space [0, N) into [num_threads]
    contiguous ranges, starts one worker per range and joins them all.

    Vectors are lists read with [!!] and written with [<[i:=x]>]; an access
    outside the vector (undefined behaviour in C++) makes the computation
    fail, as does a division by zero.  Statements are computations in a state
    and failure monad over the objects a lambda captures: the engine
    ([this]) and the local vectors taken by reference.

    Threads.  The workers of one call touch pairwise disjoint cells of the
    shared vectors (or, in [filter], append under a mutex), so every
    interleaving has the effect of running the workers one after another in
    some order.  That order is the parameter [sched], a permutation of the
    thread ids [0 .. num_threads-1]; the order in which the two halves of an
    asynchronous merge step run is given by an oracle [async_first].  Cells
    are independent for every element type but [bool], whose vector packs
    several cells into one word; [T] is any other type.

    Library.  [std::sort] is a parameter [std_sort] constrained by its
    contract only: it rearranges the range ([sorts_in_place]) into an order
    in which no element is less than an earlier one ([sorts_by]); what it
    does to elements that compare equal is left open.

    Index arithmetic.  Every index the code computes is at most [N] (see
    [chunk_end_le]), so [size_t] never wraps and indices are [nat]. *)

Module PP.

(** ** State and failure monad *)

Definition M (St A : Type) : Type := St → option (A * St).

Definition ret {St A} (a : A) : M St A := λ s, Some (a, s).

Definition bind {St A B} (m : M St A) (k : A → M St B) : M St B :=
  λ s, match m s with
       | Some (a, s') => k a s'
       | None => None
       end.

Definition fail {St A} : M St A := λ _, None.

Definition gets {St A} (f : St → A) : M St A := λ s, Some (f s, s).

Definition modify {St} (f : St → St) : M St unit := λ s, Some (tt, f s).

Definition lift_option {St A} (o : option A) : M St A :=
  λ s, match o with Some a => Some (a, s) | None => None end.

Notation "x <- c1 ;; c2" := (bind c1 (λ x, c2))
  (at level 100, c1 at next level, c2 at level 200, right associativity).
Notation "c1 ;;; c2" := (bind c1 (λ _, c2))
  (at level 100, c2 at level 200, right associativity).

(** [for (size_t j = start; j < end; ++j) body(j)] *)
Fixpoint for_loop {St} (n j : nat) (body : nat → M St unit) : M St unit :=
  match n with
  | 0 => ret tt
  | S n' => body j ;;; for_loop n' (S j) body
  end.

Definition for_range {St} (start end_ : nat) (body : nat → M St unit) : M St unit :=
  for_loop (end_ - start) start body.

(** [threads.emplace_back(worker i)] for every [i], then [join] them all:
    the workers take effect in the order [sched]. *)
Fixpoint join_all {St} (worker : nat → M St unit) (sched : list nat) : M St unit :=
  match sched with
  | [] => ret tt
  | i :: rest => worker i ;;; join_all worker rest
  end.

(** A schedule of [K] workers runs each of them exactly once. *)
Definition schedule (K : nat) (sched : list nat) : Prop := sched ≡ₚ seq 0 K.

(** [a / b] on [size_t]; dividing by zero is undefined. *)
Definition size_div (a b : nat) : option nat :=
  if decide (b = 0) then None else Some (a / b).

(** C++ vector element write [v[i] = x]; out of range is undefined. *)
Definition vec_set {A} (v : list A) (i : nat) (x : A) : option (list A) :=
  if decide (i < length v) then Some (<[i:=x]> v) else None.

(** Total correctness: from a state in [P], [m] returns a value and a state
    in [Q]. *)
Definition hoare {St A} (P : St → Prop) (m : M St A) (Q : A → St → Prop) : Prop :=
  ∀ s, P s → ∃ a s', m s = Some (a, s') ∧ Q a s'.

(** Partial correctness of a frame condition: whenever [m] returns, the
    observation [f] of the state is what it was. *)
Definition preserves {St A X} (f : St → X) (m : M St A) : Prop :=
  ∀ s a s', m s = Some (a, s') → f s' = f s.

(** The elements of [l] at the indices [start, end). *)
Definition slice {A} (start end_ : nat) (l : list A) : list A :=
  take (end_ - start) (drop start l).

(** [l] with the cells [k, k + length xs) replaced by [xs]. *)
Definition overwrite {A} (k : nat) (xs l : list A) : list A :=
  take k l ++ xs ++ drop (k + length xs) l.

(** ** Proof steps used throughout *)

(** Equality of two vectors built from [slice] and [overwrite], cell by cell;
    the arguments are the lookup lemmas of [slice] and [overwrite] and the
    length lemma of [overwrite]. *)
Ltac lookup_cases Hslice Hoverwrite Hlength :=
  apply list_eq; intros ?;
  rewrite ?Hslice, ?Hoverwrite, ?Hlength, ?length_app
    by (rewrite ?Hlength, ?length_app; simpl; lia);
  simpl; repeat case_decide; try lia; try done;
  try (by rewrite lookup_app_l by lia);
  try (rewrite lookup_app_r by lia; f_equal; lia).

(** A concrete list is a schedule. *)
Ltac solve_schedule :=
  unfold schedule; apply (bool_decide_unpack _); by vm_compute.

(** ** The partition plan (lines 41-46, repeated in every operation) *)

Definition chunk_start (chunk i : nat) : nat := i * chunk.

Definition chunk_end (N K chunk i : nat) : nat :=
  if decide (i = K - 1) then N else (i + 1) * chunk.

(** The part of [l] that worker [i] of [K] is given. *)
Definition chunk {A} (K : nat) (l : list A) (i : nat) : list A :=
  slice (chunk_start (length l / K) i) (chunk_end (length l) K (length l / K) i) l.

Definition partition_plan (N K : nat) : list (nat * nat) :=
  (λ i, (chunk_start (N / K) i, chunk_end N K (N / K) i)) <$> seq 0 K.

Section Engine.

Context {T : Type}.

(** [T()], the value-initialised element of [std::vector<T> v(n)]. *)
Variable T_default : T.
(** [operator<=] of [T]. *)
Variable T_le : T → T → bool.
(** [std::sort] on a range; it compares through [operator<] of [T] (see
    [sorts_in_place] and [sorts_by] for its contract). *)
Variable std_sort : list T → list T.
(** Which half of an asynchronous merge step completes first: [true] when
    the task started by [std::async] on [start, middle) runs before the
    calling thread's half. *)
Variable async_first : nat → nat → bool.

Record ParallelProcessor : Type := mkPP {
  data : list T;
  num_threads : nat
}.

(** Constructor (lines 24-30).  [threads] defaults to
    [std::thread::hardware_concurrency()], which is 0 when undetectable. *)
Definition new (input_data : list T) (threads : nat) : ParallelProcessor :=
  let this := mkPP input_data (if decide (threads = 0) then 1 else threads) in
  if decide (num_threads this = 0) then mkPP (data this) 4 else this.

(** The objects a worker lambda captures: [this] and one local vector of the
    enclosing call taken by reference ([result], [partial_results], [temp]). *)
Record Frame (L : Type) : Type := mkFrame {
  this : ParallelProcessor;
  loc : L
}.
Arguments mkFrame {L} _ _.
Arguments this {L} _.
Arguments loc {L} _.

(** [data[j]] *)
Definition data_at {L} (j : nat) : M (Frame L) T :=
  λ fr, match data (this fr) !! j with
        | Some x => Some (x, fr)
        | None => None
        end.

(** [data[j] = x] *)
Definition data_set {L} (j : nat) (x : T) : M (Frame L) unit :=
  λ fr, match vec_set (data (this fr)) j x with
        | Some d => Some (tt, mkFrame (mkPP d (num_threads (this fr))) (loc fr))
        | None => None
        end.

(** [v[j]] and [v[j] = x] on the captured local vector. *)
Definition loc_at (j : nat) : M (Frame (list T)) T :=
  λ fr, match loc fr !! j with
        | Some x => Some (x, fr)
        | None => None
        end.

Definition loc_set (j : nat) (x : T) : M (Frame (list T)) unit :=
  λ fr, match vec_set (loc fr) j x with
        | Some v => Some (tt, mkFrame (this fr) v)
        | None => None
        end.

(** Run [body] with a fresh local [init]; hand back the local at the end. *)
Definition with_local {L A} (init : L) (body : M (Frame L) A) : M ParallelProcessor (A * L) :=
  λ e, match body (mkFrame e init) with
       | Some (a, fr) => Some ((a, loc fr), this fr)
       | None => None
       end.

(** ** process (lines 33-61) and map (lines 127-129) *)

Definition process_worker (func : T → T) (start end_ : nat) : M (Frame (list T)) unit :=
  for_range start end_ (λ j,
    x <- data_at j ;;
    loc_set j (func x)).

Definition process (func : T → T) (sched : list nat) : M ParallelProcessor (list T) :=
  N <- gets (λ e, length (data e)) ;;
  K <- gets num_threads ;;
  chunk_size <- lift_option (size_div N K) ;;
  r <- with_local (replicate N T_default)
         (join_all (λ i, process_worker func (chunk_start chunk_size i)
                                             (chunk_end N K chunk_size i)) sched) ;;
  ret r.2.

Definition map (func : T → T) (sched : list nat) : M ParallelProcessor (list T) :=
  process func sched.

(** ** process_with_progress (lines 64-124) *)

(** One line written to [std::cout] by the monitor.  The elapsed time, read
    from the wall clock, is left out. *)
Inductive Report : Type :=
  | Progress (completed total percent : nat)
  | Complete (completed total : nat).

(** [result[j] = x] and [progress++] on the pair of captured locals. *)
Definition result_set (j : nat) (x : T) : M (Frame (list T * nat)) unit :=
  λ fr, match vec_set (loc fr).1 j x with
        | Some v => Some (tt, mkFrame (this fr) (v, (loc fr).2))
        | None => None
        end.

Definition progress_incr : M (Frame (list T * nat)) unit :=
  modify (λ fr, mkFrame (this fr) ((loc fr).1, S (loc fr).2)).

Definition progress_worker (func : T → T) (start end_ : nat) : M (Frame (list T * nat)) unit :=
  for_range start end_ (λ j,
    x <- data_at j ;;
    result_set j (func x) ;;;
    progress_incr).

(** An atomic load of [progress] by the monitor.  [polls] lists the values
    seen by the loads made while workers are still running, none of which
    can exceed the final count; once it is used up the workers are done and
    a load sees the final count. *)
Definition load (final : nat) : M (list nat) nat :=
  λ polls, match polls with
           | [] => Some (final, [])
           | p :: rest => Some (p `min` final, rest)
           end.

(** [while (progress < total_size) { ... progress * 100 / total_size ... }]
    (lines 95-105).  Out of fuel stands for a monitor that never leaves the
    loop. *)
Fixpoint monitor_loop (fuel final total_size : nat) : M (list nat) (list Report) :=
  p <- load final ;;
  if decide (p < total_size) then
    match fuel with
    | 0 => fail
    | S fuel' =>
        completed <- load final ;;
        p' <- load final ;;
        percent <- lift_option (size_div (p' * 100) total_size) ;;
        rest <- monitor_loop fuel' final total_size ;;
        ret (Progress completed total_size percent :: rest)
    end
  else ret [].

(** The monitor thread (lines 94-113): the polling loop, then one final line. *)
Definition monitor (final total_size : nat) : M (list nat) (list Report) :=
  fuel <- gets length ;;
  reports <- monitor_loop fuel final total_size ;;
  completed <- load final ;;
  ret (reports ++ [Complete completed total_size]).

Definition process_with_progress (func : T → T) (sched polls : list nat)
  : M ParallelProcessor (list T * list Report) :=
  N <- gets (λ e, length (data e)) ;;
  K <- gets num_threads ;;
  chunk_size <- lift_option (size_div N K) ;;
  r <- with_local (replicate N T_default, 0)
         (join_all (λ i, progress_worker func (chunk_start chunk_size i)
                                              (chunk_end N K chunk_size i)) sched) ;;
  out <- lift_option (fst <$> monitor r.2.2 N polls) ;;
  ret (r.2.1, out).

(** ** filter (lines 132-165) *)

(** The scan of one worker, [local_result] being its private vector. *)
Fixpoint filter_scan {L} (predicate : T → bool) (n j : nat) (local_result : list T)
  : M (Frame L) (list T) :=
  match n with
  | 0 => ret local_result
  | S n' =>
      x <- data_at j ;;
      filter_scan predicate n' (S j)
        (if predicate x then local_result ++ [x] else local_result)
  end.

(** Scan, then append to the shared [result] under [result_mutex]. *)
Definition filter_worker (predicate : T → bool) (start end_ : nat) : M (Frame (list T)) unit :=
  local_result <- filter_scan predicate (end_ - start) start [] ;;
  modify (λ fr, mkFrame (this fr) (loc fr ++ local_result)).

Definition filter (predicate : T → bool) (sched : list nat) : M ParallelProcessor (list T) :=
  N <- gets (λ e, length (data e)) ;;
  K <- gets num_threads ;;
  chunk_size <- lift_option (size_div N K) ;;
  r <- with_local []
         (join_all (λ i, filter_worker predicate (chunk_start chunk_size i)
                                                 (chunk_end N K chunk_size i)) sched) ;;
  ret r.2.

(** ** reduce (lines 168-201) *)

Fixpoint reduce_fold {L} (func : T → T → T) (n j : nat) (local_result : T) : M (Frame L) T :=
  match n with
  | 0 => ret local_result
  | S n' =>
      x <- data_at j ;;
      reduce_fold func n' (S j) (func local_result x)
  end.

Definition reduce_worker (func : T → T → T) (initial_value : T) (i start end_ : nat)
  : M (Frame (list T)) unit :=
  local_result <- reduce_fold func (end_ - start) start initial_value ;;
  loc_set i local_result.

Definition reduce (func : T → T → T) (initial_value : T) (sched : list nat)
  : M ParallelProcessor T :=
  N <- gets (λ e, length (data e)) ;;
  K <- gets num_threads ;;
  chunk_size <- lift_option (size_div N K) ;;
  r <- with_local (replicate K initial_value)
         (join_all (λ i, reduce_worker func initial_value i
                           (chunk_start chunk_size i)
                           (chunk_end N K chunk_size i)) sched) ;;
  ret (foldl func initial_value r.2).

(** ** parallel_sort (lines 204-225) and merge_sort_parallel (lines 229-274) *)

(** [std::sort(data.begin() + start, data.begin() + end)]; an invalid range
    is undefined. *)
Definition sort_range {L} (start end_ : nat) : M (Frame L) unit :=
  λ fr, let d := data (this fr) in
        if decide (start ≤ end_ ∧ end_ ≤ length d) then
          Some (tt, mkFrame
                      (mkPP (take start d
                               ++ std_sort (take (end_ - start) (drop start d))
                               ++ drop end_ d)
                            (num_threads (this fr)))
                      (loc fr))
        else None.

(** [while (i < middle && j < end)] (lines 254-260); yields the final
    [(i, j, k)]. *)
Fixpoint merge_loop (fuel middle end_ i j k : nat) : M (Frame (list T)) (nat * nat * nat) :=
  if decide (i < middle ∧ j < end_) then
    match fuel with
    | 0 => fail
    | S fuel' =>
        a <- data_at i ;;
        b <- data_at j ;;
        if T_le a b then
          loc_set k a ;;;
          merge_loop fuel' middle end_ (S i) j (S k)
        else
          loc_set k b ;;;
          merge_loop fuel' middle end_ i (S j) (S k)
    end
  else ret (i, j, k).

(** [while (i < bound) temp[k++] = data[i++];] (lines 262-268); yields the
    final [k]. *)
Fixpoint copy_rest (n i k : nat) : M (Frame (list T)) nat :=
  match n with
  | 0 => ret k
  | S n' =>
      a <- data_at i ;;
      loc_set k a ;;;
      copy_rest n' (S i) (S k)
  end.

(** Lines 250-273: the merge of [start, middle) and [middle, end) into
    [temp] and the copy back into [data]. *)
Definition merge_step (start middle end_ : nat) : M (Frame (list T)) unit :=
  ijk <- merge_loop (end_ - start) middle end_ start middle start ;;
  k' <- copy_rest (middle - ijk.1.1) ijk.1.1 ijk.2 ;;
  copy_rest (end_ - ijk.1.2) ijk.1.2 k' ;;;
  for_range start end_ (λ i,
    x <- loc_at i ;;
    data_set i x).

#[warnings="-abstract-large-number"]
Definition async_threshold : nat := 10000.

(** The recursion has depth at most [end - start]; [fuel] bounds it. *)
Fixpoint merge_sort_parallel (fuel start end_ : nat) : M (Frame (list T)) unit :=
  if decide (end_ - start ≤ 1) then ret tt
  else
    match fuel with
    | 0 => fail
    | S fuel' =>
        let middle := start + (end_ - start) / 2 in
        K <- gets (λ fr, num_threads (this fr)) ;;
        (if decide (async_threshold < end_ - start ∧ 1 < K) then
           if async_first start end_ then
             merge_sort_parallel fuel' start middle ;;;
             merge_sort_parallel fuel' middle end_
           else
             merge_sort_parallel fuel' middle end_ ;;;
             merge_sort_parallel fuel' start middle
         else
           merge_sort_parallel fuel' start middle ;;;
           merge_sort_parallel fuel' middle end_) ;;;
        merge_step start middle end_
    end.

Definition parallel_sort (sched : list nat) : M ParallelProcessor unit :=
  N <- gets (λ e, length (data e)) ;;
  K <- gets num_threads ;;
  chunk_size <- lift_option (size_div N K) ;;
  with_local tt
    (join_all (λ i, sort_range (chunk_start chunk_size i)
                               (chunk_end N K chunk_size i)) sched) ;;;
  N' <- gets (λ e, length (data e)) ;;
  with_local (replicate N' T_default) (merge_sort_parallel N' 0 N') ;;;
  ret tt.

(** ** The life of an engine: any sequence of calls on one instance *)

Inductive Call : Type :=
  | CallProcess (func : T → T) (sched : list nat)
  | CallProcessWithProgress (func : T → T) (sched polls : list nat)
  | CallMap (func : T → T) (sched : list nat)
  | CallFilter (predicate : T → bool) (sched : list nat)
  | CallReduce (func : T → T → T) (initial_value : T) (sched : list nat)
  | CallParallelSort (sched : list nat).

Definition call (c : Call) : M ParallelProcessor unit :=
  match c with
  | CallProcess f sched => process f sched ;;; ret tt
  | CallProcessWithProgress f sched polls => process_with_progress f sched polls ;;; ret tt
  | CallMap f sched => map f sched ;;; ret tt
  | CallFilter p sched => filter p sched ;;; ret tt
  | CallReduce g z sched => reduce g z sched ;;; ret tt
  | CallParallelSort sched => parallel_sort sched
  end.

Fixpoint calls (cs : list Call) : M ParallelProcessor unit :=
  match cs with
  | [] => ret tt
  | c :: rest => call c ;;; calls rest
  end.

End Engine.

Arguments mkFrame {T L} _ _.
Arguments this {T L} _.
Arguments loc {T L} _.

(** ** The sort carried out by the merge phase, as a function on lists *)

(** The order given by [operator<=]. *)
Definition le_of {T} (T_le : T → T → bool) : relation T :=
  λ a b, T_le a b = true.

Global Instance le_of_dec {T} (T_le : T → T → bool) : RelDecision (le_of T_le) :=
  λ a b, decide (T_le a b = true).

(** Top-down merge sort splitting at [length l / 2]; ties go to the lower
    half.  [merge_sort_parallel] computes it in place (see
    [merge_sort_parallel_spec]). *)
Fixpoint msort {T} (T_le : T → T → bool) (fuel : nat) (l : list T) : list T :=
  if decide (length l ≤ 1) then l
  else
    match fuel with
    | 0 => l
    | S fuel' =>
        let m := length l / 2 in
        list_merge (le_of T_le) (msort T_le fuel' (take m l)) (msort T_le fuel' (drop m l))
    end.

(** What callers owe about the comparisons of [T]. *)
Definition le_total {T} (T_le : T → T → bool) : Prop :=
  ∀ a b, T_le a b = true ∨ T_le b a = true.

Definition le_transitive {T} (T_le : T → T → bool) : Prop :=
  ∀ a b c, T_le a b = true → T_le b c = true → T_le a c = true.

Definition le_antisymmetric {T} (T_le : T → T → bool) : Prop :=
  ∀ a b, T_le a b = true → T_le b a = true → a = b.

(** [a < b] exactly when not [b <= a]. *)
Definition lt_agrees {T} (T_le T_lt : T → T → bool) : Prop :=
  ∀ a b, T_lt a b = negb (T_le b a).

(** [operator<] is a strict weak order: asymmetric, and "not less" is
    transitive. *)
Definition strict_weak {T} (T_lt : T → T → bool) : Prop :=
  (∀ a b, T_lt a b = true → T_lt b a = false) ∧
  (∀ a b c, T_lt b a = false → T_lt c b = false → T_lt c a = false).

(** ** Predicates used in the invariants of the workers *)

(** The cells listed in [P] of an output vector hold the image of the
    corresponding cells of [data]. *)
Definition written {T} (e : ParallelProcessor (T:=T)) (func : T → T)
    (P : nat → Prop) (result : list T) : Prop :=
  length result = length (data e) ∧ ∀ j, P j → result !! j = func <$> data e !! j.

(** ** The element type of the example program (lines 278-304) *)

Record Pixel : Type := mkPixel { r : Z; g : Z; b : Z }.

Definition Pixel_default : Pixel := mkPixel 0 0 0.

Global Instance Pixel_eq_dec : EqDecision Pixel.
Proof. solve_decision. Defined.

Definition brightness (p : Pixel) : Z := (r p + g p + b p)%Z.

Definition Pixel_le (p other : Pixel) : bool := (brightness p <=? brightness other)%Z.

Definition Pixel_lt (p other : Pixel) : bool := (brightness p <? brightness other)%Z.

Definition Pixel_add (p other : Pixel) : Pixel :=
  mkPixel (r p + r other) (g p + g other) (b p + b other).

(** Seventeen different pixels of the same brightness. *)
Definition pixels17 : list Pixel :=
  (λ i, mkPixel (Z.of_nat i) (16 - Z.of_nat i) 0) <$> seq 0 17.


(** ** Two library sorts meeting the contract of [std::sort]

    [std::sort] rearranges the range so that no element is less than an
    earlier one; the order of equivalent elements is unspecified. *)

Definition sorts_in_place {T} (sort : list T → list T) : Prop :=
  ∀ l, sort l ≡ₚ l.

Definition sorts_by {T} (lt : T → T → bool) (sort : list T → list T) : Prop :=
  ∀ l, StronglySorted (λ a b, lt b a = false) (sort l).

Fixpoint insert_before {T} (lt : T → T → bool) (x : T) (l : list T) : list T :=
  match l with
  | [] => [x]
  | y :: l' => if lt y x then y :: insert_before lt x l' else x :: l
  end.

(** Insertion sort from the right end: equivalent elements keep their order. *)
Definition insertion_sort {T} (lt : T → T → bool) (l : list T) : list T :=
  foldr (insert_before lt) [] l.

(** Insertion sort from the left end: equivalent elements end up reversed. *)
Definition insertion_sort_rev {T} (lt : T → T → bool) (l : list T) : list T :=
  foldl (λ acc x, insert_before lt x acc) [] l.

(** ** The tasks started by the merge phase (lines 236-246)

    Which calls of [merge_sort_parallel] start a task with [std::async]
    depends on the bounds of the range and on [num_threads] only, not on the
    elements: the number of tasks started below a call on [start, end). *)
Fixpoint async_launches (fuel K start end_ : nat) : nat :=
  if decide (end_ - start ≤ 1) then 0
  else
    match fuel with
    | 0 => 0
    | S fuel' =>
        let middle := start + (end_ - start) / 2 in
        (if decide (async_threshold < end_ - start ∧ 1 < K) then 1 else 0)
        + async_launches fuel' K start middle
        + async_launches fuel' K middle end_
    end.

(** ** The example program (lines 307-391)

    The components of a pixel are [int]s.  [Pixel] above carries them as
    unbounded integers; where the range of [int] matters, the arithmetic is
    done by the checked operations below, in which a result outside the
    range (undefined behaviour in C++) is [None]. *)

Definition INT_MAX : Z := 2147483647.
Definition INT_MIN : Z := -2147483648.

Definition int_checked (z : Z) : option Z :=
  if decide (INT_MIN ≤ z ≤ INT_MAX)%Z then Some z else None.

(** [operator+] (lines 284-286), and the lambda handed to [reduce] (lines
    355-357), on machine integers.  A [None] operand is a pixel that an
    earlier overflow left without a value. *)
Definition Pixel_add_int (p other : option Pixel) : option Pixel :=
  match p, other with
  | Some p, Some other =>
      match int_checked (r p + r other), int_checked (g p + g other),
            int_checked (b p + b other) with
      | Some r', Some g', Some b' => Some (mkPixel r' g' b')
      | _, _, _ => None
      end
  | _, _ => None
  end.

(** All three components lie in [lo, hi]. *)
Definition channels_in (lo hi : Z) (p : Pixel) : Prop :=
  (lo ≤ r p ≤ hi ∧ lo ≤ g p ≤ hi ∧ lo ≤ b p ≤ hi)%Z.

(** The test pattern (lines 315-323): one pixel, then the image row by row. *)
Definition pattern (width height x y : Z) : Pixel :=
  mkPixel ((x * 255) ÷ width) ((y * 255) ÷ height)
          (((x + y) * 255) ÷ (width + height)).

Definition image (width height : nat) : list Pixel :=
  mjoin ((λ y, (λ x, pattern (Z.of_nat width) (Z.of_nat height)
                             (Z.of_nat x) (Z.of_nat y)) <$> seq 0 width)
           <$> seq 0 height).

(** The lambdas of lines 330-337, 340-344 and 347-350. *)
Definition brighten (p : Pixel) : Pixel :=
  mkPixel (Z.min (r p + 50) 255) (Z.min (g p + 50) 255) (Z.min (b p + 50) 255).

Definition grayscale (p : Pixel) : Pixel :=
  let gray := ((r p + g p + b p) ÷ 3)%Z in mkPixel gray gray gray.

Definition is_bright (p : Pixel) : bool := (500 <? r p + g p + b p)%Z.

(** [sum / image_data.size()] (lines 363-367) divides an [int] by a
    [size_t]: the sum is converted to the unsigned type, the division is
    unsigned and its quotient is converted back to [int].  [size_t] is taken
    64 bits wide and [int] 32 bits. *)
Definition size_t_of_int (z : Z) : Z := (z `mod` 2 ^ 64)%Z.

Definition int_of_size_t (z : Z) : Z := ((z + 2 ^ 31) `mod` 2 ^ 32 - 2 ^ 31)%Z.

Definition average (sum : Z) (size : nat) : option Z :=
  if decide (size = 0) then None
  else Some (int_of_size_t (size_t_of_int sum / Z.of_nat size)).

(** What the program writes, times apart: the lines of the monitor, the
    number of bright pixels, the average colour and the pixels listed at the
    end. *)
Record Printed : Type := mkPrinted {
  progress_lines : list Report;
  bright_count : nat;
  avg_pixel : Pixel;
  listed : list Pixel
}.

(** The body of [main] from line 326 on, for an image [image_data] and a
    thread count [threads].  [polls] are the values read by the monitor;
    [s1] to [s5] are the schedules of the five calls. *)
Definition run (std_sort : list Pixel → list Pixel) (async_first : nat → nat → bool)
    (polls s1 s2 s3 s4 s5 : list nat) (image_data : list Pixel) (threads : nat)
  : option Printed :=
  fst <$>
    (brightened <- process_with_progress Pixel_default brighten s1 polls ;;
     grayscale_image <- map Pixel_default grayscale s2 ;;
     bright_pixels <- filter is_bright s3 ;;
     sum_pixel <- reduce Pixel_add (mkPixel 0 0 0) s4 ;;
     avg_r <- lift_option (average (r sum_pixel) (length image_data)) ;;
     avg_g <- lift_option (average (g sum_pixel) (length image_data)) ;;
     avg_b <- lift_option (average (b sum_pixel) (length image_data)) ;;
     parallel_sort Pixel_default Pixel_le std_sort async_first s5 ;;;
     ret (mkPrinted brightened.2 (length bright_pixels)
            (mkPixel avg_r avg_g avg_b) (take 10 image_data)))
      (new image_data threads).

(** [main]: the image is 1000 by 1000 and there are 4 threads. *)
Definition main (std_sort : list Pixel → list Pixel) (async_first : nat → nat → bool)
    (polls s1 s2 s3 s4 s5 : list nat) : option Printed :=
  run std_sort async_first polls s1 s2 s3 s4 s5 (image 1000 1000) 4.

(** * Proofs *)

(** ** Rules of the monad *)

Section Rules.

Context {St : Type}.

Lemma hoare_ret {A} (P : St → Prop) (Q : A → St → Prop) (a : A) :
  (∀ s, P s → Q a s) → hoare P (ret a) Q.
Proof. intros H s Hs. exists a, s. split; [done|auto]. Qed.

Lemma hoare_bind {A B} (P : St → Prop) (R : A → St → Prop) (Q : B → St → Prop)
    (m : M St A) (k : A → M St B) :
  hoare P m R → (∀ a, hoare (R a) (k a) Q) → hoare P (bind m k) Q.
Proof.
  intros Hm Hk s Hs. destruct (Hm s Hs) as (a & s' & Em & HR).
  destruct (Hk a s' HR) as (b & s'' & Ek & HQ).
  exists b, s''. split; [|done]. unfold bind. by rewrite Em.
Qed.

Lemma hoare_conseq {A} (P P' : St → Prop) (Q Q' : A → St → Prop) (m : M St A) :
  hoare P' m Q' → (∀ s, P s → P' s) → (∀ a s, Q' a s → Q a s) → hoare P m Q.
Proof.
  intros Hm HP HQ s Hs. destruct (Hm s (HP s Hs)) as (a & s' & E & H).
  exists a, s'. auto.
Qed.

(** A counted loop keeps an invariant indexed by the loop variable. *)
Lemma for_loop_inv (I : nat → St → Prop) (body : nat → M St unit) n j0 :
  (∀ j, j0 ≤ j < j0 + n → hoare (I j) (body j) (λ _, I (S j))) →
  hoare (I j0) (for_loop n j0 body) (λ _, I (j0 + n)).
Proof.
  revert j0. induction n as [|n IH]; intros j0 Hbody; simpl.
  - apply hoare_ret. intros s Hs. by rewrite Nat.add_0_r.
  - eapply hoare_bind; [apply Hbody; lia|]. intros [].
    replace (j0 + S n) with (S j0 + n) by lia.
    apply IH. intros j Hj. apply Hbody. lia.
Qed.

Lemma for_range_inv (I : nat → St → Prop) (body : nat → M St unit) start end_ :
  start ≤ end_ →
  (∀ j, start ≤ j < end_ → hoare (I j) (body j) (λ _, I (S j))) →
  hoare (I start) (for_range start end_ body) (λ _, I end_).
Proof.
  intros Hle Hbody. unfold for_range.
  pose proof (for_loop_inv I body (end_ - start) start) as H.
  replace (start + (end_ - start)) with end_ in H by lia. apply H, Hbody.
Qed.

(** Joined workers keep an invariant indexed by the workers that are done. *)
Lemma join_all_inv (I : list nat → St → Prop) (worker : nat → M St unit) sched :
  (∀ done i, i ∈ sched → hoare (I done) (worker i) (λ _, I (done ++ [i]))) →
  hoare (I []) (join_all worker sched) (λ _, I sched).
Proof.
  intros Hw.
  cut (∀ rest done, rest ⊆ sched →
         hoare (I done) (join_all worker rest) (λ _, I (done ++ rest))).
  { intros H. apply (H sched []). done. }
  induction rest as [|i rest IH]; intros done Hsub; simpl.
  - apply hoare_ret. intros s Hs. by rewrite app_nil_r.
  - eapply hoare_bind.
    + apply Hw. apply Hsub. left.
    + intros []. replace (done ++ i :: rest) with ((done ++ [i]) ++ rest)
        by (by rewrite <- app_assoc).
      apply IH. intros x Hx. apply Hsub. by right.
Qed.

End Rules.

(** ** The partition plan *)

Section Partition.

Variables N K : nat.
Hypothesis K_pos : 1 ≤ K.

Local Abbreviation csize := (N / K).

Lemma chunk_mul_le : K * csize ≤ N.
Proof. apply Nat.Div0.mul_div_le. Qed.

Lemma chunk_start_le_end i : i < K → chunk_start csize i ≤ chunk_end N K csize i.
Proof.
  intros Hi. unfold chunk_start, chunk_end. pose proof chunk_mul_le.
  case_decide; nia.
Qed.

Lemma chunk_end_le i : i < K → chunk_end N K csize i ≤ N.
Proof.
  intros Hi. unfold chunk_end. pose proof chunk_mul_le. case_decide; nia.
Qed.

Lemma chunk_end_start_succ i :
  S i < K → chunk_end N K csize i = chunk_start csize (S i).
Proof. intros Hi. unfold chunk_start, chunk_end. case_decide; lia. Qed.

Lemma chunk_end_last : chunk_end N K csize (K - 1) = N.
Proof. unfold chunk_end. by case_decide. Qed.

(** Every index below [N] lies in the range of some worker. *)
Lemma chunk_cover j :
  j < N → ∃ i, i < K ∧ chunk_start csize i ≤ j < chunk_end N K csize i.
Proof.
  intros Hj. pose proof chunk_mul_le as Hle.
  destruct (decide (j < (K - 1) * csize)) as [Hlt|Hge].
  - assert (0 < csize) by nia.
    exists (j / csize).
    pose proof (Nat.div_mod_eq j csize).
    pose proof (Nat.mod_upper_bound j csize).
    assert (j / csize < K - 1) by (apply Nat.Div0.div_lt_upper_bound; lia).
    unfold chunk_start, chunk_end. case_decide; [lia|]. nia.
  - exists (K - 1). unfold chunk_start, chunk_end. case_decide; [|lia]. lia.
Qed.

(** No index lies in the ranges of two workers. *)
Lemma chunk_disjoint i i' j :
  i < K → i' < K →
  chunk_start csize i ≤ j < chunk_end N K csize i →
  chunk_start csize i' ≤ j < chunk_end N K csize i' →
  i = i'.
Proof.
  unfold chunk_start, chunk_end. intros Hi Hi' H1 H2.
  repeat case_decide; try lia; nia.
Qed.

Lemma partition_plan_length : length (partition_plan N K) = K.
Proof. unfold partition_plan. by rewrite length_fmap, length_seq. Qed.

Lemma partition_plan_lookup i :
  i < K →
  partition_plan N K !! i = Some (chunk_start csize i, chunk_end N K csize i).
Proof.
  intros Hi. unfold partition_plan. rewrite list_lookup_fmap.
  by rewrite lookup_seq_lt.
Qed.

End Partition.

(** ** Slices of a vector *)

Section Slices.

Context {A : Type}.
Variable l : list A.

Local Abbreviation N := (length l).

Lemma slice_length start end_ :
  end_ ≤ N → length (slice start end_ l) = end_ - start.
Proof. intros H. unfold slice. rewrite length_take, length_drop. lia. Qed.

Lemma slice_cons start end_ x :
  l !! start = Some x → start < end_ →
  slice start end_ l = x :: slice (S start) end_ l.
Proof.
  intros Hx Hlt. unfold slice. rewrite (drop_S _ _ _ Hx).
  by replace (end_ - start) with (S (end_ - S start)) by lia.
Qed.

Lemma slice_nil start end_ : end_ ≤ start → slice start end_ l = [].
Proof. intros H. unfold slice. by replace (end_ - start) with 0 by lia. Qed.

Lemma slice_all : slice 0 N l = l.
Proof. unfold slice. rewrite drop_0, Nat.sub_0_r. by apply take_ge. Qed.

Lemma take_slice start end_ :
  start ≤ end_ → take start l ++ slice start end_ l = take end_ l.
Proof.
  intros H. unfold slice. rewrite take_take_drop. f_equal. lia.
Qed.

Lemma take_slice_drop start end_ :
  start ≤ end_ → take start l ++ slice start end_ l ++ drop end_ l = l.
Proof.
  intros H. rewrite app_assoc, take_slice by done. apply take_drop.
Qed.

End Slices.

(** ** Overwriting a range of a vector *)

Section Overwrite.

Context {A : Type}.
Implicit Types l xs ys : list A.

Lemma lookup_slice l a b i :
  slice a b l !! i = if decide (i < b - a) then l !! (a + i) else None.
Proof.
  unfold slice. case_decide.
  - by rewrite lookup_take_lt, lookup_drop by done.
  - by rewrite lookup_take_ge by lia.
Qed.

Lemma lookup_overwrite l k xs i :
  k + length xs ≤ length l →
  overwrite k xs l !! i =
    if decide (i < k) then l !! i
    else if decide (i < k + length xs) then xs !! (i - k)
    else l !! i.
Proof.
  intros Hk. unfold overwrite.
  assert (length (take k l) = k) as Htake by (rewrite length_take; lia).
  repeat case_decide.
  - by rewrite lookup_app_l, lookup_take_lt by lia.
  - rewrite lookup_app_r, Htake by lia. by rewrite lookup_app_l by lia.
  - rewrite lookup_app_r, Htake by lia. rewrite lookup_app_r by lia.
    rewrite lookup_drop. f_equal. lia.
Qed.

Lemma overwrite_length l k xs :
  k + length xs ≤ length l → length (overwrite k xs l) = length l.
Proof.
  intros Hk. unfold overwrite. rewrite !length_app, length_take, length_drop. lia.
Qed.

Lemma overwrite_nil l k : overwrite k [] l = l.
Proof. unfold overwrite. simpl. rewrite Nat.add_0_r. apply take_drop. Qed.

Lemma overwrite_take_drop l k xs b :
  b = k + length xs → overwrite k xs l = take k l ++ xs ++ drop b l.
Proof. by intros ->. Qed.

Lemma overwrite_snoc l k xs a :
  k + length xs < length l →
  <[k + length xs := a]> (overwrite k xs l) = overwrite k (xs ++ [a]) l.
Proof.
  intros Hk. apply list_eq. intros i.
  rewrite (lookup_overwrite l k (xs ++ [a])) by (rewrite length_app; simpl; lia).
  rewrite length_app. simpl.
  destruct (decide (i = k + length xs)) as [->|Hne].
  - rewrite list_lookup_insert_eq by (rewrite overwrite_length; lia).
    repeat case_decide; try lia.
    rewrite lookup_app_r by lia.
    by replace (k + length xs - k - length xs) with 0 by lia.
  - rewrite list_lookup_insert_ne, lookup_overwrite by (done || lia).
    repeat case_decide; try lia; try done.
    by rewrite lookup_app_l by lia.
Qed.

Lemma overwrite_app l k xs ys :
  k + length xs + length ys ≤ length l →
  overwrite (k + length xs) ys (overwrite k xs l) = overwrite k (xs ++ ys) l.
Proof.
  intros Hk. lookup_cases lookup_slice lookup_overwrite overwrite_length.
Qed.

Lemma overwrite_app_rev l k xs ys :
  k + length xs + length ys ≤ length l →
  overwrite k xs (overwrite (k + length xs) ys l) = overwrite k (xs ++ ys) l.
Proof.
  intros Hk. lookup_cases lookup_slice lookup_overwrite overwrite_length.
Qed.

Lemma overwrite_overwrite l k xs ys :
  length xs = length ys → k + length xs ≤ length l →
  overwrite k ys (overwrite k xs l) = overwrite k ys l.
Proof. intros Hlen Hk. lookup_cases lookup_slice lookup_overwrite overwrite_length. Qed.

Lemma slice_overwrite_after l k xs a b :
  k + length xs ≤ a → k + length xs ≤ length l →
  slice a b (overwrite k xs l) = slice a b l.
Proof. intros Ha Hk. lookup_cases lookup_slice lookup_overwrite overwrite_length. Qed.

Lemma slice_overwrite_before l k xs a b :
  b ≤ k → k + length xs ≤ length l →
  slice a b (overwrite k xs l) = slice a b l.
Proof. intros Hb Hk. lookup_cases lookup_slice lookup_overwrite overwrite_length. Qed.

Lemma slice_overwrite_app_l l k xs ys m :
  m = k + length xs → k + length xs + length ys ≤ length l →
  slice k m (overwrite k (xs ++ ys) l) = xs.
Proof.
  intros -> Hk. lookup_cases lookup_slice lookup_overwrite overwrite_length.
  - rewrite lookup_app_l by lia. f_equal. lia.
  - symmetry. apply lookup_ge_None_2. lia.
Qed.

Lemma slice_overwrite_app_r l k xs ys m b :
  m = k + length xs → b = m + length ys → b ≤ length l →
  slice m b (overwrite k (xs ++ ys) l) = ys.
Proof.
  intros -> -> Hk. lookup_cases lookup_slice lookup_overwrite overwrite_length.
  symmetry. apply lookup_ge_None_2. lia.
Qed.

Lemma overwrite_slice_id l a b :
  a ≤ b → b ≤ length l → overwrite a (slice a b l) l = l.
Proof.
  intros Hab Hb. rewrite (overwrite_take_drop l a _ b).
  - by apply take_slice_drop.
  - rewrite slice_length by done. lia.
Qed.

Lemma overwrite_all l xs : length xs = length l → overwrite 0 xs l = xs.
Proof.
  intros H. unfold overwrite. rewrite take_0, drop_ge by lia. simpl.
  apply app_nil_r.
Qed.

Lemma take_slice_mid l a m b :
  a ≤ m → m ≤ b → take (m - a) (slice a b l) = slice a m l.
Proof.
  intros Ham Hmb. unfold slice. rewrite take_take. f_equal. lia.
Qed.

Lemma drop_slice_mid l a m b :
  a ≤ m → m ≤ b → drop (m - a) (slice a b l) = slice m b l.
Proof.
  intros Ham Hmb. apply list_eq. intros i.
  rewrite lookup_drop, !lookup_slice.
  repeat case_decide; try lia; try done. f_equal. lia.
Qed.

End Overwrite.

(** ** The chunks of a vector *)

Section Chunks.

Context {A : Type}.
Variable l : list A.
Variable K : nat.
Hypothesis K_pos : 1 ≤ K.

Local Abbreviation N := (length l).
Local Abbreviation csize := (N / K).

Lemma chunk_length i : i < K → length (chunk K l i) = chunk_end N K csize i - chunk_start csize i.
Proof. intros Hi. unfold chunk. apply slice_length. by apply chunk_end_le. Qed.

(** The chunks of the first [n] workers make up a prefix of the vector. *)
Lemma chunks_prefix n :
  n < K → mjoin (chunk K l <$> seq 0 n) = take (n * csize) l.
Proof.
  induction n as [|n IH]; intros Hn; [done|].
  rewrite seq_S, fmap_app, join_app, IH by lia. simpl. rewrite app_nil_r.
  unfold chunk, chunk_start, chunk_end. case_decide; [lia|].
  rewrite take_slice by lia. f_equal. lia.
Qed.

(** The chunks of all workers, in the order of their ids, make up the vector. *)
Lemma chunks_join : mjoin (chunk K l <$> seq 0 K) = l.
Proof.
  replace K with (S (K - 1)) at 2 by lia.
  rewrite seq_S, fmap_app, join_app, chunks_prefix by lia. simpl.
  rewrite app_nil_r. unfold chunk, chunk_start, chunk_end.
  case_decide; [|lia]. pose proof (chunk_mul_le N K).
  rewrite take_slice by lia. by apply take_ge.
Qed.

Lemma chunks_length_sum :
  sum_list ((λ i, chunk_end N K csize i - chunk_start csize i) <$> seq 0 K) = N.
Proof.
  transitivity (length (mjoin (chunk K l <$> seq 0 K))); [|by rewrite chunks_join].
  rewrite length_join, <- list_fmap_compose. f_equal.
  apply list_fmap_ext. intros j i Hi. simpl.
  apply lookup_seq in Hi as [-> Hi]. rewrite chunk_length; [done|lia].
Qed.

(** Either the chunk size is 0, every chunk but the last is empty and the last
    is the vector, or no chunk is empty. *)
Lemma chunks_shape :
  (chunk K l <$> seq 0 K = replicate (K - 1) [] ++ [l]) ∨
  Forall (λ c, c ≠ []) (chunk K l <$> seq 0 K).
Proof.
  destruct (decide (csize = 0)) as [Hz|Hnz].
  - left. replace K with (S (K - 1)) at 2 by lia.
    rewrite seq_S, fmap_app. simpl. f_equal.
    + apply list_eq. intros i. rewrite list_lookup_fmap.
      destruct (decide (i < K - 1)) as [Hi|Hi].
      * rewrite lookup_seq_lt, lookup_replicate_2 by done. simpl. f_equal.
        unfold chunk, chunk_start, chunk_end. rewrite Hz.
        case_decide; [lia|]. apply slice_nil. lia.
      * rewrite lookup_seq_ge by lia. symmetry. apply lookup_replicate_None. lia.
    + unfold chunk, chunk_start, chunk_end. rewrite Hz.
      case_decide; [|lia]. rewrite Nat.mul_0_r. by rewrite slice_all.
  - right. apply Forall_fmap, Forall_forall. intros i Hi. simpl.
    apply elem_of_seq in Hi. intros Hnil.
    assert (length (chunk K l i) = 0) as Hlen by (by rewrite Hnil).
    rewrite chunk_length in Hlen by lia.
    pose proof (chunk_mul_le N K). unfold chunk_start, chunk_end in Hlen.
    case_decide; nia.
Qed.

End Chunks.

(** ** process and map *)

Section Process.

Context {T : Type}.
Variable T_default : T.
Variable e : ParallelProcessor (T:=T).
Variable func : T → T.

Local Abbreviation N := (length (data e)).
Local Abbreviation K := (num_threads e).
Local Abbreviation written := (written e func).

Lemma written_all result : written (λ j, j < N) result → result = func <$> data e.
Proof.
  intros [Hlen H]. apply list_eq. intros j. rewrite list_lookup_fmap.
  destruct (decide (j < N)) as [Hj|Hj]; [by apply H|].
  rewrite !lookup_ge_None_2; [done|lia..].
Qed.

Lemma process_body_spec (P : nat → Prop) j :
  j < N →
  hoare (λ fr, this fr = e ∧ written P (loc fr))
        (x <- data_at j ;; loc_set j (func x))
        (λ _ fr, this fr = e ∧ written (λ j', P j' ∨ j' = j) (loc fr)).
Proof.
  intros Hj fr (He & Hlen & Hw).
  destruct (lookup_lt_is_Some_2 (data e) j Hj) as [x Hx].
  unfold bind, data_at, loc_set, vec_set. rewrite He, Hx.
  case_decide; [|lia]. eexists _, _. split; [done|]. simpl.
  split; [done|]. split; [by rewrite length_insert|].
  intros j' [HP| ->].
  - destruct (decide (j = j')) as [->|Hne].
    + rewrite list_lookup_insert_eq by lia. by rewrite Hx.
    + rewrite list_lookup_insert_ne by done. by apply Hw.
  - rewrite list_lookup_insert_eq by lia. by rewrite Hx.
Qed.

Lemma process_worker_spec (P : nat → Prop) start end_ :
  start ≤ end_ → end_ ≤ N →
  hoare (λ fr, this fr = e ∧ written P (loc fr))
        (process_worker func start end_)
        (λ _ fr, this fr = e ∧ written (λ j, P j ∨ start ≤ j < end_) (loc fr)).
Proof.
  intros Hse HeN. unfold process_worker.
  eapply hoare_conseq.
  - apply (for_range_inv
             (λ j' fr, this fr = e ∧ written (λ j, P j ∨ start ≤ j < j') (loc fr)));
      [done|].
    intros j Hj. eapply hoare_conseq;
      [apply (process_body_spec (λ j0, P j0 ∨ start ≤ j0 < j) j); lia|done|].
    intros _ fr (He & Hlen & Hw). split; [done|]. split; [done|].
    intros j' [HP|Hj']; apply Hw; [by left; left|].
    destruct (decide (j' = j)); [by right|left; right; lia].
  - intros fr (He & Hlen & Hw). split; [done|]. split; [done|].
    intros j [HP|Hj]; [by apply Hw|lia].
  - done.
Qed.

Lemma process_workers_spec sched :
  1 ≤ K → schedule K sched →
  hoare (λ fr, fr = mkFrame e (replicate N T_default))
        (join_all (λ i, process_worker func (chunk_start (N / K) i)
                                            (chunk_end N K (N / K) i)) sched)
        (λ _ fr, this fr = e ∧ loc fr = func <$> data e).
Proof.
  intros HK Hsched.
  pose (covered (done : list nat) (j : nat) :=
          ∃ i, i ∈ done ∧ chunk_start (N / K) i ≤ j < chunk_end N K (N / K) i).
  eapply hoare_conseq.
  - apply (join_all_inv (λ done fr, this fr = e ∧ written (covered done) (loc fr))).
    intros done i Hi.
    assert (i < K) as HiK.
    { unfold schedule in Hsched. rewrite Hsched in Hi.
      apply elem_of_seq in Hi. lia. }
    eapply hoare_conseq.
    + apply (process_worker_spec (covered done)).
      * by apply chunk_start_le_end.
      * by apply chunk_end_le.
    + done.
    + intros _ fr (He & Hlen & Hw). split; [done|]. split; [done|].
      intros j (i' & Hi' & Hj). apply Hw.
      apply elem_of_app in Hi' as [Hi'|Hi'].
      * left. by exists i'.
      * apply list_elem_of_singleton in Hi' as ->. by right.
  - intros fr ->. simpl. split; [done|]. split; [by rewrite length_replicate|].
    intros j (i & Hi & _). by apply elem_of_nil in Hi.
  - intros _ fr (He & Hw). split; [done|]. apply written_all.
    destruct Hw as [Hlen Hw]. split; [done|]. intros j Hj. apply Hw.
    destruct (chunk_cover N K HK j Hj) as (i & HiK & Hr).
    exists i. split; [|done]. unfold schedule in Hsched. rewrite Hsched.
    apply elem_of_seq. lia.
Qed.

Lemma process_spec sched :
  1 ≤ K → schedule K sched →
  process T_default func sched e = Some (func <$> data e, e).
Proof.
  intros HK Hsched.
  destruct (process_workers_spec sched HK Hsched _ eq_refl)
    as ([] & fr & Erun & He & Hloc).
  unfold process, bind, gets, lift_option, size_div, with_local, ret.
  case_decide; [lia|]. rewrite Erun. simpl. by rewrite He, Hloc.
Qed.

(** *** process_with_progress *)

Lemma progress_body_spec (P : nat → Prop) j c :
  j < N →
  hoare (λ fr, this fr = e ∧ written P (loc fr).1 ∧ (loc fr).2 = c)
        (x <- data_at j ;; result_set j (func x) ;;; progress_incr)
        (λ _ fr, this fr = e ∧ written (λ j', P j' ∨ j' = j) (loc fr).1
                 ∧ (loc fr).2 = S c).
Proof.
  intros Hj fr (He & (Hlen & Hw) & Hc).
  destruct (lookup_lt_is_Some_2 (data e) j Hj) as [x Hx].
  unfold bind, data_at, result_set, progress_incr, modify, vec_set.
  rewrite He, Hx. case_decide; [|lia]. eexists _, _. split; [done|]. simpl.
  split; [done|]. split; [|by rewrite Hc].
  split; [by rewrite length_insert|].
  intros j' [HP| ->].
  - destruct (decide (j = j')) as [->|Hne].
    + rewrite list_lookup_insert_eq by lia. by rewrite Hx.
    + rewrite list_lookup_insert_ne by done. by apply Hw.
  - rewrite list_lookup_insert_eq by lia. by rewrite Hx.
Qed.

Lemma progress_worker_spec (P : nat → Prop) start end_ c :
  start ≤ end_ → end_ ≤ N →
  hoare (λ fr, this fr = e ∧ written P (loc fr).1 ∧ (loc fr).2 = c)
        (progress_worker func start end_)
        (λ _ fr, this fr = e ∧ written (λ j, P j ∨ start ≤ j < end_) (loc fr).1
                 ∧ (loc fr).2 = c + (end_ - start)).
Proof.
  intros Hse HeN. unfold progress_worker.
  eapply hoare_conseq.
  - apply (for_range_inv
             (λ j' fr, this fr = e
                       ∧ written (λ j, P j ∨ start ≤ j < j') (loc fr).1
                       ∧ (loc fr).2 = c + (j' - start))); [done|].
    intros j Hj. eapply hoare_conseq;
      [apply (progress_body_spec (λ j0, P j0 ∨ start ≤ j0 < j) j (c + (j - start)));
       lia|done|].
    intros _ fr (He & (Hlen & Hw) & Hc). split; [done|]. split; [|lia].
    split; [done|].
    intros j' [HP|Hj']; apply Hw; [by left; left|].
    destruct (decide (j' = j)); [by right|left; right; lia].
  - intros fr (He & (Hlen & Hw) & Hc). split; [done|]. split; [|lia].
    split; [done|]. intros j [HP|Hj]; [by apply Hw|lia].
  - intros _ fr (He & Hw & Hc). split; [done|]. split; [done|]. lia.
Qed.

Lemma progress_workers_spec sched :
  1 ≤ K → schedule K sched →
  hoare (λ fr, fr = mkFrame e (replicate N T_default, 0))
        (join_all (λ i, progress_worker func (chunk_start (N / K) i)
                                             (chunk_end N K (N / K) i)) sched)
        (λ _ fr, this fr = e ∧ loc fr = (func <$> data e, N)).
Proof.
  intros HK Hsched.
  pose (covered (done : list nat) (j : nat) :=
          ∃ i, i ∈ done ∧ chunk_start (N / K) i ≤ j < chunk_end N K (N / K) i).
  pose (len (i : nat) := chunk_end N K (N / K) i - chunk_start (N / K) i).
  eapply hoare_conseq.
  - apply (join_all_inv
             (λ done fr, this fr = e ∧ written (covered done) (loc fr).1
                         ∧ (loc fr).2 = sum_list (len <$> done))).
    intros done i Hi.
    assert (i < K) as HiK.
    { unfold schedule in Hsched. rewrite Hsched in Hi.
      apply elem_of_seq in Hi. lia. }
    eapply hoare_conseq.
    + apply (progress_worker_spec (covered done) _ _ (sum_list (len <$> done))).
      * by apply chunk_start_le_end.
      * by apply chunk_end_le.
    + done.
    + intros _ fr (He & (Hlen & Hw) & Hc). split; [done|]. split.
      * split; [done|]. intros j (i' & Hi' & Hj). apply Hw.
        apply elem_of_app in Hi' as [Hi'|Hi'].
        -- left. by exists i'.
        -- apply list_elem_of_singleton in Hi' as ->. by right.
      * rewrite fmap_app, sum_list_with_app. simpl. unfold len in *. lia.
  - intros fr ->. simpl. split; [done|]. split; [|done].
    split; [by rewrite length_replicate|].
    intros j (i & Hi & _). by apply elem_of_nil in Hi.
  - intros _ fr (He & Hw & Hc). split; [done|].
    destruct (loc fr) as [result progress]. simpl in *. f_equal.
    + apply written_all. destruct Hw as [Hlen Hw]. split; [done|].
      intros j Hj. apply Hw.
      destruct (chunk_cover N K HK j Hj) as (i & HiK & Hr).
      exists i. split; [|done]. unfold schedule in Hsched. rewrite Hsched.
      apply elem_of_seq. lia.
    + rewrite Hc. unfold schedule in Hsched. rewrite Hsched.
      by apply chunks_length_sum.
Qed.

(** The monitor leaves its loop once the counter has reached the total. *)
Lemma monitor_loop_total final total_size :
  total_size ≤ final →
  ∀ fuel polls, length polls ≤ fuel →
    ∃ out rest, monitor_loop fuel final total_size polls = Some (out, rest).
Proof.
  intros Hfin. induction fuel as [|fuel IH]; intros polls Hlen.
  - destruct polls; [|simpl in Hlen; lia]. simpl. unfold bind, load.
    case_decide; [lia|]. by eexists _, _.
  - simpl. unfold bind at 1.
    destruct polls as [|p polls]; simpl.
    { case_decide; [lia|]. by eexists _, _. }
    case_decide; [|by eexists _, _].
    assert (total_size ≠ 0) by lia.
    unfold bind, lift_option, size_div.
    destruct polls as [|p1 polls]; simpl.
    { case_decide; [done|]. destruct (IH [] ltac:(simpl; lia)) as (out & rest & E).
      rewrite E. by eexists _, _. }
    destruct polls as [|p2 polls]; simpl.
    { case_decide; [done|]. destruct (IH [] ltac:(simpl; lia)) as (out & rest & E).
      rewrite E. by eexists _, _. }
    case_decide; [done|]. simpl in Hlen.
    destruct (IH polls ltac:(lia)) as (out & rest & E).
    rewrite E. by eexists _, _.
Qed.

Lemma monitor_total final total_size polls :
  total_size ≤ final →
  ∃ out rest, monitor final total_size polls = Some (out, rest).
Proof.
  intros Hfin. unfold monitor, bind, gets.
  destruct (monitor_loop_total final total_size Hfin (length polls) polls)
    as (out & rest & E); [done|].
  rewrite E. destruct rest; simpl; by eexists _, _.
Qed.

(** With nothing to process the loop is not entered: no percentage is
    computed and the only line written is the final one. *)
Lemma monitor_empty polls :
  fst <$> monitor 0 0 polls = Some [Complete 0 0].
Proof.
  unfold monitor, bind, gets.
  destruct polls as [|p polls]; simpl; [done|].
  unfold bind. simpl.
  destruct polls; simpl; by rewrite ?Nat.min_0_r.
Qed.

Lemma process_with_progress_spec sched polls :
  1 ≤ K → schedule K sched →
  ∃ out, process_with_progress T_default func sched polls e
         = Some ((func <$> data e, out), e).
Proof.
  intros HK Hsched.
  destruct (progress_workers_spec sched HK Hsched _ eq_refl)
    as ([] & fr & Erun & He & Hloc).
  destruct (monitor_total N N polls) as (out & rest & Emon); [done|].
  exists out.
  unfold process_with_progress, bind, gets, lift_option, size_div, with_local, ret.
  case_decide; [lia|]. rewrite Erun. simpl. rewrite Hloc. simpl.
  rewrite Emon. simpl. by rewrite He.
Qed.

End Process.

(** ** filter *)

Section Filter.

Context {T : Type}.
Variable e : ParallelProcessor (T:=T).
Variable predicate : T → bool.

Local Abbreviation N := (length (data e)).
Local Abbreviation K := (num_threads e).

Lemma filter_scan_spec {L} (fr : Frame L) n j local_result :
  this fr = e → j + n ≤ N →
  filter_scan predicate n j local_result fr
  = Some (local_result ++ List.filter predicate (slice j (j + n) (data e)), fr).
Proof.
  intros He. revert j local_result.
  induction n as [|n IH]; intros j local_result Hj; simpl.
  - rewrite slice_nil by lia. simpl. by rewrite app_nil_r.
  - destruct (lookup_lt_is_Some_2 (data e) j ltac:(lia)) as [x Hx].
    unfold bind, data_at. rewrite He, Hx, IH by lia.
    rewrite (slice_cons _ j (j + S n) x) by (done || lia). simpl.
    replace (S (j + n)) with (j + S n) by lia.
    destruct (predicate x); [|done]. by rewrite <- app_assoc.
Qed.

Lemma filter_worker_spec done i :
  1 ≤ K → i < K →
  hoare (λ fr, this fr = e
               ∧ loc fr = mjoin ((λ i, List.filter predicate (chunk K (data e) i)) <$> done))
        (filter_worker predicate (chunk_start (N / K) i) (chunk_end N K (N / K) i))
        (λ _ fr, this fr = e
                 ∧ loc fr = mjoin ((λ i, List.filter predicate (chunk K (data e) i))
                                     <$> (done ++ [i]))).
Proof.
  intros HK Hi fr [He Hloc].
  pose proof (chunk_start_le_end N K HK i Hi).
  pose proof (chunk_end_le N K HK i Hi).
  unfold filter_worker, bind, modify.
  rewrite (filter_scan_spec fr) by (done || lia). simpl.
  eexists _, _. split; [done|]. simpl. split; [done|].
  rewrite Hloc, fmap_app, join_app. simpl. rewrite app_nil_r. do 3 f_equal.
  unfold chunk. f_equal. lia.
Qed.

Lemma filter_join (ls : list (list T)) :
  mjoin (List.filter predicate <$> ls) = List.filter predicate (mjoin ls).
Proof.
  induction ls as [|l ls IH]; [done|]. csimpl. by rewrite List.filter_app, IH.
Qed.

(** The returned vector lists the matches chunk by chunk, the chunks in the
    order in which their workers took the lock. *)
Lemma filter_spec sched :
  1 ≤ K → schedule K sched →
  filter predicate sched e
  = Some (mjoin ((λ i, List.filter predicate (chunk K (data e) i)) <$> sched), e).
Proof.
  intros HK Hsched.
  assert (hoare (λ fr, fr = mkFrame e [])
            (join_all (λ i, filter_worker predicate (chunk_start (N / K) i)
                                          (chunk_end N K (N / K) i)) sched)
            (λ _ fr, this fr = e
                     ∧ loc fr = mjoin ((λ i, List.filter predicate (chunk K (data e) i))
                                         <$> sched))) as Hrun.
  { eapply hoare_conseq.
    - apply (join_all_inv
               (λ done fr, this fr = e
                  ∧ loc fr = mjoin ((λ i, List.filter predicate (chunk K (data e) i))
                                      <$> done))).
      intros done i Hi. apply filter_worker_spec; [done|].
      unfold schedule in Hsched. rewrite Hsched in Hi.
      apply elem_of_seq in Hi. lia.
    - by intros fr ->.
    - done. }
  destruct (Hrun _ eq_refl) as ([] & fr & Erun & He & Hloc).
  unfold filter, bind, gets, lift_option, size_div, with_local, ret.
  case_decide; [lia|]. rewrite Erun. simpl. by rewrite He, Hloc.
Qed.

Lemma filter_chunks_Permutation sched :
  1 ≤ K → schedule K sched →
  mjoin ((λ i, List.filter predicate (chunk K (data e) i)) <$> sched)
  ≡ₚ List.filter predicate (data e).
Proof.
  intros HK Hsched. unfold schedule in Hsched. rewrite Hsched.
  rewrite (list_fmap_compose (chunk K (data e)) (List.filter predicate)).
  by rewrite filter_join, chunks_join.
Qed.

End Filter.

(** ** reduce *)

Section Reduce.

Context {T : Type}.
Variable e : ParallelProcessor (T:=T).
Variable func : T → T → T.
Variable initial_value : T.

Local Abbreviation N := (length (data e)).
Local Abbreviation K := (num_threads e).

Lemma reduce_fold_spec {L} (fr : Frame L) n j local_result :
  this fr = e → j + n ≤ N →
  reduce_fold func n j local_result fr
  = Some (foldl func local_result (slice j (j + n) (data e)), fr).
Proof.
  intros He. revert j local_result.
  induction n as [|n IH]; intros j local_result Hj; simpl.
  - by rewrite slice_nil by lia.
  - destruct (lookup_lt_is_Some_2 (data e) j ltac:(lia)) as [x Hx].
    unfold bind, data_at. rewrite He, Hx, IH by lia.
    rewrite (slice_cons _ j (j + S n) x) by (done || lia). simpl.
    by replace (S (j + n)) with (j + S n) by lia.
Qed.

Lemma reduce_worker_spec (P : nat → Prop) i :
  1 ≤ K → i < K →
  hoare (λ fr, this fr = e ∧ length (loc fr) = K
               ∧ ∀ i', P i' → loc fr !! i' = Some (foldl func initial_value (chunk K (data e) i')))
        (reduce_worker func initial_value i
           (chunk_start (N / K) i) (chunk_end N K (N / K) i))
        (λ _ fr, this fr = e ∧ length (loc fr) = K
                 ∧ ∀ i', P i' ∨ i' = i →
                     loc fr !! i' = Some (foldl func initial_value (chunk K (data e) i'))).
Proof.
  intros HK Hi fr (He & Hlen & Hloc).
  pose proof (chunk_start_le_end N K HK i Hi).
  pose proof (chunk_end_le N K HK i Hi).
  unfold reduce_worker, bind, loc_set, vec_set.
  rewrite (reduce_fold_spec fr) by (done || lia). simpl.
  case_decide; [|lia]. eexists _, _. split; [done|]. simpl.
  split; [done|]. split; [by rewrite length_insert|].
  assert (foldl func initial_value
            (slice (chunk_start (N / K) i)
               (chunk_start (N / K) i
                + (chunk_end N K (N / K) i - chunk_start (N / K) i)) (data e))
          = foldl func initial_value (chunk K (data e) i)) as ->.
  { unfold chunk. do 2 f_equal. lia. }
  intros i' [HP| ->].
  - destruct (decide (i = i')) as [->|Hne].
    + by rewrite list_lookup_insert_eq by lia.
    + rewrite list_lookup_insert_ne by done. by apply Hloc.
  - by rewrite list_lookup_insert_eq by lia.
Qed.

(** The two-phase fold: the fold of the per-chunk folds. *)
Lemma reduce_spec sched :
  1 ≤ K → schedule K sched →
  reduce func initial_value sched e
  = Some (foldl func initial_value
            (foldl func initial_value <$> (chunk K (data e) <$> seq 0 K)), e).
Proof.
  intros HK Hsched.
  assert (hoare (λ fr, fr = mkFrame e (replicate K initial_value))
            (join_all (λ i, reduce_worker func initial_value i
                              (chunk_start (N / K) i) (chunk_end N K (N / K) i)) sched)
            (λ _ fr, this fr = e
                     ∧ loc fr = foldl func initial_value
                                  <$> (chunk K (data e) <$> seq 0 K))) as Hrun.
  { eapply hoare_conseq.
    - apply (join_all_inv
               (λ done fr, this fr = e ∧ length (loc fr) = K
                  ∧ ∀ i', i' ∈ done →
                      loc fr !! i' = Some (foldl func initial_value (chunk K (data e) i')))).
      intros done i Hi.
      eapply hoare_conseq.
      + apply (reduce_worker_spec (λ i', i' ∈ done) i); [done|].
        unfold schedule in Hsched. rewrite Hsched in Hi.
        apply elem_of_seq in Hi. lia.
      + done.
      + intros _ fr (He & Hlen & Hloc). split; [done|]. split; [done|].
        intros i' Hi'. apply Hloc. apply elem_of_app in Hi' as [Hi'|Hi'].
        * by left.
        * right. by apply list_elem_of_singleton in Hi'.
    - intros fr ->. simpl. split; [done|]. split; [by rewrite length_replicate|].
      intros i' Hi'. by apply elem_of_nil in Hi'.
    - intros _ fr (He & Hlen & Hloc). split; [done|].
      apply list_eq. intros i. rewrite !list_lookup_fmap.
      destruct (decide (i < K)) as [Hi|Hi].
      + rewrite lookup_seq_lt by done. simpl. apply Hloc.
        unfold schedule in Hsched. rewrite Hsched. apply elem_of_seq. lia.
      + rewrite lookup_seq_ge by lia. simpl. apply lookup_ge_None_2. lia. }
  destruct (Hrun _ eq_refl) as ([] & fr & Erun & He & Hloc).
  unfold reduce, bind, gets, lift_option, size_div, with_local, ret.
  case_decide; [lia|]. rewrite Erun. simpl. by rewrite He, Hloc.
Qed.

(** *** The algebra of the two-phase fold *)

Hypothesis func_assoc : ∀ x y z, func (func x y) z = func x (func y z).
Hypothesis left_identity : ∀ x, func initial_value x = x.

Lemma foldl_shift x a l : func x (foldl func a l) = foldl func (func x a) l.
Proof.
  revert a. induction l as [|y l IH]; intros a; simpl; [done|].
  by rewrite IH, func_assoc.
Qed.

Lemma fold_nonempty_chunk acc c :
  c ≠ [] → func acc (foldl func initial_value c) = foldl func acc c.
Proof.
  destruct c as [|a c]; [done|]. intros _. simpl.
  by rewrite left_identity, foldl_shift.
Qed.

Lemma fold_nonempty_chunks acc (cs : list (list T)) :
  Forall (λ c, c ≠ []) cs →
  foldl func acc (foldl func initial_value <$> cs) = foldl func acc (mjoin cs).
Proof.
  intros Hcs. revert acc. induction Hcs as [|c cs Hc _ IH]; intros acc; [done|].
  simpl. by rewrite foldl_app, IH, fold_nonempty_chunk.
Qed.

Lemma fold_empty_chunks n (cs : list (list T)) :
  foldl func initial_value
    (foldl func initial_value <$> (replicate n [] ++ cs))
  = foldl func initial_value (foldl func initial_value <$> cs).
Proof. induction n as [|n IH]; [done|]. simpl. by rewrite left_identity. Qed.

Lemma fold_chunks :
  1 ≤ K →
  foldl func initial_value
    (foldl func initial_value <$> (chunk K (data e) <$> seq 0 K))
  = foldl func initial_value (data e).
Proof.
  intros HK. destruct (chunks_shape (data e) K HK) as [E|Hne].
  - rewrite E, fold_empty_chunks. simpl. by rewrite left_identity.
  - by rewrite fold_nonempty_chunks, chunks_join.
Qed.

End Reduce.

(** ** The merge sort on lists *)

Section Msort.

Context {T : Type}.
Variable T_le : T → T → bool.

Local Abbreviation R := (le_of T_le).

Lemma msort_0 l : msort T_le 0 l = l.
Proof. simpl. by case_decide. Qed.

Lemma msort_S fuel l :
  msort T_le (S fuel) l =
    if decide (length l ≤ 1) then l
    else list_merge R (msort T_le fuel (take (length l / 2) l))
                      (msort T_le fuel (drop (length l / 2) l)).
Proof. done. Qed.

Lemma msort_short fuel l : length l ≤ 1 → msort T_le fuel l = l.
Proof. intros H. destruct fuel; [apply msort_0|]. rewrite msort_S. by case_decide. Qed.

Lemma msort_Permutation fuel l : msort T_le fuel l ≡ₚ l.
Proof.
  revert l. induction fuel as [|fuel IH]; intros l.
  - by rewrite msort_0.
  - rewrite msort_S. case_decide; [done|].
    rewrite merge_Permutation, !IH. by rewrite take_drop.
Qed.

Lemma msort_length fuel l : length (msort T_le fuel l) = length l.
Proof. apply Permutation_length, msort_Permutation. Qed.

Lemma short_Sorted l : length l ≤ 1 → Sorted R l.
Proof.
  intros H. destruct l as [|a [|b l]]; simpl in *; try lia; repeat constructor.
Qed.

Lemma msort_Sorted `{!Total R} fuel l :
  length l ≤ fuel → Sorted R (msort T_le fuel l).
Proof.
  revert l. induction fuel as [|fuel IH]; intros l Hlen.
  - rewrite msort_0. apply short_Sorted. lia.
  - rewrite msort_S. case_decide; [by apply short_Sorted|].
    pose proof (Nat.div_mod_eq (length l) 2).
    pose proof (Nat.mod_upper_bound (length l) 2).
    apply Sorted_list_merge; [done|apply IH..].
    + rewrite length_take. lia.
    + rewrite length_drop. lia.
Qed.

(** Merging two runs that already follow each other changes nothing. *)
Lemma list_merge_sorted_app l1 l2 :
  (∀ a b, a ∈ l1 → b ∈ l2 → R a b) → list_merge R l1 l2 = l1 ++ l2.
Proof.
  induction l1 as [|a l1 IH]; intros H.
  - by rewrite list_merge_nil_l.
  - destruct l2 as [|b l2].
    + by rewrite list_merge_nil_r, app_nil_r.
    + rewrite list_merge_cons. case_decide as Hab.
      * simpl. f_equal. apply IH. intros x y Hx Hy. apply H; [by right|done].
      * exfalso. apply Hab, H; by left.
Qed.

Lemma msort_sorted_id fuel l : StronglySorted R l → msort T_le fuel l = l.
Proof.
  revert l. induction fuel as [|fuel IH]; intros l Hl.
  - by rewrite msort_0.
  - rewrite msort_S. case_decide; [done|].
    rewrite <- (take_drop (length l / 2) l) in Hl.
    rewrite !IH by eauto using StronglySorted_app_1_l, StronglySorted_app_1_r.
    rewrite list_merge_sorted_app; [apply take_drop|].
    intros a b. by apply StronglySorted_app_1_elem_of.
Qed.

End Msort.

(** ** merge_sort_parallel refines the merge sort on lists *)

Section MergeSort.

Context {T : Type}.
Variable T_le : T → T → bool.
Variable async_first : nat → nat → bool.

Local Abbreviation R := (le_of T_le).

(** The copy loops append the cells they read to what [temp] holds from
    [k0] on. *)
Lemma copy_rest_spec (pp : ParallelProcessor (T:=T)) k0 tmp n :
  ∀ i xs,
    i + n ≤ length (data pp) →
    k0 + length xs + n ≤ length tmp →
    copy_rest n i (k0 + length xs) (mkFrame pp (overwrite k0 xs tmp))
    = Some (k0 + length xs + n,
            mkFrame pp (overwrite k0 (xs ++ slice i (i + n) (data pp)) tmp)).
Proof.
  induction n as [|n IH]; intros i xs Hi Hk; simpl.
  - rewrite slice_nil by lia. by rewrite app_nil_r, Nat.add_0_r.
  - destruct (lookup_lt_is_Some_2 (data pp) i ltac:(lia)) as [a Ha].
    unfold bind, data_at, loc_set, vec_set. cbn [this loc]. rewrite Ha.
    cbn [this loc]. rewrite overwrite_length by lia. case_decide; [|lia].
    rewrite overwrite_snoc by lia.
    replace (S (k0 + length xs)) with (k0 + length (xs ++ [a]))
      by (rewrite length_app; simpl; lia).
    rewrite IH by (rewrite ?length_app; simpl; lia).
    rewrite (slice_cons _ i (i + S n) a) by (done || lia).
    rewrite length_app, <- app_assoc. simpl.
    replace (S (i + n)) with (i + S n) by lia.
    do 2 f_equal. lia.
Qed.

(** The merge loop appends a prefix [ys] of the merge of the two runs and
    stops when one of them is used up. *)
Lemma merge_loop_spec (pp : ParallelProcessor (T:=T)) k0 tmp middle end_ :
  end_ ≤ length (data pp) →
  ∀ fuel i j xs,
    i ≤ middle → middle ≤ j → j ≤ end_ →
    (middle - i) + (end_ - j) ≤ fuel →
    k0 + length xs + (middle - i) + (end_ - j) ≤ length tmp →
    ∃ i' j' ys,
      merge_loop T_le fuel middle end_ i j (k0 + length xs)
        (mkFrame pp (overwrite k0 xs tmp))
      = Some ((i', j', k0 + length (xs ++ ys)),
              mkFrame pp (overwrite k0 (xs ++ ys) tmp))
      ∧ i' ≤ middle ∧ middle ≤ j' ∧ j' ≤ end_
      ∧ (i' = middle ∨ j' = end_)
      ∧ length ys + (middle - i') + (end_ - j') = (middle - i) + (end_ - j)
      ∧ ys ++ list_merge R (slice i' middle (data pp)) (slice j' end_ (data pp))
        = list_merge R (slice i middle (data pp)) (slice j end_ (data pp)).
Proof.
  intros Hend. induction fuel as [|fuel IH]; intros i j xs Hi Hj Hje Hfuel Hk.
  - exists i, j, []. simpl. case_decide; [lia|].
    rewrite app_nil_r. repeat split; try done; lia.
  - simpl. case_decide as Hcond.
    + destruct Hcond as [Him Hjm].
      destruct (lookup_lt_is_Some_2 (data pp) i ltac:(lia)) as [a Ha].
      destruct (lookup_lt_is_Some_2 (data pp) j ltac:(lia)) as [b Hb].
      unfold bind at 1 2. unfold data_at at 1 2.
      cbn [this loc]. rewrite Ha. cbn [this loc]. rewrite Hb.
      rewrite (slice_cons _ i middle a), (slice_cons _ j end_ b) by done.
      rewrite list_merge_cons.
      destruct (T_le a b) eqn:Hab.
      * case_decide as HR; [|by unfold le_of in HR].
        unfold bind, loc_set, vec_set. cbn [this loc].
        rewrite overwrite_length by lia. case_decide; [|lia].
        rewrite overwrite_snoc by lia.
        replace (S (k0 + length xs)) with (k0 + length (xs ++ [a]))
          by (rewrite length_app; simpl; lia).
        destruct (IH (S i) j (xs ++ [a])) as (i' & j' & ys & E & ? & ? & ? & ? & ? & Hm);
          [rewrite ?length_app; simpl; lia..|].
        exists i', j', (a :: ys). rewrite E.
        rewrite <- !app_assoc. simpl.
        repeat split; try done; try lia.
        rewrite (slice_cons _ j end_ b) in Hm by done. by rewrite Hm.
      * case_decide as HR; [unfold le_of in HR; congruence|].
        unfold bind, loc_set, vec_set. cbn [this loc].
        rewrite overwrite_length by lia. case_decide; [|lia].
        rewrite overwrite_snoc by lia.
        replace (S (k0 + length xs)) with (k0 + length (xs ++ [b]))
          by (rewrite length_app; simpl; lia).
        destruct (IH i (S j) (xs ++ [b])) as (i' & j' & ys & E & ? & ? & ? & ? & ? & Hm);
          [rewrite ?length_app; simpl; lia..|].
        exists i', j', (b :: ys). rewrite E.
        rewrite <- !app_assoc. simpl.
        repeat split; try done; try lia.
        rewrite (slice_cons _ i middle a) in Hm by done. by rewrite Hm.
    + exists i, j, []. rewrite app_nil_r. repeat split; try done; lia.
Qed.

Lemma merge_Permutation_length (l1 l2 : list T) :
  length (list_merge R l1 l2) = length l1 + length l2.
Proof. by rewrite merge_Permutation, length_app. Qed.

(** The copy back (lines 271-273). *)
Lemma copy_back_spec D K0 tmp start end_ (mg : list T) :
  start ≤ end_ → end_ ≤ length D → length tmp = length D →
  length mg = end_ - start →
  for_range start end_ (λ i, x <- loc_at i ;; data_set i x)
    (mkFrame (mkPP D K0) (overwrite start mg tmp))
  = Some (tt, mkFrame (mkPP (overwrite start mg D) K0) (overwrite start mg tmp)).
Proof.
  intros Hse Hend Htmp Hmg.
  pose (I (i : nat) (fr : Frame (T:=T) (list T)) :=
          fr = mkFrame (mkPP (overwrite start (take (i - start) mg) D) K0)
                       (overwrite start mg tmp)).
  assert (hoare (I start)
            (for_range start end_ (λ i, x <- loc_at i ;; data_set i x))
            (λ _, I end_)) as Hloop.
  { apply for_range_inv; [done|]. intros i Hi fr ->.
    destruct (lookup_lt_is_Some_2 mg (i - start) ltac:(lia)) as [x Hx].
    unfold bind, loc_at, data_set, vec_set. cbn [this loc data num_threads].
    rewrite lookup_overwrite by lia. repeat case_decide; try lia.
    rewrite Hx. cbn [this loc data num_threads].
    rewrite overwrite_length by (rewrite length_take; lia).
    case_decide; [|lia]. eexists _, _. split; [done|]. unfold I. do 2 f_equal.
    replace (S i - start) with (S (i - start)) by lia.
    rewrite (take_S_r _ _ _ Hx), <- overwrite_snoc by (rewrite length_take; lia).
    f_equal. rewrite length_take. lia. }
  destruct (Hloop (mkFrame (mkPP D K0) (overwrite start mg tmp)))
    as ([] & fr & E & ->).
  { unfold I. by rewrite Nat.sub_diag, take_0, overwrite_nil. }
  rewrite E. by rewrite take_ge by lia.
Qed.

Lemma merge_step_spec D K0 tmp start middle end_ :
  start ≤ middle → middle ≤ end_ → end_ ≤ length D → length tmp = length D →
  merge_step T_le start middle end_ (mkFrame (mkPP D K0) tmp)
  = Some (tt,
      mkFrame
        (mkPP (overwrite start
                 (list_merge R (slice start middle D) (slice middle end_ D)) D) K0)
        (overwrite start
           (list_merge R (slice start middle D) (slice middle end_ D)) tmp)).
Proof.
  intros Hsm Hme Hend Htmp.
  set (pp := mkPP D K0).
  set (mg := list_merge R (slice start middle D) (slice middle end_ D)).
  assert (length mg = end_ - start) as Hmg.
  { unfold mg. rewrite merge_Permutation_length, !slice_length by lia. lia. }
  destruct (merge_loop_spec pp start tmp middle end_ Hend
              (end_ - start) start middle [])
    as (i' & j' & ys & E & Hi' & Hj' & Hje' & Hstop & Hlen & Hm);
    [simpl; lia..|].
  rewrite overwrite_nil in E. simpl in E. rewrite Nat.add_0_r in E.
  unfold pp in Hm. cbn [data] in Hm. fold mg in Hm.
  unfold merge_step. unfold bind at 1. rewrite E. cbn [fst snd].
  unfold bind at 1.
  rewrite (copy_rest_spec pp start tmp (middle - i') i' ys) by (simpl; lia).
  set (ys1 := ys ++ slice i' (i' + (middle - i')) (data pp)).
  assert (length ys1 = length ys + (middle - i')) as Hlen1.
  { unfold ys1. rewrite length_app, slice_length by (simpl; lia). lia. }
  replace (start + length ys + (middle - i')) with (start + length ys1) by lia.
  unfold bind at 1.
  rewrite (copy_rest_spec pp start tmp (end_ - j') j' ys1) by (simpl; lia).
  assert (ys1 ++ slice j' (j' + (end_ - j')) (data pp) = mg) as ->.
  { rewrite <- Hm. unfold ys1. rewrite <- app_assoc. f_equal.
    replace (i' + (middle - i')) with middle by lia.
    replace (j' + (end_ - j')) with end_ by lia. cbn [pp data].
    destruct Hstop as [->| ->].
    - rewrite (slice_nil _ middle middle) by done. by rewrite list_merge_nil_l.
    - rewrite (slice_nil _ end_ end_) by done.
      by rewrite list_merge_nil_r, app_nil_r. }
  unfold pp. apply copy_back_spec; lia.
Qed.

(** In place, on the range [start, end), the recursion computes [msort];
    the cells outside the range are not touched, and the order in which an
    asynchronous step runs its halves does not matter. *)
Lemma merge_sort_parallel_spec K0 fuel :
  ∀ start end_ D tmp,
    start ≤ end_ → end_ ≤ length D → length tmp = length D →
    end_ - start ≤ fuel →
    ∃ tmp',
      merge_sort_parallel T_le async_first fuel start end_ (mkFrame (mkPP D K0) tmp)
      = Some (tt, mkFrame
                    (mkPP (overwrite start (msort T_le fuel (slice start end_ D)) D) K0)
                    tmp')
      ∧ length tmp' = length D.
Proof.
  induction fuel as [|fuel IH]; intros start end_ D tmp Hse Hend Htmp Hfuel.
  - exists tmp. cbn [merge_sort_parallel]. case_decide; [|lia]. split; [|done].
    unfold ret. by rewrite msort_0, overwrite_slice_id.
  - cbn [merge_sort_parallel]. case_decide as Hshort.
    { exists tmp. split; [|done]. unfold ret.
      rewrite msort_short by (rewrite slice_length; lia).
      by rewrite overwrite_slice_id. }
    pose proof (Nat.div_mod_eq (end_ - start) 2) as Hdiv.
    pose proof (Nat.mod_upper_bound (end_ - start) 2 ltac:(done)) as Hmod.
    set (middle := start + (end_ - start) / 2) in *.
    assert (start ≤ middle ∧ middle ≤ end_ ∧ middle - start ≤ fuel
            ∧ end_ - middle ≤ fuel) as (Hsm & Hme & Hf1 & Hf2)
      by (unfold middle; lia).
    set (A := msort T_le fuel (slice start middle D)).
    set (B := msort T_le fuel (slice middle end_ D)).
    assert (length A = middle - start) as HA
      by (unfold A; rewrite msort_length, slice_length; lia).
    assert (length B = end_ - middle) as HB
      by (unfold B; rewrite msort_length, slice_length; lia).
    (* whichever half runs first, both runs end up in place *)
    assert (∃ tmp2,
      (merge_sort_parallel T_le async_first fuel start middle ;;;
       merge_sort_parallel T_le async_first fuel middle end_)
        (mkFrame (mkPP D K0) tmp)
      = Some (tt, mkFrame (mkPP (overwrite start (A ++ B) D) K0) tmp2)
      ∧ length tmp2 = length D) as (tmpL & EL & HtmpL).
    { destruct (IH start middle D tmp) as (tmp1 & E1 & Htmp1); try lia.
      fold A in E1.
      destruct (IH middle end_ (overwrite start A D) tmp1) as (tmp2 & E2 & Htmp2);
        rewrite ?overwrite_length; try lia.
      rewrite slice_overwrite_after in E2 by lia. fold B in E2.
      exists tmp2. unfold bind. rewrite E1, E2.
      rewrite overwrite_length in Htmp2 by lia. split; [|done].
      do 4 f_equal. replace middle with (start + length A) at 1 by lia.
      apply overwrite_app. lia. }
    assert (∃ tmp2,
      (merge_sort_parallel T_le async_first fuel middle end_ ;;;
       merge_sort_parallel T_le async_first fuel start middle)
        (mkFrame (mkPP D K0) tmp)
      = Some (tt, mkFrame (mkPP (overwrite start (A ++ B) D) K0) tmp2)
      ∧ length tmp2 = length D) as (tmpR & ER & HtmpR).
    { destruct (IH middle end_ D tmp) as (tmp1 & E1 & Htmp1); try lia.
      fold B in E1.
      destruct (IH start middle (overwrite middle B D) tmp1) as (tmp2 & E2 & Htmp2);
        rewrite ?overwrite_length; try lia.
      rewrite slice_overwrite_before in E2 by lia. fold A in E2.
      exists tmp2. unfold bind. rewrite E1, E2.
      rewrite overwrite_length in Htmp2 by lia. split; [|done].
      do 4 f_equal. replace middle with (start + length A) by lia.
      apply overwrite_app_rev. lia. }
    assert (∀ tmp2, length tmp2 = length D →
      ∃ tmp',
        merge_step T_le start middle end_
          (mkFrame (mkPP (overwrite start (A ++ B) D) K0) tmp2)
        = Some (tt, mkFrame
                      (mkPP (overwrite start
                               (msort T_le (S fuel) (slice start end_ D)) D) K0)
                      tmp')
        ∧ length tmp' = length D) as Hstep.
    { intros tmp2 Htmp2.
      assert (length (A ++ B) = end_ - start) as HAB
        by (rewrite length_app; lia).
      rewrite merge_step_spec by (rewrite ?overwrite_length; lia).
      assert (slice start middle (overwrite start (A ++ B) D) = A) as ->.
      { apply slice_overwrite_app_l; lia. }
      assert (slice middle end_ (overwrite start (A ++ B) D) = B) as ->.
      { apply slice_overwrite_app_r; lia. }
      eexists. split.
      - do 4 f_equal. rewrite overwrite_overwrite
          by (rewrite ?merge_Permutation_length; lia).
        f_equal. rewrite msort_S, slice_length by lia. case_decide; [lia|].
        replace ((end_ - start) / 2) with (middle - start) by (unfold middle; lia).
        by rewrite take_slice_mid, drop_slice_mid by lia.
      - rewrite overwrite_length; [done|].
        rewrite merge_Permutation_length. lia. }
    destruct (Hstep tmpL HtmpL) as (tmpL' & EsL & HL).
    destruct (Hstep tmpR HtmpR) as (tmpR' & EsR & HR).
    unfold bind at 1. unfold gets. cbn [this num_threads].
    unfold bind at 1.
    case_decide.
    + destruct (async_first start end_).
      * rewrite EL. by exists tmpL'.
      * rewrite ER. by exists tmpR'.
    + rewrite EL. by exists tmpL'.
Qed.

End MergeSort.

(** ** parallel_sort *)

Section ParallelSort.

Context {T : Type}.
Variable T_default : T.
Variable T_le : T → T → bool.
Variable std_sort : list T → list T.
Variable async_first : nat → nat → bool.
Variable e : ParallelProcessor (T:=T).

Local Abbreviation N := (length (data e)).
Local Abbreviation K := (num_threads e).

(** The local-sort phase keeps any property [J] of the vector that sorting a
    range keeps and that fixes the length. *)
Lemma local_sort_spec (J : list T → Prop) sched :
  (∀ d start end_, J d → start ≤ end_ → end_ ≤ length d →
     J (take start d ++ std_sort (slice start end_ d) ++ drop end_ d)) →
  (∀ d, J d → length d = N) →
  J (data e) →
  1 ≤ K → schedule K sched →
  hoare (λ fr, fr = mkFrame e tt)
        (join_all (λ i, sort_range std_sort (chunk_start (N / K) i)
                                            (chunk_end N K (N / K) i)) sched)
        (λ _ fr, num_threads (this fr) = K ∧ J (data (this fr))).
Proof.
  intros Hkeep Hlen HJ HK Hsched.
  eapply hoare_conseq.
  - apply (join_all_inv (λ _ fr, num_threads (this fr) = K ∧ J (data (this fr)))).
    intros done i Hi fr [HKfr HJfr].
    assert (i < K) as HiK.
    { unfold schedule in Hsched. rewrite Hsched in Hi.
      apply elem_of_seq in Hi. lia. }
    pose proof (chunk_start_le_end N K HK i HiK).
    pose proof (chunk_end_le N K HK i HiK).
    unfold sort_range. rewrite (Hlen _ HJfr). case_decide; [|lia].
    eexists _, _. split; [done|]. cbn [this data num_threads].
    split; [done|]. apply Hkeep; [done|lia|]. rewrite (Hlen _ HJfr). lia.
  - by intros fr ->.
  - done.
Qed.

(** The merge phase on the whole vector. *)
Lemma merge_phase_spec D K0 :
  ∃ tmp',
    with_local (replicate (length D) T_default)
      (merge_sort_parallel T_le async_first (length D) 0 (length D)) (mkPP D K0)
    = Some ((tt, tmp'), mkPP (msort T_le (length D) D) K0).
Proof.
  destruct (merge_sort_parallel_spec T_le async_first K0 (length D) 0 (length D) D
              (replicate (length D) T_default)) as (tmp' & E & Htmp);
    rewrite ?length_replicate; try lia.
  exists tmp'. unfold with_local. rewrite E. cbn [this loc].
  by rewrite slice_all, overwrite_all by apply msort_length.
Qed.

Lemma parallel_sort_spec (J : list T → Prop) sched :
  (∀ d start end_, J d → start ≤ end_ → end_ ≤ length d →
     J (take start d ++ std_sort (slice start end_ d) ++ drop end_ d)) →
  (∀ d, J d → length d = N) →
  J (data e) →
  1 ≤ K → schedule K sched →
  ∃ D1, J D1 ∧
    parallel_sort T_default T_le std_sort async_first sched e
    = Some (tt, mkPP (msort T_le (length D1) D1) K).
Proof.
  intros Hkeep Hlen HJ HK Hsched.
  destruct (local_sort_spec J sched Hkeep Hlen HJ HK Hsched _ eq_refl)
    as ([] & [e1 []] & Erun & HK1 & HJ1).
  cbn [this] in HK1, HJ1. destruct e1 as [D1 K1]. cbn [data num_threads] in *.
  subst K1. exists D1. split; [done|].
  unfold parallel_sort.
  unfold bind at 1. unfold gets at 1. unfold bind at 1. unfold gets at 1.
  unfold bind at 1. unfold lift_option, size_div. case_decide; [lia|].
  unfold bind at 1. unfold with_local at 1. rewrite Erun. cbn [this loc].
  unfold bind at 1. unfold gets. cbn [data].
  destruct (merge_phase_spec D1 K) as [tmp' E]. unfold bind. by rewrite E.
Qed.

End ParallelSort.

(** ** What a call leaves alone *)

Section Preserves.

Context {St X : Type}.
Variable f : St → X.

Lemma preserves_ret {A} (a : A) : preserves f (ret a).
Proof. intros s a' s' [= _ <-]. done. Qed.

Lemma preserves_fail {A} : preserves f (@fail St A).
Proof. intros s a s' [=]. Qed.

Lemma preserves_gets {A} (g : St → A) : preserves f (gets g).
Proof. intros s a s' [= _ <-]. done. Qed.

Lemma preserves_lift_option {A} (o : option A) : preserves f (lift_option o).
Proof. intros s a s'. unfold lift_option. destruct o; [|done]. by intros [= _ <-]. Qed.

Lemma preserves_modify (g : St → St) : (∀ s, f (g s) = f s) → preserves f (modify g).
Proof. intros H s a s' [= _ <-]. apply H. Qed.

Lemma preserves_bind {A B} (m : M St A) (k : A → M St B) :
  preserves f m → (∀ a, preserves f (k a)) → preserves f (bind m k).
Proof.
  intros Hm Hk s b s''. unfold bind.
  destruct (m s) as [[a s']|] eqn:E; [|done]. intros E'.
  rewrite (Hk a _ _ _ E'). by apply (Hm _ _ _ E).
Qed.

Lemma preserves_if {A} (c : bool) (m1 m2 : M St A) :
  preserves f m1 → preserves f m2 → preserves f (if c then m1 else m2).
Proof. by destruct c. Qed.

Lemma preserves_for_loop (body : nat → M St unit) n j :
  (∀ j, preserves f (body j)) → preserves f (for_loop n j body).
Proof.
  intros Hbody. revert j. induction n as [|n IH]; intros j; simpl.
  - apply preserves_ret.
  - apply preserves_bind; [apply Hbody|]. intros _. apply IH.
Qed.

Lemma preserves_join_all (worker : nat → M St unit) sched :
  (∀ i, preserves f (worker i)) → preserves f (join_all worker sched).
Proof.
  intros Hw. induction sched as [|i sched IH]; simpl.
  - apply preserves_ret.
  - apply preserves_bind; [apply Hw|]. by intros _.
Qed.

End Preserves.

Section Frames.

Context {T : Type}.
Variable T_default : T.
Variable T_le : T → T → bool.
Variable std_sort : list T → list T.
Variable async_first : nat → nat → bool.

Local Abbreviation PPT := (ParallelProcessor (T:=T)).
Local Abbreviation threads_of := (λ L (fr : Frame (T:=T) L), num_threads (this fr)).

Lemma data_at_this {L} j : preserves (@this T L) (data_at j).
Proof.
  intros fr a fr'. unfold data_at. destruct (data (this fr) !! j); [|done].
  by intros [= _ <-].
Qed.

Lemma loc_at_this j : preserves (@this T (list T)) (loc_at j).
Proof.
  intros fr a fr'. unfold loc_at. destruct (loc fr !! j); [|done].
  by intros [= _ <-].
Qed.

Lemma loc_set_this j x : preserves (@this T (list T)) (loc_set j x).
Proof.
  intros fr a fr'. unfold loc_set. destruct (vec_set (loc fr) j x); [|done].
  by intros [= _ <-].
Qed.

Lemma result_set_this j x : preserves (@this T (list T * nat)) (result_set j x).
Proof.
  intros fr a fr'. unfold result_set. destruct (vec_set (loc fr).1 j x); [|done].
  by intros [= _ <-].
Qed.

Lemma progress_incr_this : preserves (@this T (list T * nat)) progress_incr.
Proof. by apply preserves_modify. Qed.

Lemma data_set_threads {L} j x : preserves (threads_of L) (data_set j x).
Proof.
  intros fr a fr'. unfold data_set. destruct (vec_set (data (this fr)) j x); [|done].
  by intros [= _ <-].
Qed.

Lemma sort_range_threads {L} start end_ :
  preserves (threads_of L) (sort_range std_sort start end_).
Proof.
  intros fr a fr'. unfold sort_range. case_decide; [|done]. by intros [= _ <-].
Qed.

Lemma this_threads {L A} (m : M (Frame (T:=T) L) A) :
  preserves this m → preserves (threads_of L) m.
Proof. intros H fr a fr' E. by rewrite (H _ _ _ E). Qed.

Lemma with_local_preserves {L A X} (f : PPT → X) (init : L) (body : M (Frame L) A) :
  preserves (λ fr, f (this fr)) body → preserves f (with_local init body).
Proof.
  intros H e0 a e'. unfold with_local.
  destruct (body (mkFrame e0 init)) as [[a' fr]|] eqn:E; [|done].
  intros [= _ <-]. apply (H _ _ _ E).
Qed.

Lemma process_worker_this func start end_ :
  preserves this (process_worker (T:=T) func start end_).
Proof.
  apply preserves_for_loop. intros j.
  apply preserves_bind; [apply data_at_this|]. intros x. apply loc_set_this.
Qed.

Lemma progress_worker_this func start end_ :
  preserves this (progress_worker (T:=T) func start end_).
Proof.
  apply preserves_for_loop. intros j.
  apply preserves_bind; [apply data_at_this|]. intros x.
  apply preserves_bind; [apply result_set_this|]. intros _.
  apply progress_incr_this.
Qed.

Lemma filter_scan_this {L} predicate n j local_result :
  preserves (@this T L) (filter_scan predicate n j local_result).
Proof.
  revert j local_result. induction n as [|n IH]; intros j local_result; simpl.
  - apply preserves_ret.
  - apply preserves_bind; [apply data_at_this|]. intros x. apply IH.
Qed.

Lemma filter_worker_this predicate start end_ :
  preserves this (filter_worker (T:=T) predicate start end_).
Proof.
  apply preserves_bind; [apply filter_scan_this|]. intros l.
  by apply preserves_modify.
Qed.

Lemma reduce_fold_this {L} func n j local_result :
  preserves (@this T L) (reduce_fold func n j local_result).
Proof.
  revert j local_result. induction n as [|n IH]; intros j local_result; simpl.
  - apply preserves_ret.
  - apply preserves_bind; [apply data_at_this|]. intros x. apply IH.
Qed.

Lemma reduce_worker_this func z i start end_ :
  preserves this (reduce_worker (T:=T) func z i start end_).
Proof.
  apply preserves_bind; [apply reduce_fold_this|]. intros x. apply loc_set_this.
Qed.

(** process, map, process_with_progress, filter and reduce hand the engine
    back as it was, whatever the schedule. *)
Lemma process_frame func sched : preserves id (process T_default func sched).
Proof.
  unfold process. repeat (apply preserves_bind; [|intros ?]);
    try apply preserves_gets; try apply preserves_lift_option; try apply preserves_ret.
  apply with_local_preserves, preserves_join_all. intros i.
  apply process_worker_this.
Qed.

Lemma process_with_progress_frame func sched polls :
  preserves id (process_with_progress T_default func sched polls).
Proof.
  unfold process_with_progress. repeat (apply preserves_bind; [|intros ?]);
    try apply preserves_gets; try apply preserves_lift_option; try apply preserves_ret.
  apply with_local_preserves, preserves_join_all. intros i.
  apply progress_worker_this.
Qed.

Lemma filter_frame predicate sched : preserves id (filter (T:=T) predicate sched).
Proof.
  unfold filter. repeat (apply preserves_bind; [|intros ?]);
    try apply preserves_gets; try apply preserves_lift_option; try apply preserves_ret.
  apply with_local_preserves, preserves_join_all. intros i.
  apply filter_worker_this.
Qed.

Lemma reduce_frame func z sched : preserves id (reduce (T:=T) func z sched).
Proof.
  unfold reduce. repeat (apply preserves_bind; [|intros ?]);
    try apply preserves_gets; try apply preserves_lift_option; try apply preserves_ret.
  apply with_local_preserves, preserves_join_all. intros i.
  apply reduce_worker_this.
Qed.

(** parallel_sort rewrites [data] and nothing else. *)
Lemma merge_loop_threads fuel middle end_ i j k :
  preserves (threads_of (list T)) (merge_loop T_le fuel middle end_ i j k).
Proof.
  revert i j k. induction fuel as [|fuel IH]; intros i j k; simpl.
  - case_decide; [apply preserves_fail|apply preserves_ret].
  - case_decide; [|apply preserves_ret].
    apply preserves_bind; [apply this_threads, data_at_this|]. intros a.
    apply preserves_bind; [apply this_threads, data_at_this|]. intros b.
    apply preserves_if;
      (apply preserves_bind; [apply this_threads, loc_set_this|]; intros _; apply IH).
Qed.

Lemma copy_rest_threads n i k :
  preserves (threads_of (list T)) (copy_rest n i k).
Proof.
  revert i k. induction n as [|n IH]; intros i k; simpl.
  - apply preserves_ret.
  - apply preserves_bind; [apply this_threads, data_at_this|]. intros a.
    apply preserves_bind; [apply this_threads, loc_set_this|]. intros _. apply IH.
Qed.

Lemma merge_step_threads start middle end_ :
  preserves (threads_of (list T)) (merge_step T_le start middle end_).
Proof.
  unfold merge_step.
  apply preserves_bind; [apply merge_loop_threads|]. intros ijk.
  apply preserves_bind; [apply copy_rest_threads|]. intros k'.
  apply preserves_bind; [apply copy_rest_threads|]. intros _.
  apply preserves_for_loop. intros i.
  apply preserves_bind; [apply this_threads, loc_at_this|]. intros x.
  apply data_set_threads.
Qed.

Lemma merge_sort_parallel_threads fuel start end_ :
  preserves (threads_of (list T))
    (merge_sort_parallel T_le async_first fuel start end_).
Proof.
  revert start end_. induction fuel as [|fuel IH]; intros start end_;
    cbn [merge_sort_parallel].
  - case_decide; [apply preserves_ret|apply preserves_fail].
  - case_decide; [apply preserves_ret|].
    apply preserves_bind; [apply preserves_gets|]. intros K0.
    apply preserves_bind; [|intros _; apply merge_step_threads].
    case_decide; [apply preserves_if|];
      (apply preserves_bind; [apply IH|]; intros _; apply IH).
Qed.

Lemma parallel_sort_threads sched :
  preserves num_threads (parallel_sort T_default T_le std_sort async_first sched).
Proof.
  unfold parallel_sort. repeat (apply preserves_bind; [|intros ?]);
    try apply preserves_gets; try apply preserves_lift_option; try apply preserves_ret.
  - apply (with_local_preserves num_threads), preserves_join_all. intros i.
    apply sort_range_threads.
  - apply (with_local_preserves num_threads), merge_sort_parallel_threads.
Qed.

Lemma call_threads c :
  preserves num_threads (call T_default T_le std_sort async_first c).
Proof.
  destruct c; simpl; try apply parallel_sort_threads;
    (apply preserves_bind; [|intros _; apply preserves_ret]);
    intros e0 a e' E.
  - by rewrite <- (process_frame _ _ _ _ _ E : e' = e0).
  - by rewrite <- (process_with_progress_frame _ _ _ _ _ _ E : e' = e0).
  - by rewrite <- (process_frame _ _ _ _ _ E : e' = e0).
  - by rewrite <- (filter_frame _ _ _ _ _ E : e' = e0).
  - by rewrite <- (reduce_frame _ _ _ _ _ _ E : e' = e0).
Qed.

Lemma calls_threads cs :
  preserves num_threads (calls T_default T_le std_sort async_first cs).
Proof.
  induction cs as [|c cs IH]; simpl.
  - apply preserves_ret.
  - apply preserves_bind; [apply call_threads|]. by intros _.
Qed.

End Frames.

(** ** The two sorts meet the contract of std::sort *)

Section Sorts.

Context {T : Type}.
Variable T_lt : T → T → bool.

Local Abbreviation not_after := (λ a b : T, T_lt b a = false).

Lemma insert_before_Permutation x l : insert_before T_lt x l ≡ₚ x :: l.
Proof.
  induction l as [|y l IH]; simpl; [done|].
  destruct (T_lt y x); [|done]. by rewrite IH, Permutation_swap.
Qed.

Lemma insertion_sort_in_place : sorts_in_place (insertion_sort T_lt).
Proof.
  intros l. unfold insertion_sort. induction l as [|x l IH]; simpl; [done|].
  by rewrite insert_before_Permutation, IH.
Qed.

Lemma insertion_sort_rev_acc acc l :
  foldl (λ acc x, insert_before T_lt x acc) acc l ≡ₚ l ++ acc.
Proof.
  revert acc. induction l as [|x l IH]; intros acc; simpl; [done|].
  by rewrite IH, insert_before_Permutation, Permutation_middle.
Qed.

Lemma insertion_sort_rev_in_place : sorts_in_place (insertion_sort_rev T_lt).
Proof.
  intros l. unfold insertion_sort_rev.
  by rewrite insertion_sort_rev_acc, app_nil_r.
Qed.

Hypothesis T_lt_strict_weak : strict_weak T_lt.

Lemma insert_before_sorted x l :
  StronglySorted not_after l → StronglySorted not_after (insert_before T_lt x l).
Proof.
  destruct T_lt_strict_weak as [Hasym Htrans].
  induction 1 as [|y l Hl IH Hy]; simpl.
  - repeat constructor.
  - destruct (T_lt y x) eqn:Hyx.
    + constructor; [done|].
      rewrite insert_before_Permutation. constructor; [by apply Hasym|done].
    + constructor; [by constructor|].
      constructor; [done|].
      eapply Forall_impl; [apply Hy|]. intros z Hz. simpl in *.
      by apply (Htrans x y z).
Qed.

Lemma insertion_sort_sorts : sorts_by T_lt (insertion_sort T_lt).
Proof.
  intros l. unfold insertion_sort. induction l as [|x l IH]; simpl.
  - constructor.
  - by apply insert_before_sorted.
Qed.

Lemma insertion_sort_rev_sorts : sorts_by T_lt (insertion_sort_rev T_lt).
Proof.
  intros l. unfold insertion_sort_rev.
  assert (StronglySorted not_after []) as Hacc by constructor.
  revert Hacc. generalize (@nil T). induction l as [|x l IH]; intros acc Hacc; simpl.
  - done.
  - by apply IH, insert_before_sorted.
Qed.

End Sorts.

Lemma Z_ltb_strict_weak : strict_weak Z.ltb.
Proof. split; intros; lia. Qed.

Lemma Pixel_lt_strict_weak : strict_weak Pixel_lt.
Proof. unfold Pixel_lt. split; intros; lia. Qed.

Lemma Z_leb_total : le_total Z.leb.
Proof. intros a b. lia. Qed.

Lemma Z_leb_transitive : le_transitive Z.leb.
Proof. intros a b c. lia. Qed.

Lemma Z_leb_antisymmetric : le_antisymmetric Z.leb.
Proof. intros a b. lia. Qed.

Lemma Z_ltb_agrees : lt_agrees Z.leb Z.ltb.
Proof. intros a b. destruct (Z.leb_spec b a), (Z.ltb_spec a b); (done || lia). Qed.

Lemma Pixel_le_total : le_total Pixel_le.
Proof. intros a b. unfold Pixel_le. lia. Qed.

(** ** std::sort on a range that is already in order *)

Section SortedRanges.

Context {T : Type}.
Variable T_le T_lt : T → T → bool.
Variable std_sort : list T → list T.

Hypothesis T_le_transitive : le_transitive T_le.
Hypothesis T_le_antisymmetric : le_antisymmetric T_le.
Hypothesis T_lt_agrees : lt_agrees T_le T_lt.
Hypothesis std_sort_in_place : sorts_in_place std_sort.
Hypothesis std_sort_sorts : sorts_by T_lt std_sort.

Local Abbreviation R := (le_of T_le).

Lemma le_of_Transitive : Transitive R.
Proof. intros a b c. apply T_le_transitive. Qed.

Lemma le_of_AntiSymm : AntiSymm (=) R.
Proof. intros a b. apply T_le_antisymmetric. Qed.

Lemma not_after_le l :
  StronglySorted (λ a b, T_lt b a = false) l → StronglySorted R l.
Proof.
  induction 1 as [|x l Hl IH Hx]; constructor; [done|].
  eapply Forall_impl; [apply Hx|]. intros y Hy. simpl in Hy.
  unfold le_of. rewrite T_lt_agrees in Hy. by destruct (T_le x y).
Qed.

Lemma std_sort_sorted_id l : StronglySorted R l → std_sort l = l.
Proof.
  intros Hl.
  apply (StronglySorted_unique R (AntiSymm0 := le_of_AntiSymm)); [|done|done].
  apply not_after_le, std_sort_sorts.
Qed.

Lemma slice_StronglySorted start end_ l :
  StronglySorted R l → StronglySorted R (slice start end_ l).
Proof.
  intros Hl. unfold slice.
  rewrite <- (take_drop start l) in Hl. apply StronglySorted_app_1_r in Hl.
  rewrite <- (take_drop (end_ - start) (drop start l)) in Hl.
  by apply StronglySorted_app_1_l in Hl.
Qed.

End SortedRanges.

(** * The properties of the engine *)

(** ** Partitioner *)

Lemma partition_plan_join N K :
  1 ≤ K →
  mjoin ((λ r, seq r.1 (r.2 - r.1)) <$> partition_plan N K) = seq 0 N.
Proof.
  intros HK. unfold partition_plan. rewrite <- list_fmap_compose.
  pose proof (chunks_join (seq 0 N) K HK) as Hj.
  etrans; [|exact Hj]. f_equal.
  apply list_fmap_ext. intros i' i Hi. apply lookup_seq in Hi as [Heq Hi].
  simpl in Heq. subst i'. simpl. unfold chunk, slice. rewrite length_seq.
  pose proof (chunk_end_le N K HK i Hi). pose proof (chunk_start_le_end N K HK i Hi).
  apply list_eq. intros j.
  destruct (decide (j < chunk_end N K (N / K) i - chunk_start (N / K) i)) as [Hj'|Hj'].
  - rewrite lookup_seq_lt, lookup_take_lt, lookup_drop, lookup_seq_lt by lia. done.
  - rewrite lookup_seq_ge, lookup_take_ge by lia. done.
Qed.

(** C5.  For every length [N] and thread count [K >= 1] the plan
    [start = i * (N / K)], [end = (i + 1) * (N / K)] (or [N] for the last
    range) has exactly [K] half-open ranges inside [0, N); they are
    contiguous, start at 0 and end at [N]; every index below [N] lies in
    exactly one of them (listed in order, the ranges enumerate [0, N)); every
    range but the last has length [N / K] and the last has length
    [N - (K - 1) * (N / K)], which is 0 exactly when [N = 0], a case in
    which [N < K] and [K] divides [N]. *)
Theorem partition_plan_correct (N K : nat) :
  1 ≤ K →
  length (partition_plan N K) = K
  ∧ (∀ i, i < K →
       partition_plan N K !! i
       = Some (i * (N / K), if decide (i = K - 1) then N else (i + 1) * (N / K)))
  ∧ (∀ i s e, partition_plan N K !! i = Some (s, e) → s ≤ e ∧ e ≤ N)
  ∧ (∀ r, partition_plan N K !! 0 = Some r → r.1 = 0)
  ∧ (∀ r, partition_plan N K !! (K - 1) = Some r → r.2 = N)
  ∧ (∀ i r r', partition_plan N K !! i = Some r →
       partition_plan N K !! (S i) = Some r' → r.2 = r'.1)
  ∧ (∀ j, j < N → ∃ i r, partition_plan N K !! i = Some r ∧ r.1 ≤ j < r.2)
  ∧ (∀ j i i' r r', partition_plan N K !! i = Some r →
       partition_plan N K !! i' = Some r' →
       r.1 ≤ j < r.2 → r'.1 ≤ j < r'.2 → i = i')
  ∧ mjoin ((λ r, seq r.1 (r.2 - r.1)) <$> partition_plan N K) = seq 0 N
  ∧ (∀ i r, i < K - 1 → partition_plan N K !! i = Some r → r.2 - r.1 = N / K)
  ∧ (∀ r, partition_plan N K !! (K - 1) = Some r →
       r.2 - r.1 = N - (K - 1) * (N / K))
  ∧ (N - (K - 1) * (N / K) = 0 ↔ N = 0)
  ∧ (N - (K - 1) * (N / K) = 0 → N < K ∧ N `mod` K = 0).
Proof.
  intros HK.
  assert (∀ i r, partition_plan N K !! i = Some r →
            i < K ∧ r = (chunk_start (N / K) i, chunk_end N K (N / K) i)) as Hlk.
  { intros i r Hr.
    assert (i < K) as Hi.
    { apply lookup_lt_Some in Hr. by rewrite partition_plan_length in Hr. }
    rewrite partition_plan_lookup in Hr by done. split; [done|congruence]. }
  pose proof (chunk_mul_le N K) as Hmul.
  split_and!.
  - apply partition_plan_length.
  - intros i Hi. by rewrite partition_plan_lookup.
  - intros i s e Hr. apply Hlk in Hr as [Hi [= -> ->]].
    split; [by apply chunk_start_le_end|by apply chunk_end_le].
  - intros r Hr. by apply Hlk in Hr as [_ ->].
  - intros r Hr. apply Hlk in Hr as [_ ->]. apply chunk_end_last.
  - intros i r r' Hr Hr'. apply Hlk in Hr as [_ ->]. apply Hlk in Hr' as [Hi ->].
    by apply chunk_end_start_succ.
  - intros j Hj. destruct (chunk_cover N K HK j Hj) as (i & Hi & Hr).
    exists i, (chunk_start (N / K) i, chunk_end N K (N / K) i).
    by rewrite partition_plan_lookup.
  - intros j i i' r r' Hr Hr' Hj Hj'.
    apply Hlk in Hr as [Hi ->]. apply Hlk in Hr' as [Hi' ->].
    by apply (chunk_disjoint N K HK i i' j).
  - by apply partition_plan_join.
  - intros i r Hi Hr. apply Hlk in Hr as [_ ->]. simpl.
    unfold chunk_start, chunk_end. case_decide; lia.
  - intros r Hr. apply Hlk in Hr as [_ ->]. simpl.
    unfold chunk_start, chunk_end. case_decide; lia.
  - split; [|by intros ->].
    intros H0. destruct (decide (N / K = 0)) as [Hz|Hnz]; [rewrite Hz in H0|]; nia.
  - intros H0. assert (N = 0) as ->
      by (destruct (decide (N / K = 0)) as [Hz|Hnz]; [rewrite Hz in H0|]; nia).
    split; [lia|]. by apply Nat.Div0.mod_0_l.
Qed.

Lemma partition_plan_correct_witness :
  length (partition_plan 10 4) = 4
  ∧ mjoin ((λ r, seq r.1 (r.2 - r.1)) <$> partition_plan 10 4) = seq 0 10
  ∧ (10 - (4 - 1) * (10 / 4) = 0 ↔ 10 = 0).
Proof.
  pose proof (partition_plan_correct 10 4 ltac:(lia)) as H.
  split_and!; apply H.
Defined.

Example partition_plan_uneven :
  partition_plan 10 4 = [(0, 2); (2, 4); (4, 6); (6, 10)].
Proof. by vm_compute. Qed.

Example partition_plan_more_threads_than_elements :
  partition_plan 3 5 = [(0, 0); (0, 0); (0, 0); (0, 0); (0, 3)].
Proof. by vm_compute. Qed.

(** ** Elementwise executor *)

(** C3.  For every dataset, function [func] and thread count [K >= 1],
    whatever the order in which the workers run, [process] returns a vector
    of the length of the dataset that holds [func (data[i])] at every index
    [i], and [map] returns the same; hence one thread and eight threads give
    the same vector. *)
Theorem process_map_elementwise {T} (T_default : T) (func : T → T)
    (d : list T) (K : nat) (sched : list nat) :
  1 ≤ K → schedule K sched →
  ∃ result,
    process T_default func sched (mkPP d K) = Some (result, mkPP d K)
    ∧ map T_default func sched (mkPP d K) = Some (result, mkPP d K)
    ∧ length result = length d
    ∧ (∀ i x, d !! i = Some x → result !! i = Some (func x))
    ∧ (∀ sched1 sched8, schedule 1 sched1 → schedule 8 sched8 →
         fst <$> process T_default func sched1 (mkPP d 1) = Some result
         ∧ fst <$> process T_default func sched8 (mkPP d 8) = Some result).
Proof.
  intros HK Hsched. exists (func <$> d).
  pose proof (process_spec T_default (mkPP d K) func sched HK Hsched) as E.
  simpl in E. split_and!; try done.
  - by rewrite length_fmap.
  - intros i x Hx. by rewrite list_lookup_fmap, Hx.
  - intros sched1 sched8 H1 H8.
    rewrite (process_spec T_default (mkPP d 1) func sched1) by (simpl; (lia || done)).
    rewrite (process_spec T_default (mkPP d 8) func sched8) by (simpl; (lia || done)).
    done.
Qed.

Lemma process_map_elementwise_witness :
  ∃ result,
    process 0%Z (λ x, x * 2)%Z [2; 0; 1] (mkPP [1; 2; 3; 4; 5; 6]%Z 3)
    = Some (result, mkPP [1; 2; 3; 4; 5; 6]%Z 3)
    ∧ map 0%Z (λ x, x * 2)%Z [2; 0; 1] (mkPP [1; 2; 3; 4; 5; 6]%Z 3)
      = Some (result, mkPP [1; 2; 3; 4; 5; 6]%Z 3)
    ∧ length result = 6
    ∧ (∀ i x, [1; 2; 3; 4; 5; 6]%Z !! i = Some x → result !! i = Some (x * 2)%Z)
    ∧ (∀ sched1 sched8, schedule 1 sched1 → schedule 8 sched8 →
         fst <$> process 0%Z (λ x, x * 2)%Z sched1 (mkPP [1; 2; 3; 4; 5; 6]%Z 1)
         = Some result
         ∧ fst <$> process 0%Z (λ x, x * 2)%Z sched8 (mkPP [1; 2; 3; 4; 5; 6]%Z 8)
           = Some result).
Proof.
  apply (process_map_elementwise 0%Z (λ x, x * 2)%Z [1; 2; 3; 4; 5; 6]%Z 3 [2; 0; 1]).
  - lia.
  - solve_schedule.
Defined.

Example map_scenario :
  map 0%Z (λ x, x * 2)%Z [2; 0; 1] (mkPP [1; 2; 3; 4; 5; 6]%Z 3)
  = Some ([2; 4; 6; 8; 10; 12]%Z, mkPP [1; 2; 3; 4; 5; 6]%Z 3).
Proof. by vm_compute. Qed.

(** ** Partitioned reduce *)

(** C2.  For every dataset, thread count [K >= 1], associative [func] and
    left identity [initial_value] of [func], whatever the order in which the
    workers run, [reduce] returns the left fold of the whole dataset from
    [initial_value]; the engine is handed back unchanged. *)
Theorem reduce_sequential_fold {T} (func : T → T → T) (initial_value : T)
    (e : ParallelProcessor (T:=T)) (sched : list nat) :
  (∀ x y z, func (func x y) z = func x (func y z)) →
  (∀ x, func initial_value x = x) →
  1 ≤ num_threads e → schedule (num_threads e) sched →
  reduce func initial_value sched e
  = Some (foldl func initial_value (data e), e).
Proof.
  intros Hassoc Hid HK Hsched.
  by rewrite reduce_spec, fold_chunks.
Qed.

Lemma reduce_sequential_fold_witness :
  reduce Z.add 0%Z [2; 0; 1] (mkPP [1; 2; 3; 4; 5; 6]%Z 3)
  = Some (foldl Z.add 0%Z [1; 2; 3; 4; 5; 6]%Z, mkPP [1; 2; 3; 4; 5; 6]%Z 3).
Proof.
  apply (reduce_sequential_fold Z.add 0%Z (mkPP [1; 2; 3; 4; 5; 6]%Z 3) [2; 0; 1]).
  - intros x y z. lia.
  - intros x. lia.
  - simpl. lia.
  - solve_schedule.
Defined.


(** The call of the example program: the sum of all pixels. *)
Lemma reduce_pixels (e : ParallelProcessor (T:=Pixel)) (sched : list nat) :
  1 ≤ num_threads e → schedule (num_threads e) sched →
  reduce Pixel_add Pixel_default sched e
  = Some (foldl Pixel_add Pixel_default (data e), e).
Proof.
  intros HK Hsched. rewrite reduce_spec, fold_chunks; try done.
  - intros [] [] []. unfold Pixel_add. simpl. f_equal; lia.
  - by intros [].
Qed.

Example reduce_scenario :
  reduce Z.add 0%Z [0; 1; 2] (mkPP [1; 2; 3; 4; 5; 6]%Z 3)
  = Some (21%Z, mkPP [1; 2; 3; 4; 5; 6]%Z 3).
Proof. by vm_compute. Qed.

Example reduce_empty :
  reduce Z.add 0%Z [0; 1; 2; 3] (mkPP [] 4) = Some (0%Z, mkPP [] 4).
Proof. by vm_compute. Qed.

(** The obligations on the caller matter: subtraction is not associative
    and 0 is no left identity of it, and the two-phase fold differs from the
    sequential one. *)
Example reduce_not_associative :
  reduce Z.sub 0%Z [0; 1] (mkPP [1; 2; 3; 4]%Z 2) = Some (10%Z, mkPP [1; 2; 3; 4]%Z 2)
  ∧ foldl Z.sub 0%Z [1; 2; 3; 4]%Z = (-10)%Z.
Proof. by vm_compute. Qed.

(** ** Partitioned filter *)

(** C4.  For every dataset, predicate and thread count [K >= 1], whatever
    the order in which the workers take the lock, [filter] returns a vector
    that is a permutation of the matching elements of the dataset; and the
    position of an element in it does depend on that order. *)
Theorem filter_multiset :
  (∀ T (predicate : T → bool) (e : ParallelProcessor (T:=T)) (sched : list nat),
     1 ≤ num_threads e → schedule (num_threads e) sched →
     ∃ result,
       filter predicate sched e = Some (result, e)
       ∧ result ≡ₚ List.filter predicate (data e))
  ∧ (∃ (predicate : Z → bool) (e : ParallelProcessor (T:=Z)) (sched sched' : list nat),
       schedule (num_threads e) sched ∧ schedule (num_threads e) sched'
       ∧ fst <$> filter predicate sched e ≠ fst <$> filter predicate sched' e).
Proof.
  split.
  - intros T predicate e sched HK Hsched. eexists. split.
    + by apply filter_spec.
    + by apply filter_chunks_Permutation.
  - exists (λ x, 3 <? x)%Z, (mkPP [1; 2; 3; 4; 5; 6]%Z 3), [0; 1; 2], [2; 1; 0].
    split_and!; [solve_schedule..|by vm_compute].
Qed.

Lemma filter_multiset_witness :
  ∃ result,
    filter (λ x, 3 <? x)%Z [2; 0; 1] (mkPP [1; 2; 3; 4; 5; 6]%Z 3)
    = Some (result, mkPP [1; 2; 3; 4; 5; 6]%Z 3)
    ∧ result ≡ₚ List.filter (λ x, 3 <? x)%Z [1; 2; 3; 4; 5; 6]%Z.
Proof.
  apply (proj1 filter_multiset Z (λ x, 3 <? x)%Z (mkPP [1; 2; 3; 4; 5; 6]%Z 3) [2; 0; 1]).
  - simpl. lia.
  - solve_schedule.
Defined.

Example filter_scenario :
  filter (λ x, 3 <? x)%Z [2; 0; 1] (mkPP [1; 2; 3; 4; 5; 6]%Z 3)
  = Some ([5; 6; 4]%Z, mkPP [1; 2; 3; 4; 5; 6]%Z 3).
Proof. by vm_compute. Qed.

(** ** Parallel merge sort *)

Lemma Sorted_adjacent {T} (R : relation T) (l : list T) i a b :
  Sorted R l → l !! i = Some a → l !! S i = Some b → R a b.
Proof.
  intros Hl. revert i. induction Hl as [|x l Hl IH Hx]; intros i Ha Hb; [done|].
  destruct i as [|i]; simpl in *.
  - injection Ha as ->. destruct Hx as [|y l Hxy]; [done|].
    simpl in Hb. by injection Hb as ->.
  - by apply (IH i).
Qed.

Lemma short_Permutation {T} (l l' : list T) :
  length l ≤ 1 → l' ≡ₚ l → l' = l.
Proof.
  intros Hlen Hp. destruct l as [|a [|b l]]; simpl in *; try lia.
  - by apply Permutation_nil_r in Hp.
  - by apply Permutation_singleton_r in Hp.
Qed.

Lemma local_sort_Permutation {T} (std_sort : list T → list T) (d0 d : list T)
    start end_ :
  sorts_in_place std_sort → d ≡ₚ d0 → start ≤ end_ →
  take start d ++ std_sort (slice start end_ d) ++ drop end_ d ≡ₚ d0.
Proof.
  intros Hsort Hd Hse. by rewrite (Hsort _), take_slice_drop.
Qed.

(** What [parallel_sort] computes: the merge sort of a rearrangement of the
    dataset. *)
Lemma parallel_sort_msort {T} (T_default : T) (T_le : T → T → bool)
    (std_sort : list T → list T) (async_first : nat → nat → bool)
    (e : ParallelProcessor (T:=T)) (sched : list nat) :
  sorts_in_place std_sort →
  1 ≤ num_threads e → schedule (num_threads e) sched →
  ∃ D1, D1 ≡ₚ data e ∧
    parallel_sort T_default T_le std_sort async_first sched e
    = Some (tt, mkPP (msort T_le (length D1) D1) (num_threads e)).
Proof.
  intros Hsort HK Hsched.
  apply (parallel_sort_spec T_default T_le std_sort async_first e
           (λ d, d ≡ₚ data e)); try done.
  - intros d start end_ Hd Hse _. by apply local_sort_Permutation.
  - intros d Hd. by apply Permutation_length.
Qed.

(** C1.  For every dataset and thread count [K >= 1], with a total [<=] and
    a [std::sort] that rearranges its range, whatever the order in which the
    local sorts run and whichever half of an asynchronous merge step (a range
    of more than 10000 elements, [K > 1]) runs first, [parallel_sort] returns
    and leaves the dataset non-decreasing under [<=]: every element is [<=]
    its successor, and when [<=] is transitive every element is [<=] every
    later one.  A dataset of length 0 or 1 is left as it is. *)
Theorem parallel_sort_sorted {T} (T_default : T) (T_le : T → T → bool)
    (std_sort : list T → list T) (async_first : nat → nat → bool)
    (e : ParallelProcessor (T:=T)) (sched : list nat) :
  le_total T_le → sorts_in_place std_sort →
  1 ≤ num_threads e → schedule (num_threads e) sched →
  ∃ e',
    parallel_sort T_default T_le std_sort async_first sched e = Some (tt, e')
    ∧ Sorted (le_of T_le) (data e')
    ∧ (∀ i a b, data e' !! i = Some a → data e' !! S i = Some b → T_le a b = true)
    ∧ (le_transitive T_le → StronglySorted (le_of T_le) (data e'))
    ∧ (length (data e) ≤ 1 → e' = e).
Proof.
  intros Htotal Hsort HK Hsched.
  destruct (parallel_sort_msort T_default T_le std_sort async_first e sched)
    as (D1 & HD1 & E); try done.
  assert (Sorted (le_of T_le) (msort T_le (length D1) D1)) as Hsorted
    by (by apply (msort_Sorted T_le (Total0 := Htotal))).
  eexists. split; [exact E|]. cbn [data]. split_and!.
  - done.
  - intros i a b Ha Hb. by apply (Sorted_adjacent _ _ i a b Hsorted).
  - intros Htrans.
    by apply (Sorted_StronglySorted _ (Transitive0 := le_of_Transitive T_le Htrans)).
  - intros Hlen. destruct e as [d K]. cbn [data num_threads] in *. f_equal.
    rewrite msort_short by (rewrite (Permutation_length HD1); lia).
    by apply short_Permutation.
Qed.

Lemma parallel_sort_sorted_witness :
  (∃ e',
     parallel_sort 0%Z Z.leb (insertion_sort Z.ltb) (λ _ _, true) [1; 0]
       (mkPP [5; 3; 1; 4; 2]%Z 2) = Some (tt, e')
     ∧ Sorted (le_of Z.leb) (data e')
     ∧ (∀ i a b, data e' !! i = Some a → data e' !! S i = Some b → Z.leb a b = true)
     ∧ (le_transitive Z.leb → StronglySorted (le_of Z.leb) (data e'))
     ∧ (length [5; 3; 1; 4; 2]%Z ≤ 1 → e' = mkPP [5; 3; 1; 4; 2]%Z 2))
  ∧ (∃ e',
       parallel_sort Pixel_default Pixel_le (insertion_sort_rev Pixel_lt)
         (λ _ _, false) [0; 2; 1] (mkPP pixels17 3) = Some (tt, e')
       ∧ Sorted (le_of Pixel_le) (data e')
       ∧ (∀ i a b, data e' !! i = Some a → data e' !! S i = Some b →
            Pixel_le a b = true)
       ∧ (le_transitive Pixel_le → StronglySorted (le_of Pixel_le) (data e'))
       ∧ (length pixels17 ≤ 1 → e' = mkPP pixels17 3)).
Proof.
  split.
  - apply (parallel_sort_sorted 0%Z Z.leb (insertion_sort Z.ltb) (λ _ _, true)
             (mkPP [5; 3; 1; 4; 2]%Z 2) [1; 0]).
    + exact Z_leb_total.
    + apply insertion_sort_in_place.
    + simpl. lia.
    + solve_schedule.
  - apply (parallel_sort_sorted Pixel_default Pixel_le (insertion_sort_rev Pixel_lt)
             (λ _ _, false) (mkPP pixels17 3) [0; 2; 1]).
    + exact Pixel_le_total.
    + apply insertion_sort_rev_in_place.
    + simpl. lia.
    + solve_schedule.
Defined.

Example parallel_sort_scenario :
  parallel_sort 0%Z Z.leb (insertion_sort Z.ltb) (λ _ _, true) [1; 0]
    (mkPP [5; 3; 1; 4; 2]%Z 2)
  = Some (tt, mkPP [1; 2; 3; 4; 5]%Z 2).
Proof. by vm_compute. Qed.

(** C6.  For every dataset and thread count [K >= 1], with a [std::sort]
    that rearranges its range, [parallel_sort] returns and leaves a
    permutation of the dataset it was given. *)
Theorem parallel_sort_permutation {T} (T_default : T) (T_le : T → T → bool)
    (std_sort : list T → list T) (async_first : nat → nat → bool)
    (e : ParallelProcessor (T:=T)) (sched : list nat) :
  sorts_in_place std_sort →
  1 ≤ num_threads e → schedule (num_threads e) sched →
  ∃ e',
    parallel_sort T_default T_le std_sort async_first sched e = Some (tt, e')
    ∧ data e' ≡ₚ data e.
Proof.
  intros Hsort HK Hsched.
  destruct (parallel_sort_msort T_default T_le std_sort async_first e sched)
    as (D1 & HD1 & E); try done.
  eexists. split; [exact E|]. cbn [data]. by rewrite msort_Permutation.
Qed.

Lemma parallel_sort_permutation_witness :
  ∃ e',
    parallel_sort Pixel_default Pixel_le (insertion_sort Pixel_lt) (λ _ _, false)
      [2; 0; 1] (mkPP [mkPixel 9 9 9; mkPixel 0 0 1; mkPixel 1 0 0; mkPixel 0 5 0] 3)
    = Some (tt, e')
    ∧ data e' ≡ₚ [mkPixel 9 9 9; mkPixel 0 0 1; mkPixel 1 0 0; mkPixel 0 5 0].
Proof.
  apply (parallel_sort_permutation Pixel_default Pixel_le (insertion_sort Pixel_lt)
           (λ _ _, false)
           (mkPP [mkPixel 9 9 9; mkPixel 0 0 1; mkPixel 1 0 0; mkPixel 0 5 0] 3)
           [2; 0; 1]).
  - apply insertion_sort_in_place.
  - simpl. lia.
  - solve_schedule.
Defined.

Lemma parallel_sort_sorted_id {T} (T_default : T) (T_le T_lt : T → T → bool)
    (std_sort : list T → list T) (async_first : nat → nat → bool)
    (e : ParallelProcessor (T:=T)) (sched : list nat) :
  le_transitive T_le → le_antisymmetric T_le → lt_agrees T_le T_lt →
  sorts_in_place std_sort → sorts_by T_lt std_sort →
  1 ≤ num_threads e → schedule (num_threads e) sched →
  Sorted (le_of T_le) (data e) →
  parallel_sort T_default T_le std_sort async_first sched e = Some (tt, e).
Proof.
  intros Htrans Hanti Hlt Hperm Hsorts HK Hsched Hsorted.
  assert (StronglySorted (le_of T_le) (data e)) as Hstrong.
  { apply (Sorted_StronglySorted _ (Transitive0 := le_of_Transitive T_le Htrans)).
    done. }
  destruct (parallel_sort_spec T_default T_le std_sort async_first e
              (λ d, d = data e) sched) as (D1 & -> & E); try done.
  - intros d start end_ -> Hse _.
    rewrite (std_sort_sorted_id T_le T_lt std_sort Hanti Hlt Hperm Hsorts)
      by (by apply slice_StronglySorted).
    by apply take_slice_drop.
  - by intros d ->.
  - rewrite E, msort_sorted_id by done. by destruct e.
Qed.

(** C7, as amended.  When [<=] is a total order on [T] (total, transitive
    and antisymmetric, so that elements that compare equal are the same
    element) and [<] is its strict part, [parallel_sort] leaves every dataset
    that is already sorted exactly as it was; in particular a second call
    after a first one changes nothing. *)
Theorem parallel_sort_idempotent {T} (T_default : T) (T_le T_lt : T → T → bool)
    (std_sort : list T → list T) (async_first : nat → nat → bool)
    (e : ParallelProcessor (T:=T)) (sched sched' : list nat) :
  le_total T_le → le_transitive T_le → le_antisymmetric T_le →
  lt_agrees T_le T_lt →
  sorts_in_place std_sort → sorts_by T_lt std_sort →
  1 ≤ num_threads e →
  schedule (num_threads e) sched → schedule (num_threads e) sched' →
  (Sorted (le_of T_le) (data e) →
     parallel_sort T_default T_le std_sort async_first sched e = Some (tt, e))
  ∧ (∃ e1,
       parallel_sort T_default T_le std_sort async_first sched e = Some (tt, e1)
       ∧ parallel_sort T_default T_le std_sort async_first sched' e1 = Some (tt, e1)).
Proof.
  intros Htotal Htrans Hanti Hlt Hperm Hsorts HK Hsched Hsched'. split.
  - by apply (parallel_sort_sorted_id T_default T_le T_lt).
  - destruct (parallel_sort_msort T_default T_le std_sort async_first e sched)
      as (D1 & HD1 & E); try done.
    eexists. split; [exact E|].
    apply (parallel_sort_sorted_id T_default T_le T_lt); try done.
    cbn [data]. by apply (msort_Sorted T_le (Total0 := Htotal)).
Qed.

Lemma parallel_sort_idempotent_witness :
  (Sorted (le_of Z.leb) [1; 2; 2; 4; 5]%Z →
     parallel_sort 0%Z Z.leb (insertion_sort_rev Z.ltb) (λ _ _, true) [1; 0]
       (mkPP [1; 2; 2; 4; 5]%Z 2)
     = Some (tt, mkPP [1; 2; 2; 4; 5]%Z 2))
  ∧ (∃ e1,
       parallel_sort 0%Z Z.leb (insertion_sort_rev Z.ltb) (λ _ _, true) [1; 0]
         (mkPP [1; 2; 2; 4; 5]%Z 2) = Some (tt, e1)
       ∧ parallel_sort 0%Z Z.leb (insertion_sort_rev Z.ltb) (λ _ _, true) [0; 1] e1
         = Some (tt, e1)).
Proof.
  apply (parallel_sort_idempotent 0%Z Z.leb Z.ltb (insertion_sort_rev Z.ltb)
           (λ _ _, true) (mkPP [1; 2; 2; 4; 5]%Z 2) [1; 0] [0; 1]).
  - exact Z_leb_total.
  - exact Z_leb_transitive.
  - exact Z_leb_antisymmetric.
  - exact Z_ltb_agrees.
  - apply insertion_sort_rev_in_place.
  - apply insertion_sort_rev_sorts, Z_ltb_strict_weak.
  - simpl. lia.
  - solve_schedule.
  - solve_schedule.
Defined.

(** C7, as stated, fails.  [Pixel] is ordered by brightness alone, and
    [std::sort] may reorder elements that compare equal: on seventeen
    different pixels of one brightness, a sorted dataset, with a sort that
    meets the contract of [std::sort], one thread leaves them in another
    order. *)
Lemma parallel_sort_reorders_equal_pixels :
  sorts_in_place (insertion_sort_rev Pixel_lt)
  ∧ sorts_by Pixel_lt (insertion_sort_rev Pixel_lt)
  ∧ Sorted (le_of Pixel_le) pixels17
  ∧ ∃ e',
      parallel_sort Pixel_default Pixel_le (insertion_sort_rev Pixel_lt)
        (λ _ _, true) [0] (mkPP pixels17 1) = Some (tt, e')
      ∧ data e' ≡ₚ pixels17
      ∧ Sorted (le_of Pixel_le) (data e')
      ∧ data e' ≠ pixels17.
Proof.
  split_and!.
  - apply insertion_sort_rev_in_place.
  - apply insertion_sort_rev_sorts, Pixel_lt_strict_weak.
  - apply (bool_decide_unpack _). by vm_compute.
  - eexists. split; [by vm_compute|]. cbn [data]. split_and!.
    + apply (bool_decide_unpack _). by vm_compute.
    + apply (bool_decide_unpack _). by vm_compute.
    + by vm_compute.
Qed.

(** ** Progress-observed executor on the empty dataset *)

Lemma join_all_skip {St} (worker : nat → M St unit) (sched : list nat) (s : St) :
  (∀ i, worker i s = Some (tt, s)) → join_all worker sched s = Some (tt, s).
Proof.
  intros Hw. induction sched as [|i sched IH]; simpl; [done|].
  unfold bind. by rewrite Hw.
Qed.

Lemma chunk_empty K i :
  chunk_start (0 / K) i = 0 ∧ chunk_end 0 K (0 / K) i = 0.
Proof.
  rewrite Nat.Div0.div_0_l. unfold chunk_start, chunk_end.
  case_decide; lia.
Qed.

(** C8.  On the empty dataset, for every thread count [K >= 1], schedule
    and sequence of values the monitor may read, [process_with_progress]
    returns; the monitor's loop is not entered, whatever the fuel and the
    counter, so the percentage, whose divisor would be 0 (undefined), is
    never computed; and exactly one line is written, the final one. *)
Theorem process_with_progress_empty {T} (T_default : T) (func : T → T)
    (K : nat) (sched polls : list nat) :
  1 ≤ K →
  process_with_progress T_default func sched polls (mkPP [] K)
  = Some (([], [Complete 0 0]), mkPP [] K)
  ∧ (∀ fuel final, ∃ rest, monitor_loop fuel final 0 polls = Some ([], rest))
  ∧ (∀ p, size_div (p * 100) 0 = None).
Proof.
  intros HK. split_and!.
  - unfold process_with_progress.
    unfold bind at 1. unfold gets at 1. unfold bind at 1. unfold gets at 1.
    unfold bind at 1. unfold lift_option at 1. unfold size_div.
    cbn [data num_threads length]. case_decide; [lia|].
    unfold bind at 1. unfold with_local.
    rewrite join_all_skip.
    + cbn [this loc fst snd]. unfold bind. rewrite monitor_empty. done.
    + intros i. destruct (chunk_empty K i) as [-> ->]. done.
  - intros fuel final. destruct fuel, polls; simpl; unfold bind; simpl;
      by eexists.
  - intros p. unfold size_div. by case_decide.
Qed.

Lemma process_with_progress_empty_witness :
  process_with_progress 0%Z (λ x, x * 2)%Z [3; 1; 0; 2] [0; 0; 0] (mkPP [] 4)
  = Some (([], [Complete 0 0]), mkPP [] 4)
  ∧ (∀ fuel final, ∃ rest, monitor_loop fuel final 0 [0; 0; 0] = Some ([], rest))
  ∧ (∀ p, size_div (p * 100) 0 = None).
Proof.
  apply (process_with_progress_empty 0%Z (λ x, x * 2)%Z 4 [3; 1; 0; 2] [0; 0; 0]).
  lia.
Defined.

Example process_with_progress_scenario :
  process_with_progress 0%Z (λ x, x * 2)%Z [2; 0; 1] [0; 0; 1; 3; 3; 4]
    (mkPP [1; 2; 3; 4; 5; 6]%Z 3)
  = Some (([2; 4; 6; 8; 10; 12]%Z,
           [Progress 0 6 16; Progress 3 6 66; Complete 6 6]),
          mkPP [1; 2; 3; 4; 5; 6]%Z 3).
Proof. by vm_compute. Qed.

(** ** Frame of the read-only operations *)

(** C9.  For every dataset, thread count [K >= 1], schedule and caller
    function, [process], [map], [process_with_progress], [filter] and
    [reduce] return and hand the engine back with the same dataset (and
    thread count) it had. *)
Theorem operations_keep_dataset {T} (T_default : T)
    (e : ParallelProcessor (T:=T)) (func : T → T) (predicate : T → bool)
    (combine : T → T → T) (initial_value : T) (sched polls : list nat) :
  1 ≤ num_threads e → schedule (num_threads e) sched →
  (∃ r, process T_default func sched e = Some (r, e))
  ∧ (∃ r, map T_default func sched e = Some (r, e))
  ∧ (∃ r, process_with_progress T_default func sched polls e = Some (r, e))
  ∧ (∃ r, filter predicate sched e = Some (r, e))
  ∧ (∃ r, reduce combine initial_value sched e = Some (r, e)).
Proof.
  intros HK Hsched. split_and!.
  - eexists. by apply process_spec.
  - eexists. by apply process_spec.
  - destruct (process_with_progress_spec T_default e func sched polls HK Hsched)
      as [out E]. by eexists.
  - eexists. by apply filter_spec.
  - eexists. by apply reduce_spec.
Qed.

Lemma operations_keep_dataset_witness :
  (∃ r, process 0%Z Z.succ [1; 0] (mkPP [3; 1; 2]%Z 2) = Some (r, mkPP [3; 1; 2]%Z 2))
  ∧ (∃ r, map 0%Z Z.succ [1; 0] (mkPP [3; 1; 2]%Z 2) = Some (r, mkPP [3; 1; 2]%Z 2))
  ∧ (∃ r, process_with_progress 0%Z Z.succ [1; 0] [0; 1] (mkPP [3; 1; 2]%Z 2)
          = Some (r, mkPP [3; 1; 2]%Z 2))
  ∧ (∃ r, filter Z.even [1; 0] (mkPP [3; 1; 2]%Z 2) = Some (r, mkPP [3; 1; 2]%Z 2))
  ∧ (∃ r, reduce Z.max 0%Z [1; 0] (mkPP [3; 1; 2]%Z 2) = Some (r, mkPP [3; 1; 2]%Z 2)).
Proof.
  apply (operations_keep_dataset 0%Z (mkPP [3; 1; 2]%Z 2) Z.succ Z.even Z.max 0%Z
           [1; 0] [0; 1]).
  - simpl. lia.
  - solve_schedule.
Defined.

(** ** Thread count *)

(** C10.  Construction never fails: it stores the dataset and a thread count
    that is the supplied one, or 1 when 0 is supplied (0 is also what an
    undetectable hardware concurrency supplies), so at least 1; and after
    any sequence of calls on the engine the thread count is still that
    value, so every call observes it. *)
Theorem thread_count_positive {T} (T_default : T) (T_le : T → T → bool)
    (std_sort : list T → list T) (async_first : nat → nat → bool)
    (input_data : list T) (threads : nat) (cs : list Call)
    (e' : ParallelProcessor (T:=T)) :
  calls T_default T_le std_sort async_first cs (new input_data threads)
  = Some (tt, e') →
  data (new input_data threads) = input_data
  ∧ num_threads (new input_data threads) = (if decide (threads = 0) then 1 else threads)
  ∧ 1 ≤ num_threads (new input_data threads)
  ∧ num_threads e' = num_threads (new input_data threads)
  ∧ 1 ≤ num_threads e'.
Proof.
  intros Hrun.
  pose proof (calls_threads T_default T_le std_sort async_first cs _ _ _ Hrun) as HK.
  assert (num_threads (new input_data threads)
          = if decide (threads = 0) then 1 else threads) as Hnew.
  { unfold new. cbn [num_threads data]. repeat case_decide; (done || lia). }
  split_and!.
  - unfold new. cbn [num_threads data]. by repeat case_decide.
  - done.
  - rewrite Hnew. case_decide; lia.
  - done.
  - rewrite HK, Hnew. case_decide; lia.
Qed.

Lemma thread_count_positive_witness :
  data (new [3; 1; 2]%Z 0) = [3; 1; 2]%Z
  ∧ num_threads (new [3; 1; 2]%Z 0) = (if decide (0 = 0) then 1 else 0)
  ∧ 1 ≤ num_threads (new [3; 1; 2]%Z 0)
  ∧ num_threads (mkPP [1; 2; 3]%Z 1) = num_threads (new [3; 1; 2]%Z 0)
  ∧ 1 ≤ num_threads (mkPP [1; 2; 3]%Z 1).
Proof.
  apply (thread_count_positive 0%Z Z.leb (insertion_sort Z.ltb) (λ _ _, true)
           [3; 1; 2]%Z 0
           [CallMap Z.succ [0]; CallFilter Z.even [0]; CallReduce Z.add 0%Z [0];
            CallProcessWithProgress Z.succ [0] [1; 2]; CallParallelSort [0];
            CallProcess Z.pred [0]]
           (mkPP [1; 2; 3]%Z 1)).
  by vm_compute.
Defined.

(** ** Further properties *)

(** X1.  On a range [start, end) inside the dataset, with a scratch vector
    of the length of the dataset, [merge_sort_parallel] returns; it replaces
    the range by its merge sort (a permutation of the range, sorted when
    [<=] is total), leaves every cell outside the range as it was and keeps
    the length of the scratch vector, whichever half of an asynchronous step
    runs first. *)
Theorem merge_sort_parallel_in_place {T} (T_le : T → T → bool)
    (async_first : nat → nat → bool) (K0 : nat) (D tmp : list T)
    (start end_ : nat) :
  start ≤ end_ → end_ ≤ length D → length tmp = length D →
  ∃ tmp' sorted,
    merge_sort_parallel T_le async_first (end_ - start) start end_
      (mkFrame (mkPP D K0) tmp)
    = Some (tt, mkFrame (mkPP (take start D ++ sorted ++ drop end_ D) K0) tmp')
    ∧ length tmp' = length D
    ∧ sorted = msort T_le (end_ - start) (slice start end_ D)
    ∧ sorted ≡ₚ slice start end_ D
    ∧ (le_total T_le → Sorted (le_of T_le) sorted).
Proof.
  intros Hse Hend Htmp.
  destruct (merge_sort_parallel_spec T_le async_first K0 (end_ - start)
              start end_ D tmp) as (tmp' & E & Htmp'); try done.
  exists tmp', (msort T_le (end_ - start) (slice start end_ D)).
  split_and!; try done.
  - rewrite E. do 4 f_equal. apply overwrite_take_drop.
    rewrite msort_length, slice_length by done. lia.
  - apply msort_Permutation.
  - intros Htotal. apply (msort_Sorted T_le (Total0 := Htotal)).
    by rewrite slice_length.
Qed.

Lemma merge_sort_parallel_in_place_witness :
  ∃ tmp' sorted,
    merge_sort_parallel Z.leb (λ _ _, false) (6 - 1) 1 6
      (mkFrame (mkPP [9; 5; 3; 1; 4; 2; 0]%Z 2) (replicate 7 0%Z))
    = Some (tt, mkFrame (mkPP (take 1 [9; 5; 3; 1; 4; 2; 0]%Z ++ sorted
                                 ++ drop 6 [9; 5; 3; 1; 4; 2; 0]%Z) 2) tmp')
    ∧ length tmp' = length [9; 5; 3; 1; 4; 2; 0]%Z
    ∧ sorted = msort Z.leb (6 - 1) (slice 1 6 [9; 5; 3; 1; 4; 2; 0]%Z)
    ∧ sorted ≡ₚ slice 1 6 [9; 5; 3; 1; 4; 2; 0]%Z
    ∧ (le_total Z.leb → Sorted (le_of Z.leb) sorted).
Proof.
  apply (merge_sort_parallel_in_place Z.leb (λ _ _, false) 2
           [9; 5; 3; 1; 4; 2; 0]%Z (replicate 7 0%Z) 1 6).
  - lia.
  - simpl. lia.
  - done.
Defined.

Example merge_sort_parallel_range :
  fmap (λ r, data (this r.2))
    (merge_sort_parallel Z.leb (λ _ _, false) 5 1 6
       (mkFrame (mkPP [9; 5; 3; 1; 4; 2; 0]%Z 2) (replicate 7 0%Z)))
  = Some [9; 1; 2; 3; 4; 5; 0]%Z.
Proof. by vm_compute. Qed.



(** X3.  For every dataset, function, thread count [K >= 1], schedule and
    sequence of values read by the monitor, [process_with_progress] returns
    the vector that [process] returns, hands the engine back unchanged, and
    the last line it writes is the completion line for the whole dataset. *)
Theorem process_with_progress_result {T} (T_default : T) (func : T → T)
    (e : ParallelProcessor (T:=T)) (sched polls : list nat) :
  1 ≤ num_threads e → schedule (num_threads e) sched →
  ∃ result reports completed,
    process_with_progress T_default func sched polls e
    = Some ((result, reports ++ [Complete completed (length (data e))]), e)
    ∧ process T_default func sched e = Some (result, e)
    ∧ result = func <$> data e
    ∧ completed ≤ length (data e).
Proof.
  intros HK Hsched.
  destruct (progress_workers_spec T_default e func sched HK Hsched _ eq_refl)
    as ([] & fr & Erun & He & Hloc).
  destruct (monitor_loop_total (length (data e)) (length (data e)) (le_n _)
              (length polls) polls (le_n _)) as (reports & rest & Eloop).
  exists (func <$> data e), reports,
    (match rest with [] => length (data e) | p :: _ => p `min` length (data e) end).
  split_and!.
  - unfold process_with_progress, bind, gets, lift_option, size_div, with_local, ret.
    case_decide; [lia|]. rewrite Erun. simpl. rewrite Hloc. simpl.
    unfold monitor, bind, gets. rewrite Eloop. rewrite He.
    by destruct rest.
  - by apply process_spec.
  - done.
  - destruct rest; lia.
Qed.

Lemma process_with_progress_result_witness :
  ∃ result reports completed,
    process_with_progress 0%Z Z.succ [1; 0] [0; 1; 1; 2] (mkPP [3; 1; 2]%Z 2)
    = Some ((result, reports ++ [Complete completed (length [3; 1; 2]%Z)]),
            mkPP [3; 1; 2]%Z 2)
    ∧ process 0%Z Z.succ [1; 0] (mkPP [3; 1; 2]%Z 2)
      = Some (result, mkPP [3; 1; 2]%Z 2)
    ∧ result = Z.succ <$> [3; 1; 2]%Z
    ∧ completed ≤ length [3; 1; 2]%Z.
Proof.
  apply (process_with_progress_result 0%Z Z.succ (mkPP [3; 1; 2]%Z 2) [1; 0]
           [0; 1; 1; 2]).
  - simpl. lia.
  - solve_schedule.
Defined.

(** X4.  [filter] returns the matches chunk by chunk: the matches of one
    chunk stay together and in the order of the dataset, and the chunks
    follow each other in the order in which their workers took the lock.
    When the workers arrive in the order of their ids, and always with one
    thread, the result is the matches in the order of the dataset. *)
Theorem filter_blocks {T} (predicate : T → bool)
    (e : ParallelProcessor (T:=T)) (sched : list nat) :
  1 ≤ num_threads e → schedule (num_threads e) sched →
  filter predicate sched e
  = Some (mjoin ((λ i, List.filter predicate (chunk (num_threads e) (data e) i))
                   <$> sched), e)
  ∧ (sched = seq 0 (num_threads e) →
       filter predicate sched e = Some (List.filter predicate (data e), e))
  ∧ (num_threads e = 1 →
       filter predicate sched e = Some (List.filter predicate (data e), e)).
Proof.
  intros HK Hsched.
  assert (sched = seq 0 (num_threads e) →
          filter predicate sched e = Some (List.filter predicate (data e), e)) as Hid.
  { intros ->. rewrite filter_spec by done.
    rewrite (list_fmap_compose (chunk (num_threads e) (data e))
               (List.filter predicate)).
    by rewrite filter_join, chunks_join. }
  split_and!.
  - by apply filter_spec.
  - done.
  - intros H1. apply Hid. unfold schedule in Hsched. rewrite H1 in *.
    simpl in *. by apply Permutation_singleton_r in Hsched.
Qed.

Lemma filter_blocks_witness :
  filter Z.even [2; 0; 1] (mkPP [1; 2; 3; 4; 5; 6]%Z 3)
  = Some (mjoin ((λ i, List.filter Z.even (chunk 3 [1; 2; 3; 4; 5; 6]%Z i))
                   <$> [2; 0; 1]), mkPP [1; 2; 3; 4; 5; 6]%Z 3)
  ∧ ([2; 0; 1] = seq 0 3 →
       filter Z.even [2; 0; 1] (mkPP [1; 2; 3; 4; 5; 6]%Z 3)
       = Some (List.filter Z.even [1; 2; 3; 4; 5; 6]%Z, mkPP [1; 2; 3; 4; 5; 6]%Z 3))
  ∧ (3 = 1 →
       filter Z.even [2; 0; 1] (mkPP [1; 2; 3; 4; 5; 6]%Z 3)
       = Some (List.filter Z.even [1; 2; 3; 4; 5; 6]%Z, mkPP [1; 2; 3; 4; 5; 6]%Z 3)).
Proof.
  apply (filter_blocks Z.even (mkPP [1; 2; 3; 4; 5; 6]%Z 3) [2; 0; 1]).
  - simpl. lia.
  - solve_schedule.
Defined.





Example reduce_initial_value_ten :
  reduce Z.add 10%Z [1; 2; 0] (mkPP [1; 2; 3; 4; 5; 6]%Z 3)
  = Some (61%Z, mkPP [1; 2; 3; 4; 5; 6]%Z 3).
Proof. by vm_compute. Qed.

(** X6.  When [<=] is a total order, the dataset that [parallel_sort] leaves
    does not depend on the thread count, on the order in which the workers
    and the halves of asynchronous steps run, or on which conforming
    [std::sort] does the local sorts. *)
Theorem parallel_sort_deterministic {T} (T_default : T) (T_le : T → T → bool)
    (std_sort std_sort' : list T → list T)
    (async_first async_first' : nat → nat → bool)
    (d : list T) (K K' : nat) (sched sched' : list nat) :
  le_total T_le → le_transitive T_le → le_antisymmetric T_le →
  sorts_in_place std_sort → sorts_in_place std_sort' →
  1 ≤ K → 1 ≤ K' → schedule K sched → schedule K' sched' →
  ∃ sorted,
    parallel_sort T_default T_le std_sort async_first sched (mkPP d K)
    = Some (tt, mkPP sorted K)
    ∧ parallel_sort T_default T_le std_sort' async_first' sched' (mkPP d K')
      = Some (tt, mkPP sorted K').
Proof.
  intros Htotal Htrans Hanti Hs Hs' HK HK' Hsched Hsched'.
  destruct (parallel_sort_msort T_default T_le std_sort async_first
              (mkPP d K) sched) as (D1 & HD1 & E1); try done.
  destruct (parallel_sort_msort T_default T_le std_sort' async_first'
              (mkPP d K') sched') as (D2 & HD2 & E2); try done.
  cbn [data num_threads] in *.
  exists (msort T_le (length D1) D1). split; [done|]. rewrite E2. do 3 f_equal.
  apply (Sorted_unique (le_of T_le)
           (Transitive0 := le_of_Transitive T_le Htrans)
           (AntiSymm0 := le_of_AntiSymm T_le Hanti)).
  - by apply (msort_Sorted T_le (Total0 := Htotal)).
  - by apply (msort_Sorted T_le (Total0 := Htotal)).
  - by rewrite !msort_Permutation, HD1, HD2.
Qed.

Lemma parallel_sort_deterministic_witness :
  ∃ sorted,
    parallel_sort 0%Z Z.leb (insertion_sort Z.ltb) (λ _ _, true) [0]
      (mkPP [5; 3; 1; 4; 2; 3]%Z 1) = Some (tt, mkPP sorted 1)
    ∧ parallel_sort 0%Z Z.leb (insertion_sort_rev Z.ltb) (λ _ _, false) [2; 0; 3; 1]
        (mkPP [5; 3; 1; 4; 2; 3]%Z 4) = Some (tt, mkPP sorted 4).
Proof.
  apply (parallel_sort_deterministic 0%Z Z.leb (insertion_sort Z.ltb)
           (insertion_sort_rev Z.ltb) (λ _ _, true) (λ _ _, false)
           [5; 3; 1; 4; 2; 3]%Z 1 4 [0] [2; 0; 3; 1]).
  - exact Z_leb_total.
  - exact Z_leb_transitive.
  - exact Z_leb_antisymmetric.
  - apply insertion_sort_in_place.
  - apply insertion_sort_rev_in_place.
  - lia.
  - lia.
  - solve_schedule.
  - solve_schedule.
Defined.

Section Stable.

Context {T : Type}.
Variable T_le : T → T → bool.
Hypothesis T_le_total : le_total T_le.
Hypothesis T_le_transitive : le_transitive T_le.

Local Abbreviation R := (le_of T_le).
Local Abbreviation same a := (λ x, T_le a x && T_le x a).

Lemma filter_none (f : T → bool) l :
  Forall (λ y, f y = false) l → List.filter f l = [].
Proof. induction 1 as [|y l Hy _ IH]; simpl; [done|]. by rewrite Hy. Qed.

(** Merging takes from the left run on a tie, so the elements equivalent
    to [a] come out with those of the left run first. *)
Lemma list_merge_stable a l1 l2 :
  StronglySorted R l1 →
  List.filter (same a) (list_merge R l1 l2)
  = List.filter (same a) l1 ++ List.filter (same a) l2.
Proof.
  intros Hl1. revert l2. induction Hl1 as [|x1 l1 Hl1 IH Hx1]; intros l2.
  { by rewrite list_merge_nil_l. }
  induction l2 as [|x2 l2 IH2].
  { by rewrite list_merge_nil_r, app_nil_r. }
  rewrite list_merge_cons. case_decide as Hle.
  { simpl. rewrite IH. by destruct (T_le a x1 && T_le x1 a). }
  assert (∀ l, List.filter (same a) (x2 :: l)
               = if same a x2 then x2 :: List.filter (same a) l
                 else List.filter (same a) l) as Hcons by done.
  rewrite !Hcons, IH2. cbv beta.
  destruct (T_le a x2 && T_le x2 a) eqn:E; [|done].
  apply andb_prop in E as [Hax2 Hx2a].
  rewrite (filter_none (same a) (x1 :: l1)); [done|].
  assert (∀ y, R x1 y → same a y = false) as Hout.
  { intros y Hy. destruct (T_le a y) eqn:Hay; [|done].
    destruct (T_le y a) eqn:Hya; [|done]. destruct Hle.
    apply (T_le_transitive _ y); [done|]. by apply (T_le_transitive _ a). }
  constructor.
  - apply Hout. by destruct (T_le_total x1 x1).
  - eapply Forall_impl; [apply Hx1|]. intros y Hy. by apply Hout.
Qed.

Lemma msort_stable a fuel :
  ∀ l, length l ≤ fuel →
    List.filter (same a) (msort T_le fuel l) = List.filter (same a) l.
Proof.
  induction fuel as [|fuel IH]; intros l Hlen; [by rewrite msort_0|].
  rewrite msort_S. case_decide as Hshort; [done|].
  assert (length (take (length l / 2) l) ≤ fuel
          ∧ length (drop (length l / 2) l) ≤ fuel) as [H1 H2].
  { rewrite length_take, length_drop.
    pose proof (Nat.div_mod_eq (length l) 2).
    pose proof (Nat.mod_upper_bound (length l) 2 ltac:(done)). lia. }
  rewrite list_merge_stable.
  - rewrite !IH by done. rewrite <- List.filter_app. by rewrite take_drop.
  - apply (Sorted_StronglySorted _ (Transitive0 := T_le_transitive)).
    by apply (msort_Sorted T_le (Total0 := T_le_total)).
Qed.

End Stable.

(** X7.  The merge phase is stable: when [<=] is total and transitive,
    [merge_sort_parallel] on a range leaves the elements that are equivalent
    to one another (each [<=] the other) in the order in which they stood in
    the range. *)
Theorem merge_sort_parallel_stable {T} (T_le : T → T → bool)
    (async_first : nat → nat → bool) (K0 : nat) (D tmp : list T)
    (start end_ : nat) :
  le_total T_le → le_transitive T_le →
  start ≤ end_ → end_ ≤ length D → length tmp = length D →
  ∃ tmp' sorted,
    merge_sort_parallel T_le async_first (end_ - start) start end_
      (mkFrame (mkPP D K0) tmp)
    = Some (tt, mkFrame (mkPP (take start D ++ sorted ++ drop end_ D) K0) tmp')
    ∧ ∀ a, List.filter (λ x, T_le a x && T_le x a) sorted
           = List.filter (λ x, T_le a x && T_le x a) (slice start end_ D).
Proof.
  intros Htotal Htrans Hse Hend Htmp.
  destruct (merge_sort_parallel_spec T_le async_first K0 (end_ - start)
              start end_ D tmp) as (tmp' & E & Htmp'); try done.
  exists tmp', (msort T_le (end_ - start) (slice start end_ D)). split.
  - rewrite E. do 4 f_equal. apply overwrite_take_drop.
    rewrite msort_length, slice_length by done. lia.
  - intros a. apply msort_stable; try done. by rewrite slice_length.
Qed.

Lemma merge_sort_parallel_stable_witness :
  ∃ tmp' sorted,
    merge_sort_parallel Pixel_le (λ _ _, true) (5 - 0) 0 5
      (mkFrame (mkPP [mkPixel 3 0 0; mkPixel 1 0 0; mkPixel 0 3 0;
                      mkPixel 0 1 0; mkPixel 0 0 3] 1)
               (replicate 5 Pixel_default))
    = Some (tt, mkFrame (mkPP (take 0 [mkPixel 3 0 0; mkPixel 1 0 0; mkPixel 0 3 0;
                                       mkPixel 0 1 0; mkPixel 0 0 3]
                               ++ sorted
                               ++ drop 5 [mkPixel 3 0 0; mkPixel 1 0 0; mkPixel 0 3 0;
                                          mkPixel 0 1 0; mkPixel 0 0 3]) 1) tmp')
    ∧ ∀ a, List.filter (λ x, Pixel_le a x && Pixel_le x a) sorted
           = List.filter (λ x, Pixel_le a x && Pixel_le x a)
               (slice 0 5 [mkPixel 3 0 0; mkPixel 1 0 0; mkPixel 0 3 0;
                           mkPixel 0 1 0; mkPixel 0 0 3]).
Proof.
  apply (merge_sort_parallel_stable Pixel_le (λ _ _, true) 1
           [mkPixel 3 0 0; mkPixel 1 0 0; mkPixel 0 3 0; mkPixel 0 1 0; mkPixel 0 0 3]
           (replicate 5 Pixel_default) 0 5).
  - exact Pixel_le_total.
  - intros a b c. unfold Pixel_le. rewrite !Z.leb_le. lia.
  - lia.
  - simpl. lia.
  - done.
Defined.

(** The pixels of equal brightness keep their order: red, green and blue of
    brightness 3 stay in that order. *)
Example merge_sort_parallel_stable_pixels :
  (merge_sort_parallel Pixel_le (λ _ _, true) 5 0 5
     (mkFrame (mkPP [mkPixel 3 0 0; mkPixel 1 0 0; mkPixel 0 3 0;
                     mkPixel 0 1 0; mkPixel 0 0 3] 1)
              (replicate 5 Pixel_default)))
  = Some (tt, mkFrame (mkPP [mkPixel 1 0 0; mkPixel 0 1 0; mkPixel 3 0 0;
                             mkPixel 0 3 0; mkPixel 0 0 3] 1)
                      [mkPixel 1 0 0; mkPixel 0 1 0; mkPixel 3 0 0;
                       mkPixel 0 3 0; mkPixel 0 0 3]).
Proof. by vm_compute. Qed.

Lemma percent_le_100 (p N : nat) : p ≤ N → N ≠ 0 → p * 100 / N ≤ 100.
Proof. intros Hp HN. apply Nat.Div0.div_le_upper_bound. lia. Qed.

Lemma monitor_loop_reports (N : nat) :
  ∀ fuel polls, length polls ≤ fuel →
    ∃ out rest,
      monitor_loop fuel N N polls = Some (out, rest)
      ∧ length out ≤ length polls
      ∧ Forall (λ r, match r with
                     | Progress completed total percent =>
                         completed ≤ N ∧ total = N ∧ percent ≤ 100
                     | Complete _ _ => False
                     end) out
      ∧ (StronglySorted le polls →
           Forall (le N) rest
           ∧ Forall (λ r, match r with
                          | Progress completed _ percent =>
                              completed * 100 / N ≤ percent
                          | Complete _ _ => True
                          end) out).
Proof.
  induction fuel as [|fuel IH]; intros polls Hlen.
  { destruct polls; [|simpl in Hlen; lia]. simpl. unfold bind, load.
    case_decide; [lia|]. eexists _, _. by split_and!. }
  simpl. unfold bind at 1. destruct polls as [|p polls]; simpl.
  { case_decide; [lia|]. eexists _, _. by split_and!. }
  case_decide as Hp.
  2:{ eexists _, _. split_and!; [done|simpl; lia|done|].
      intros [_ Hall]%StronglySorted_inv. split; [|done].
      eapply Forall_impl; [apply Hall|]. simpl. lia. }
  assert (N ≠ 0) as HN by lia.
  unfold bind, lift_option, size_div.
  destruct polls as [|p1 polls]; simpl.
  { case_decide; [done|]. destruct (IH [] ltac:(simpl; lia)) as (out & rest & E & Hl & Hok & Hs).
    rewrite E. eexists _, _. split_and!; [done|simpl in *; lia| |].
    - constructor; [|done]. split_and!; [done..|]. by apply percent_le_100.
    - intros _. destruct Hs as [Hr Hm]; [constructor|]. split; [done|]. by constructor. }
  destruct polls as [|p2 polls]; simpl.
  { case_decide; [done|]. destruct (IH [] ltac:(simpl; lia)) as (out & rest & E & Hl & Hok & Hs).
    rewrite E. eexists _, _. split_and!; [done|simpl in *; lia| |].
    - constructor; [|done]. split_and!; [lia|done|]. by apply percent_le_100.
    - intros _. destruct Hs as [Hr Hm]; [constructor|]. split; [done|].
      constructor; [|done]. apply Nat.Div0.div_le_mono. lia. }
  case_decide; [done|]. simpl in Hlen.
  destruct (IH polls ltac:(lia)) as (out & rest & E & Hl & Hok & Hs).
  rewrite E. eexists _, _. split_and!; [done|simpl in *; lia| |].
  - constructor; [|done]. split_and!; [lia|done|]. apply percent_le_100; lia.
  - intros [[[Hsorted _]%StronglySorted_inv H12]%StronglySorted_inv _]%StronglySorted_inv.
    destruct (Hs Hsorted) as [Hr Hm]. split; [done|].
    constructor; [|done]. apply Nat.Div0.div_le_mono.
    apply Forall_cons_1 in H12 as [H12 _]. lia.
Qed.

(** X8.  What the monitor of [process_with_progress] writes: at most one
    progress line per value it read before the workers were done, each with
    a count no larger than the dataset and a percentage no larger than 100,
    then the completion line.  A progress line reads the counter twice, once
    for the count and once for the percentage; when the values read never
    decrease, as those of a counter that is only incremented, the percentage
    is at least the one of the count shown, and the completion line shows the
    whole dataset. *)
Theorem process_with_progress_reports {T} (T_default : T) (func : T → T)
    (e : ParallelProcessor (T:=T)) (sched polls : list nat) :
  1 ≤ num_threads e → schedule (num_threads e) sched →
  ∃ reports completed,
    process_with_progress T_default func sched polls e
    = Some ((func <$> data e,
             reports ++ [Complete completed (length (data e))]), e)
    ∧ length reports ≤ length polls
    ∧ Forall (λ r, match r with
                   | Progress c total percent =>
                       c ≤ length (data e) ∧ total = length (data e) ∧ percent ≤ 100
                   | Complete _ _ => False
                   end) reports
    ∧ (StronglySorted le polls →
         completed = length (data e)
         ∧ Forall (λ r, match r with
                        | Progress c _ percent => c * 100 / length (data e) ≤ percent
                        | Complete _ _ => True
                        end) reports).
Proof.
  intros HK Hsched.
  destruct (progress_workers_spec T_default e func sched HK Hsched _ eq_refl)
    as ([] & fr & Erun & He & Hloc).
  destruct (monitor_loop_reports (length (data e)) (length polls) polls (le_n _))
    as (reports & rest & Eloop & Hlen & Hok & Hsorted).
  exists reports,
    (match rest with [] => length (data e) | p :: _ => p `min` length (data e) end).
  split_and!; [|done..|].
  - unfold process_with_progress, bind, gets, lift_option, size_div, with_local, ret.
    case_decide; [lia|]. rewrite Erun. simpl. rewrite Hloc. simpl.
    unfold monitor, bind, gets. rewrite Eloop. rewrite He.
    by destruct rest.
  - intros Hs. destruct (Hsorted Hs) as [Hrest Hmono]. split; [|done].
    destruct rest as [|p rest]; [done|].
    apply Forall_cons_1 in Hrest as [Hp _]. lia.
Qed.

Lemma process_with_progress_reports_witness :
  ∃ reports completed,
    process_with_progress 0%Z Z.succ [1; 0] [0; 1; 1; 2] (mkPP [3; 1; 2]%Z 2)
    = Some ((Z.succ <$> [3; 1; 2]%Z,
             reports ++ [Complete completed (length [3; 1; 2]%Z)]),
            mkPP [3; 1; 2]%Z 2)
    ∧ length reports ≤ length [0; 1; 1; 2]
    ∧ Forall (λ r, match r with
                   | Progress c total percent =>
                       c ≤ length [3; 1; 2]%Z ∧ total = length [3; 1; 2]%Z
                       ∧ percent ≤ 100
                   | Complete _ _ => False
                   end) reports
    ∧ (StronglySorted le [0; 1; 1; 2] →
         completed = length [3; 1; 2]%Z
         ∧ Forall (λ r, match r with
                        | Progress c _ percent => c * 100 / length [3; 1; 2]%Z ≤ percent
                        | Complete _ _ => True
                        end) reports).
Proof.
  apply (process_with_progress_reports 0%Z Z.succ (mkPP [3; 1; 2]%Z 2) [1; 0]
           [0; 1; 1; 2]).
  - simpl. lia.
  - solve_schedule.
Defined.

(** The line written for the reads 0, 1, 1 shows the count 1 of 3 with 33%;
    the next read, 2, is still short of 3, after which the workers are done:
    the second line shows 3 of 3 with 100% and the loop ends. *)
Example process_with_progress_lines :
  process_with_progress 0%Z Z.succ [1; 0] [0; 1; 1; 2] (mkPP [3; 1; 2]%Z 2)
  = Some (([4; 2; 3]%Z, [Progress 1 3 33; Progress 3 3 100; Complete 3 3]),
          mkPP [3; 1; 2]%Z 2).
Proof. by vm_compute. Qed.

(** X9.  The last range takes the whole remainder, [N / K + N mod K]
    elements; with fewer elements than threads every range but the last is
    empty and the last worker is given the whole dataset. *)
Theorem partition_plan_remainder (N K : nat) :
  1 ≤ K →
  (∀ r, partition_plan N K !! (K - 1) = Some r → r.2 - r.1 = N / K + N `mod` K)
  ∧ (N < K → partition_plan N K = replicate (K - 1) (0, 0) ++ [(0, N)])
  ∧ (∀ {A} (l : list A), length l = N → N < K →
       chunk K l <$> seq 0 K = replicate (K - 1) [] ++ [l]).
Proof.
  intros HK. split_and!.
  - intros r. rewrite partition_plan_lookup by lia. intros [= <-]. simpl.
    unfold chunk_start, chunk_end. case_decide; [|lia].
    pose proof (Nat.div_mod_eq N K). nia.
  - intros HN. unfold partition_plan. rewrite (Nat.div_small N K) by done.
    replace K with (S (K - 1)) at 1 by lia. rewrite seq_S, fmap_app. simpl.
    f_equal.
    + apply list_eq. intros i. rewrite list_lookup_fmap.
      destruct (decide (i < K - 1)) as [Hi|Hi].
      * rewrite lookup_seq_lt, lookup_replicate_2 by done. simpl.
        unfold chunk_start, chunk_end. case_decide; [lia|]. do 2 f_equal; lia.
      * rewrite lookup_seq_ge by lia. symmetry. apply lookup_replicate_None. lia.
    + unfold chunk_start, chunk_end. case_decide; [|lia]. do 2 f_equal. lia.
  - intros A l Hl HN. unfold chunk. rewrite Hl, (Nat.div_small N K) by done.
    replace K with (S (K - 1)) at 1 by lia. rewrite seq_S, fmap_app. simpl.
    f_equal.
    + apply list_eq. intros i. rewrite list_lookup_fmap.
      destruct (decide (i < K - 1)) as [Hi|Hi].
      * rewrite lookup_seq_lt, lookup_replicate_2 by done. simpl.
        unfold chunk_start, chunk_end. case_decide; [lia|].
        f_equal. apply slice_nil. lia.
      * rewrite lookup_seq_ge by lia. symmetry. apply lookup_replicate_None. lia.
    + unfold chunk_start, chunk_end. case_decide; [|lia]. f_equal.
      rewrite Nat.mul_0_r, <- Hl. apply slice_all.
Qed.

Lemma partition_plan_remainder_witness :
  (∀ r, partition_plan 3 4 !! (4 - 1) = Some r → r.2 - r.1 = 3 / 4 + 3 `mod` 4)
  ∧ (3 < 4 → partition_plan 3 4 = replicate (4 - 1) (0, 0) ++ [(0, 3)])
  ∧ (∀ {A} (l : list A), length l = 3 → 3 < 4 →
       chunk 4 l <$> seq 0 4 = replicate (4 - 1) [] ++ [l]).
Proof. apply (partition_plan_remainder 3 4). lia. Defined.


(** ** The example program *)

Section Sums.

Local Abbreviation nonneg p := (0 ≤ r p ∧ 0 ≤ g p ∧ 0 ≤ b p)%Z.
Local Abbreviation total := (foldl Pixel_add (mkPixel 0 0 0)).

Lemma Pixel_add_assoc x y z :
  Pixel_add (Pixel_add x y) z = Pixel_add x (Pixel_add y z).
Proof. destruct x, y, z. unfold Pixel_add. simpl. f_equal; lia. Qed.

Lemma Pixel_add_zero x : Pixel_add (mkPixel 0 0 0) x = x.
Proof. by destruct x. Qed.

Lemma fold_nonneg l : ∀ acc,
  nonneg acc → Forall (λ p, nonneg p) l → nonneg (foldl Pixel_add acc l).
Proof.
  induction l as [|x l IH]; intros acc Hacc Hl; [done|].
  apply Forall_cons_1 in Hl as [Hx Hl]. simpl. apply IH; [|done].
  unfold Pixel_add. simpl. lia.
Qed.

(** Sums of non-negative pixels only grow. *)
Lemma fold_dominates l : ∀ acc H,
  nonneg acc → Forall (λ p, nonneg p) l →
  channels_in 0 H (foldl Pixel_add acc l) → channels_in 0 H acc.
Proof.
  induction l as [|x l IH]; intros acc H Hacc Hl Hsum; [done|].
  apply Forall_cons_1 in Hl as [Hx Hl]. simpl in Hsum.
  apply IH in Hsum; [|unfold Pixel_add; simpl; lia|done].
  unfold channels_in, Pixel_add in *. simpl in *. lia.
Qed.

Lemma fold_bound l : ∀ acc A,
  channels_in 0 A acc → Forall (channels_in 0 255) l →
  channels_in 0 (A + 255 * Z.of_nat (length l)) (foldl Pixel_add acc l).
Proof.
  induction l as [|x l IH]; intros acc A Hacc Hl.
  { simpl. by rewrite Z.add_0_r. }
  apply Forall_cons_1 in Hl as [Hx Hl]. cbn [foldl length].
  replace (A + 255 * Z.of_nat (S (length l)))%Z
    with ((A + 255) + 255 * Z.of_nat (length l))%Z by lia.
  apply IH; [|done]. unfold channels_in, Pixel_add in *. simpl. lia.
Qed.

(** As long as the exact sum fits an [int], so does every partial sum on
    the way, and the machine additions compute the exact sum. *)
Lemma fold_checked l : ∀ acc,
  nonneg acc → Forall (λ p, nonneg p) l →
  channels_in 0 INT_MAX (foldl Pixel_add acc l) →
  foldl Pixel_add_int (Some acc) (Some <$> l) = Some (foldl Pixel_add acc l).
Proof.
  induction l as [|x l IH]; intros acc Hacc Hl Hsum; [done|].
  pose proof Hl as [Hx Hl']%Forall_cons_1. cbn [foldl fmap list_fmap].
  assert (nonneg (Pixel_add acc x)) as Hax by (unfold Pixel_add; simpl; lia).
  pose proof (fold_dominates l _ _ Hax Hl' Hsum) as Hfit.
  assert (Pixel_add_int (Some acc) (Some x) = Some (Pixel_add acc x)) as ->.
  { unfold Pixel_add_int, int_checked, channels_in, Pixel_add, INT_MIN, INT_MAX in *.
    simpl in *. repeat case_decide; (done || lia). }
  by apply IH.
Qed.

Lemma chunk_fmap {A B} (f : A → B) K (l : list A) i :
  chunk K (f <$> l) i = f <$> chunk K l i.
Proof. unfold chunk, slice. by rewrite length_fmap, fmap_take, fmap_drop. Qed.

Lemma Forall_chunk {A} (P : A → Prop) K (l : list A) i :
  Forall P l → Forall P (chunk K l i).
Proof. intros H. unfold chunk, slice. by apply Forall_take, Forall_drop. Qed.

Lemma chunk_length_le {A} K (l : list A) i : length (chunk K l i) ≤ length l.
Proof. unfold chunk, slice. rewrite length_take, length_drop. lia. Qed.

Lemma nonneg_of_channels l :
  Forall (channels_in 0 255) l → Forall (λ p, nonneg p) l.
Proof. intros H. eapply Forall_impl; [apply H|]. unfold channels_in. lia. Qed.

Lemma reduce_checked (d : list Pixel) (K : nat) (sched : list nat) :
  1 ≤ K → schedule K sched →
  Forall (channels_in 0 255) d → (255 * Z.of_nat (length d) ≤ INT_MAX)%Z →
  reduce Pixel_add_int (Some (mkPixel 0 0 0)) sched (mkPP (Some <$> d) K)
  = Some (Some (total d), mkPP (Some <$> d) K).
Proof.
  intros HK Hsched Hd HN. rewrite reduce_spec by done. cbn [data num_threads].
  do 2 f_equal.
  assert (foldl Pixel_add_int (Some (mkPixel 0 0 0))
            <$> (chunk K (Some <$> d) <$> seq 0 K)
          = Some <$> (total <$> (chunk K d <$> seq 0 K))) as ->.
  { rewrite <- !list_fmap_compose. apply list_fmap_ext. intros _ i _. simpl.
    rewrite chunk_fmap. apply fold_checked.
    - simpl. lia.
    - by apply nonneg_of_channels, Forall_chunk.
    - pose proof (fold_bound (chunk K d i) (mkPixel 0 0 0) 0) as Hb.
      pose proof (chunk_length_le K d i).
      unfold channels_in in *. simpl in Hb.
      destruct Hb as (? & ? & ?); [lia|by apply Forall_chunk|]. lia. }
  pose proof (fold_chunks (mkPP d K) Pixel_add (mkPixel 0 0 0)
                Pixel_add_assoc Pixel_add_zero HK) as Hfold.
  cbn [data num_threads] in Hfold.
  rewrite fold_checked, Hfold; [done|simpl; lia| |].
  - apply Forall_fmap, Forall_fmap, Forall_forall. intros i _. simpl.
    apply fold_nonneg; [simpl; lia|]. by apply nonneg_of_channels, Forall_chunk.
  - rewrite Hfold. pose proof (fold_bound d (mkPixel 0 0 0) 0) as Hb.
    unfold channels_in in *. simpl in Hb.
    destruct Hb as (? & ? & ?); [lia|done|]. lia.
Qed.

End Sums.

Lemma quot_below (a b q : Z) :
  (0 ≤ a → 0 < b → a < b * q → 0 ≤ a ÷ b < q)%Z.
Proof.
  intros Ha Hb Hq. rewrite Z.quot_div_nonneg by lia. split.
  - by apply Z.div_pos.
  - by apply Z.div_lt_upper_bound.
Qed.

Lemma pattern_channels (width height x y : nat) :
  x < width → y < height →
  channels_in 0 254 (pattern (Z.of_nat width) (Z.of_nat height)
                             (Z.of_nat x) (Z.of_nat y)).
Proof.
  intros Hx Hy. unfold channels_in, pattern. simpl.
  pose proof (quot_below (Z.of_nat x * 255) (Z.of_nat width) 255).
  pose proof (quot_below (Z.of_nat y * 255) (Z.of_nat height) 255).
  pose proof (quot_below ((Z.of_nat x + Z.of_nat y) * 255)
                (Z.of_nat width + Z.of_nat height) 255).
  lia.
Qed.

Lemma image_rows (width height : nat) :
  Forall (λ row : list Pixel, length row = width)
    ((λ y, (λ x, pattern (Z.of_nat width) (Z.of_nat height)
                         (Z.of_nat x) (Z.of_nat y)) <$> seq 0 width)
       <$> seq 0 height).
Proof.
  apply Forall_fmap, Forall_forall. intros y _. simpl.
  by rewrite length_fmap, length_seq.
Qed.

Lemma image_length (width height : nat) :
  length (image width height) = width * height.
Proof.
  unfold image. rewrite length_join.
  rewrite (sum_list_fmap_same width) by apply image_rows.
  rewrite length_fmap, length_seq. lia.
Qed.

Lemma image_channels (width height : nat) :
  Forall (channels_in 0 254) (image width height).
Proof.
  unfold image. apply Forall_join, Forall_fmap, Forall_seq. intros y Hy. simpl.
  apply Forall_fmap, Forall_seq. intros x Hx. simpl.
  apply pattern_channels; lia.
Qed.

Lemma new_spec {T} (input_data : list T) (threads : nat) :
  new input_data threads
  = mkPP input_data (if decide (threads = 0) then 1 else threads).
Proof. unfold new. cbn [num_threads data]. repeat case_decide; (done || lia). Qed.

Lemma process_with_progress_complete {T} (T_default : T) (func : T → T)
    (e : ParallelProcessor (T:=T)) (sched polls : list nat) :
  1 ≤ num_threads e → schedule (num_threads e) sched →
  ∃ reports completed,
    process_with_progress T_default func sched polls e
    = Some ((func <$> data e,
             reports ++ [Complete completed (length (data e))]), e).
Proof.
  intros HK Hsched.
  destruct (progress_workers_spec T_default e func sched HK Hsched _ eq_refl)
    as ([] & fr & Erun & He & Hloc).
  destruct (monitor_loop_total (length (data e)) (length (data e)) (le_n _)
              (length polls) polls (le_n _)) as (reports & rest & Eloop).
  exists reports,
    (match rest with [] => length (data e) | p :: _ => p `min` length (data e) end).
  unfold process_with_progress, bind, gets, lift_option, size_div, with_local, ret.
  case_decide; [lia|]. rewrite Erun. simpl. rewrite Hloc. simpl.
  unfold monitor, bind, gets. rewrite Eloop. rewrite He.
  by destruct rest.
Qed.

(** The unsigned division gives the mean of a sum that is no less than 0
    and fits an [int]. *)
Lemma average_exact (sum : Z) (size : nat) :
  size ≠ 0 → (0 ≤ sum ≤ INT_MAX)%Z →
  average sum size = Some (sum / Z.of_nat size)%Z.
Proof.
  intros Hsize Hsum. unfold average, size_t_of_int, int_of_size_t, INT_MAX in *.
  case_decide; [done|]. f_equal.
  rewrite (Z.mod_small sum) by lia.
  assert (0 ≤ sum / Z.of_nat size ≤ sum)%Z.
  { split; [apply Z.div_pos; lia|]. apply Z.div_le_upper_bound; nia. }
  rewrite Z.mod_small by lia. lia.
Qed.

Lemma run_spec (std_sort : list Pixel → list Pixel) (async_first : nat → nat → bool)
    (polls s1 s2 s3 s4 s5 : list nat) (image_data : list Pixel) (threads K : nat) :
  K = (if decide (threads = 0) then 1 else threads) →
  schedule K s1 → schedule K s2 → schedule K s3 → schedule K s4 → schedule K s5 →
  sorts_in_place std_sort →
  ∃ reports completed,
    run std_sort async_first polls s1 s2 s3 s4 s5 image_data threads
    = (avg_r ← average (r (foldl Pixel_add (mkPixel 0 0 0) image_data))
                 (length image_data);
       avg_g ← average (g (foldl Pixel_add (mkPixel 0 0 0) image_data))
                 (length image_data);
       avg_b ← average (b (foldl Pixel_add (mkPixel 0 0 0) image_data))
                 (length image_data);
       Some (mkPrinted (reports ++ [Complete completed (length image_data)])
               (length (List.filter is_bright image_data))
               (mkPixel avg_r avg_g avg_b) (take 10 image_data))).
Proof.
  intros HK H1 H2 H3 H4 H5 Hsort. unfold run. rewrite new_spec, <- HK.
  assert (1 ≤ K) as HK1 by (rewrite HK; case_decide; lia).
  set (e := mkPP image_data K).
  destruct (process_with_progress_complete Pixel_default brighten e s1 polls HK1 H1)
    as (reports & completed & E1).
  exists reports, completed.
  pose proof (process_spec Pixel_default e grayscale s2 HK1 H2) as E2.
  pose proof (filter_spec e is_bright s3 HK1 H3) as E3.
  pose proof (filter_chunks_Permutation e is_bright s3 HK1 H3) as P3.
  pose proof (reduce_pixels e s4 HK1 H4) as E4.
  destruct (parallel_sort_msort Pixel_default Pixel_le std_sort async_first e s5
              Hsort HK1 H5) as (D1 & _ & E5).
  unfold bind at 1. rewrite E1. unfold bind at 1. unfold map. rewrite E2.
  unfold bind at 1. rewrite E3. unfold bind at 1.
  change (mkPixel 0 0 0) with Pixel_default. rewrite E4.
  cbn [data e]. unfold bind, lift_option, ret.
  destruct (average (r _) _) as [avg_r|]; [|done].
  destruct (average (g _) _) as [avg_g|]; [|done].
  destruct (average (b _) _) as [avg_b|]; [|done].
  rewrite E5. apply Permutation_length in P3. cbn [data e] in P3. by rewrite P3.
Qed.

Lemma image_lookup (width height x y : nat) :
  x < width → y < height →
  image width height !! (y * width + x)
  = Some (pattern (Z.of_nat width) (Z.of_nat height) (Z.of_nat x) (Z.of_nat y)).
Proof.
  intros Hx Hy. unfold image.
  apply (join_lookup_Some_same_length' width); [apply image_rows|done|].
  eexists. split.
  - rewrite list_lookup_fmap, lookup_seq_lt by done. done.
  - rewrite list_lookup_fmap, lookup_seq_lt by done. done.
Qed.

(** X10.  Summing pixels whose components lie in [0, 255] with [reduce]
    never leaves the range of [int] when the dataset has at most
    [INT_MAX / 255] (8421504) elements: every machine addition of the
    workers and of the final fold is defined, and the result is the exact
    component-wise sum, each component at most [255 * N]. *)
Theorem reduce_pixels_no_overflow (d : list Pixel) (K : nat) (sched : list nat) :
  1 ≤ K → schedule K sched →
  Forall (channels_in 0 255) d → (255 * Z.of_nat (length d) ≤ INT_MAX)%Z →
  reduce Pixel_add_int (Some (mkPixel 0 0 0)) sched (mkPP (Some <$> d) K)
  = Some (Some (foldl Pixel_add (mkPixel 0 0 0) d), mkPP (Some <$> d) K)
  ∧ reduce Pixel_add (mkPixel 0 0 0) sched (mkPP d K)
    = Some (foldl Pixel_add (mkPixel 0 0 0) d, mkPP d K)
  ∧ channels_in 0 (255 * Z.of_nat (length d)) (foldl Pixel_add (mkPixel 0 0 0) d).
Proof.
  intros HK Hsched Hd HN. split_and!.
  - by apply reduce_checked.
  - by apply (reduce_pixels (mkPP d K)).
  - apply (fold_bound d (mkPixel 0 0 0) 0); [|done]. unfold channels_in. simpl. lia.
Qed.

Lemma reduce_pixels_no_overflow_witness :
  reduce Pixel_add_int (Some (mkPixel 0 0 0)) [1; 0]
    (mkPP (Some <$> [mkPixel 255 0 10; mkPixel 255 1 20; mkPixel 255 2 30]) 2)
  = Some (Some (foldl Pixel_add (mkPixel 0 0 0)
                  [mkPixel 255 0 10; mkPixel 255 1 20; mkPixel 255 2 30]),
          mkPP (Some <$> [mkPixel 255 0 10; mkPixel 255 1 20; mkPixel 255 2 30]) 2)
  ∧ reduce Pixel_add (mkPixel 0 0 0) [1; 0]
      (mkPP [mkPixel 255 0 10; mkPixel 255 1 20; mkPixel 255 2 30] 2)
    = Some (foldl Pixel_add (mkPixel 0 0 0)
              [mkPixel 255 0 10; mkPixel 255 1 20; mkPixel 255 2 30],
            mkPP [mkPixel 255 0 10; mkPixel 255 1 20; mkPixel 255 2 30] 2)
  ∧ channels_in 0
      (255 * Z.of_nat (length [mkPixel 255 0 10; mkPixel 255 1 20; mkPixel 255 2 30]))
      (foldl Pixel_add (mkPixel 0 0 0)
         [mkPixel 255 0 10; mkPixel 255 1 20; mkPixel 255 2 30]).
Proof.
  apply (reduce_pixels_no_overflow
           [mkPixel 255 0 10; mkPixel 255 1 20; mkPixel 255 2 30] 2 [1; 0]).
  - lia.
  - solve_schedule.
  - repeat constructor; simpl; lia.
  - by vm_compute.
Defined.

(** A sum that does leave the range: the machine additions give no value
    where the unbounded ones do. *)
Example reduce_pixels_overflow :
  reduce Pixel_add_int (Some (mkPixel 0 0 0)) [0]
    (mkPP [Some (mkPixel INT_MAX 0 0); Some (mkPixel 1 0 0)] 1)
  = Some (None, mkPP [Some (mkPixel INT_MAX 0 0); Some (mkPixel 1 0 0)] 1).
Proof. by vm_compute. Qed.

(** X11.  The test pattern: [width * height] pixels laid out row by row,
    the pixel of column [x] and row [y] at index [y * width + x]; every
    component lies in [0, 254], so the pixels can be summed in [int]s as
    long as there are at most 8421504 of them, as in the 1000 by 1000 image
    of [main]. *)
Theorem image_pattern (width height : nat) :
  length (image width height) = width * height
  ∧ (∀ x y, x < width → y < height →
       image width height !! (y * width + x)
       = Some (mkPixel ((Z.of_nat x * 255) ÷ Z.of_nat width)
                       ((Z.of_nat y * 255) ÷ Z.of_nat height)
                       (((Z.of_nat x + Z.of_nat y) * 255)
                          ÷ (Z.of_nat width + Z.of_nat height))))
  ∧ Forall (channels_in 0 254) (image width height)
  ∧ (∀ K sched, 1 ≤ K → schedule K sched →
       (Z.of_nat (width * height) ≤ 8421504)%Z →
       reduce Pixel_add_int (Some (mkPixel 0 0 0)) sched
         (mkPP (Some <$> image width height) K)
       = Some (Some (foldl Pixel_add (mkPixel 0 0 0) (image width height)),
               mkPP (Some <$> image width height) K)).
Proof.
  split_and!.
  - apply image_length.
  - intros x y Hx Hy. by rewrite image_lookup.
  - apply image_channels.
  - intros K sched HK Hsched Hsize. apply reduce_checked; try done.
    + eapply Forall_impl; [apply image_channels|]. unfold channels_in. lia.
    + rewrite image_length. unfold INT_MAX. lia.
Qed.

Example image_2_by_3 :
  image 2 3 = [mkPixel 0 0 0; mkPixel 127 0 51; mkPixel 0 85 51;
               mkPixel 127 85 102; mkPixel 0 170 102; mkPixel 127 170 153].
Proof. by vm_compute. Qed.

Lemma run_in_range (std_sort : list Pixel → list Pixel)
    (async_first : nat → nat → bool) (polls s1 s2 s3 s4 s5 : list nat)
    (image_data : list Pixel) (threads K : nat) :
  K = (if decide (threads = 0) then 1 else threads) →
  schedule K s1 → schedule K s2 → schedule K s3 → schedule K s4 → schedule K s5 →
  sorts_in_place std_sort →
  image_data ≠ [] → Forall (channels_in 0 255) image_data →
  (255 * Z.of_nat (length image_data) ≤ INT_MAX)%Z →
  ∃ reports completed avg,
    run std_sort async_first polls s1 s2 s3 s4 s5 image_data threads
    = Some (mkPrinted (reports ++ [Complete completed (length image_data)])
              (length (List.filter is_bright image_data))
              avg (take 10 image_data))
    ∧ avg = mkPixel
              (r (foldl Pixel_add (mkPixel 0 0 0) image_data)
                 / Z.of_nat (length image_data))
              (g (foldl Pixel_add (mkPixel 0 0 0) image_data)
                 / Z.of_nat (length image_data))
              (b (foldl Pixel_add (mkPixel 0 0 0) image_data)
                 / Z.of_nat (length image_data))
    ∧ channels_in 0 255 avg.
Proof.
  intros HK H1 H2 H3 H4 H5 Hsort Hne Hd HN.
  destruct (run_spec std_sort async_first polls s1 s2 s3 s4 s5 image_data
              threads K HK H1 H2 H3 H4 H5 Hsort) as (reports & completed & E).
  exists reports, completed.
  pose proof (fold_bound image_data (mkPixel 0 0 0) 0) as Hb.
  destruct Hb as (Hr & Hg & Hb); [unfold channels_in; simpl; lia|done|].
  assert (length image_data ≠ 0) as Hlen by by destruct image_data.
  rewrite !average_exact in E by (done || lia).
  eexists. split_and!; [exact E|done|].
  unfold channels_in. simpl.
  assert (∀ s, 0 ≤ s ≤ 0 + 255 * Z.of_nat (length image_data) →
               0 ≤ s / Z.of_nat (length image_data) ≤ 255)%Z as Hmean.
  { intros s Hs. split; [apply Z.div_pos; lia|].
    apply Z.div_le_upper_bound; lia. }
  split_and!; by apply Hmean.
Qed.

(** X12.  The body of [main], for any image, thread count and scheduling:
    every step works on the image as it was given, since no step before the
    sort changes the dataset of the engine.  On an image with components in
    [0, 255] and between 1 and 8421504 pixels the program writes the
    completion line for the whole image, the number of pixels brighter than
    500, the mean of each component (between 0 and 255), and the first ten
    pixels of the image as given: the listing reads the caller's vector,
    which the sort of the engine's copy does not touch.  On an empty image
    the average divides by zero. *)
Theorem run_output (std_sort : list Pixel → list Pixel)
    (async_first : nat → nat → bool) (polls s1 s2 s3 s4 s5 : list nat)
    (image_data : list Pixel) (threads K : nat) :
  K = (if decide (threads = 0) then 1 else threads) →
  schedule K s1 → schedule K s2 → schedule K s3 → schedule K s4 → schedule K s5 →
  sorts_in_place std_sort →
  (image_data = [] →
     run std_sort async_first polls s1 s2 s3 s4 s5 image_data threads = None)
  ∧ (image_data ≠ [] → Forall (channels_in 0 255) image_data →
     (255 * Z.of_nat (length image_data) ≤ INT_MAX)%Z →
     ∃ reports completed avg,
       run std_sort async_first polls s1 s2 s3 s4 s5 image_data threads
       = Some (mkPrinted (reports ++ [Complete completed (length image_data)])
                 (length (List.filter is_bright image_data))
                 avg (take 10 image_data))
       ∧ avg = mkPixel
                 (r (foldl Pixel_add (mkPixel 0 0 0) image_data)
                    / Z.of_nat (length image_data))
                 (g (foldl Pixel_add (mkPixel 0 0 0) image_data)
                    / Z.of_nat (length image_data))
                 (b (foldl Pixel_add (mkPixel 0 0 0) image_data)
                    / Z.of_nat (length image_data))
       ∧ channels_in 0 255 avg).
Proof.
  intros HK H1 H2 H3 H4 H5 Hsort. split.
  - intros ->.
    destruct (run_spec std_sort async_first polls s1 s2 s3 s4 s5 []
                threads K HK H1 H2 H3 H4 H5 Hsort) as (reports & completed & E).
    by rewrite E.
  - by apply (run_in_range _ _ _ _ _ _ _ _ _ _ K).
Qed.

Lemma run_output_witness :
  (image 2 3 = [] →
     run (insertion_sort Pixel_lt) (λ _ _, true) [0; 2; 5]
       [1; 0] [0; 1] [1; 0] [0; 1] [1; 0] (image 2 3) 2 = None)
  ∧ (image 2 3 ≠ [] → Forall (channels_in 0 255) (image 2 3) →
     (255 * Z.of_nat (length (image 2 3)) ≤ INT_MAX)%Z →
     ∃ reports completed avg,
       run (insertion_sort Pixel_lt) (λ _ _, true) [0; 2; 5]
         [1; 0] [0; 1] [1; 0] [0; 1] [1; 0] (image 2 3) 2
       = Some (mkPrinted (reports ++ [Complete completed (length (image 2 3))])
                 (length (List.filter is_bright (image 2 3)))
                 avg (take 10 (image 2 3)))
       ∧ avg = mkPixel
                 (r (foldl Pixel_add (mkPixel 0 0 0) (image 2 3))
                    / Z.of_nat (length (image 2 3)))
                 (g (foldl Pixel_add (mkPixel 0 0 0) (image 2 3))
                    / Z.of_nat (length (image 2 3)))
                 (b (foldl Pixel_add (mkPixel 0 0 0) (image 2 3))
                    / Z.of_nat (length (image 2 3)))
       ∧ channels_in 0 255 avg).
Proof.
  apply (run_output (insertion_sort Pixel_lt) (λ _ _, true) [0; 2; 5]
           [1; 0] [0; 1] [1; 0] [0; 1] [1; 0] (image 2 3) 2 2).
  - done.
  - solve_schedule.
  - solve_schedule.
  - solve_schedule.
  - solve_schedule.
  - solve_schedule.
  - apply insertion_sort_in_place.
Defined.

(** That run computed: one progress line, no bright pixel, the mean
    colour and the six pixels in the order of the image. *)
Example run_image_2_by_3 :
  run (insertion_sort Pixel_lt) (λ _ _, true) [0; 2; 5]
    [1; 0] [0; 1] [1; 0] [0; 1] [1; 0] (image 2 3) 2
  = Some (mkPrinted [Progress 2 6 83; Complete 6 6] 0
            (mkPixel 63 85 76) (image 2 3)).
Proof. by vm_compute. Qed.

(** [main] itself, whatever the scheduling: it lists the first ten pixels
    of the pattern. *)
Corollary main_output (std_sort : list Pixel → list Pixel)
    (async_first : nat → nat → bool) (polls s1 s2 s3 s4 s5 : list nat) :
  schedule 4 s1 → schedule 4 s2 → schedule 4 s3 → schedule 4 s4 → schedule 4 s5 →
  sorts_in_place std_sort →
  ∃ reports completed count avg,
    main std_sort async_first polls s1 s2 s3 s4 s5
    = Some (mkPrinted (reports ++ [Complete completed (1000 * 1000)]) count avg
              (take 10 (image 1000 1000)))
    ∧ count ≤ 1000 * 1000 ∧ channels_in 0 255 avg.
Proof.
  intros H1 H2 H3 H4 H5 Hsort. unfold main.
  pose proof (image_length 1000 1000) as Hlen.
  destruct (run_in_range std_sort async_first polls s1 s2 s3 s4 s5
              (image 1000 1000) 4 4 eq_refl H1 H2 H3 H4 H5 Hsort)
    as (reports & completed & avg & E & _ & Havg).
  - intros Hnil. rewrite Hnil in Hlen. cbn [length] in Hlen. lia.
  - eapply Forall_impl; [apply image_channels|]. unfold channels_in. lia.
  - rewrite Hlen. unfold INT_MAX. lia.
  - rewrite Hlen in E. eexists _, _, _, _. split_and!; [exact E| |done].
    rewrite <- Hlen. apply List.filter_length_le.
Qed.


(** X14.  The filters of the example program on a pixel with components in
    [0, 255]: brightening gives components in [50, 255] and adds at most 150
    to the brightness; the grey conversion gives three equal components in
    [0, 255], loses at most 2 of the brightness, never adds, and changes
    nothing when applied again; so a pixel that is bright after the grey
    conversion was bright before, and a bright pixel stays bright when
    brightened. *)
Theorem filters_in_range (p : Pixel) :
  channels_in 0 255 p →
  channels_in 50 255 (brighten p)
  ∧ (brightness p ≤ brightness (brighten p) ≤ brightness p + 150)%Z
  ∧ channels_in 0 255 (grayscale p)
  ∧ r (grayscale p) = g (grayscale p) ∧ g (grayscale p) = b (grayscale p)
  ∧ (brightness p - 2 ≤ brightness (grayscale p) ≤ brightness p)%Z
  ∧ grayscale (grayscale p) = grayscale p
  ∧ (is_bright (grayscale p) = true → is_bright p = true)
  ∧ (is_bright p = true → is_bright (brighten p) = true).
Proof.
  destruct p as [pr pg pb]. unfold channels_in. simpl. intros Hp.
  assert ((pr + pg + pb) ÷ 3 = (pr + pg + pb) / 3)%Z as Hq
    by (apply Z.quot_div_nonneg; lia).
  pose proof (Z.div_mod (pr + pg + pb) 3 ltac:(done)) as Hdiv.
  pose proof (Z.mod_pos_bound (pr + pg + pb) 3 ltac:(done)) as Hmod.
  unfold brightness, brighten, grayscale, is_bright. simpl. rewrite Hq.
  set (gray := ((pr + pg + pb) / 3)%Z) in *.
  split_and!; try done; try lia.
  - f_equal; rewrite Z.quot_div_nonneg by lia; symmetry;
      apply (Z.div_unique _ 3 gray 0); lia.
Qed.

Lemma filters_in_range_witness :
  channels_in 50 255 (brighten (mkPixel 250 100 7))
  ∧ (brightness (mkPixel 250 100 7) ≤ brightness (brighten (mkPixel 250 100 7))
     ≤ brightness (mkPixel 250 100 7) + 150)%Z
  ∧ channels_in 0 255 (grayscale (mkPixel 250 100 7))
  ∧ r (grayscale (mkPixel 250 100 7)) = g (grayscale (mkPixel 250 100 7))
  ∧ g (grayscale (mkPixel 250 100 7)) = b (grayscale (mkPixel 250 100 7))
  ∧ (brightness (mkPixel 250 100 7) - 2 ≤ brightness (grayscale (mkPixel 250 100 7))
     ≤ brightness (mkPixel 250 100 7))%Z
  ∧ grayscale (grayscale (mkPixel 250 100 7)) = grayscale (mkPixel 250 100 7)
  ∧ (is_bright (grayscale (mkPixel 250 100 7)) = true
     → is_bright (mkPixel 250 100 7) = true)
  ∧ (is_bright (mkPixel 250 100 7) = true
     → is_bright (brighten (mkPixel 250 100 7)) = true).
Proof.
  apply (filters_in_range (mkPixel 250 100 7)).
  unfold channels_in. simpl. lia.
Defined.

(** Brightening has no lower bound: a component below -50 stays negative. *)
Example brighten_negative : brighten (mkPixel (-60) 0 300) = mkPixel (-10) 50 255.
Proof. done. Qed.

Lemma async_launches_S fuel K start end_ :
  async_launches (S fuel) K start end_
  = if decide (end_ - start ≤ 1) then 0
    else (if decide (async_threshold < end_ - start ∧ 1 < K) then 1 else 0)
         + async_launches fuel K start (start + (end_ - start) / 2)
         + async_launches fuel K (start + (end_ - start) / 2) end_.
Proof. done. Qed.

Lemma async_launches_none fuel K : ∀ start end_,
  K ≤ 1 ∨ end_ - start ≤ async_threshold → async_launches fuel K start end_ = 0.
Proof.
  induction fuel as [|fuel IH]; intros start end_ H.
  { simpl. by case_decide. }
  rewrite async_launches_S. case_decide; [done|].
  pose proof (Nat.div_mod_eq (end_ - start) 2).
  pose proof (Nat.mod_upper_bound (end_ - start) 2 ltac:(done)).
  rewrite !IH by lia. case_decide; lia.
Qed.

Lemma async_launches_bounds fuel K : ∀ start end_,
  1 < K → async_threshold < end_ - start → end_ - start ≤ fuel →
  async_threshold / 2 * (async_launches fuel K start end_ + 1) ≤ end_ - start
  ∧ end_ - start ≤ async_threshold * (async_launches fuel K start end_ + 1).
Proof.
  assert (async_threshold / 2 * 2 = async_threshold) as Hhalf by by vm_compute.
  assert (2 ≤ async_threshold) as Hbig by (apply Nat.leb_le; by vm_compute).
  induction fuel as [|fuel IH]; intros start end_ HK Hn Hfuel; [lia|].
  rewrite async_launches_S. case_decide; [lia|]. case_decide; [|lia].
  pose proof (Nat.div_mod_eq (end_ - start) 2) as Hdiv.
  pose proof (Nat.mod_upper_bound (end_ - start) 2 ltac:(done)) as Hmod.
  set (middle := start + (end_ - start) / 2) in *.
  set (h := async_threshold / 2) in *.
  assert (middle - start = (end_ - start) / 2) as Ha by lia.
  assert (end_ - middle = (end_ - start) - (end_ - start) / 2) as Hb by lia.
  destruct (decide (middle - start ≤ async_threshold)) as [H1|H1];
    destruct (decide (end_ - middle ≤ async_threshold)) as [H2|H2].
  - rewrite !async_launches_none by lia. lia.
  - rewrite (async_launches_none _ _ start middle) by lia.
    destruct (IH middle end_ HK ltac:(lia) ltac:(lia)) as [Hlo Hhi]. nia.
  - rewrite (async_launches_none _ _ middle end_) by lia.
    destruct (IH start middle HK ltac:(lia) ltac:(lia)) as [Hlo Hhi]. nia.
  - destruct (IH start middle HK ltac:(lia) ltac:(lia)) as [Hlo Hhi].
    destruct (IH middle end_ HK ltac:(lia) ltac:(lia)) as [Hlo' Hhi']. nia.
Qed.

Lemma async_launches_threads fuel K : ∀ start end_,
  1 < K → async_launches fuel K start end_ = async_launches fuel 2 start end_.
Proof.
  induction fuel as [|fuel IH]; intros start end_ HK; [done|].
  rewrite !async_launches_S. case_decide; [done|].
  rewrite !IH by done. repeat case_decide; lia.
Qed.

(** X19.  The number of tasks that the merge phase starts with [std::async]
    does not depend on the thread count beyond its being more than 1: none
    for one thread or for a range of at most 10000 elements; otherwise, for a
    range of [n] elements, at least [n / 10000 - 1] and at most
    [n / 5000 - 1], however small [num_threads] is. *)
Theorem async_launches_count (K start end_ : nat) :
  (K ≤ 1 ∨ end_ - start ≤ async_threshold →
     async_launches (end_ - start) K start end_ = 0)
  ∧ (1 < K → async_threshold < end_ - start →
     (end_ - start) / async_threshold - 1
       ≤ async_launches (end_ - start) K start end_
     ∧ async_launches (end_ - start) K start end_
       ≤ (end_ - start) / (async_threshold / 2) - 1
     ∧ async_launches (end_ - start) K start end_
       = async_launches (end_ - start) 2 start end_).
Proof.
  split; [apply async_launches_none|]. intros HK Hn.
  destruct (async_launches_bounds (end_ - start) K start end_ HK Hn (le_n _))
    as [Hlo Hhi].
  assert (async_threshold / 2 ≠ 0) as Hh by by vm_compute.
  assert (async_threshold ≠ 0) as Ht by by vm_compute.
  split_and!.
  - pose proof (Nat.Div0.div_le_mono _ _ async_threshold Hhi) as Hq.
    rewrite Nat.mul_comm, Nat.div_mul in Hq by done. lia.
  - pose proof (Nat.Div0.div_le_mono _ _ (async_threshold / 2) Hlo) as Hq.
    rewrite Nat.mul_comm, Nat.div_mul in Hq by done. lia.
  - by apply async_launches_threads.
Qed.

End PP.

(** * LogFileManager: proofs *)

Module LogFileManagerSpec.
Import LogFileManager.

(** ** Reading lines *)











(** ** One call *)


Lemma exec_cons op ops w :
  exec (op :: ops) w
  = ((step op w).1 :: (exec ops (step op w).2).1, (exec ops (step op w).2).2).
Proof. simpl. destruct (step op w) as [b w']. simpl. by destruct (exec ops w'). Qed.

(** ** Streams in the map are open *)

Lemma step_open op w :
  (∀ f s, logFiles w !! f = Some s → is_open s = true ∧ is_Some (disk w !! f)) →
  ∀ f s, logFiles (step op w).2 !! f = Some s →
         is_open s = true ∧ is_Some (disk (step op w).2 !! f).
Proof.
  intros Hinv g s'. destruct op as [os_ok f|ts o f m|content f]; simpl.
  - unfold openLogFile, ofstream. destruct (logFiles w !! f) eqn:Ef; [apply Hinv|].
    destruct os_ok; simpl; [|apply Hinv].
    destruct (decide (f = g)) as [->|Hne].
    + rewrite !lookup_insert_eq. by intros [= <-].
    + rewrite !lookup_insert_ne by done. apply Hinv.
  - unfold writeLog, put. destruct (logFiles w !! f) as [s|] eqn:Ef; [|apply Hinv].
    destruct (is_open s) eqn:Eopen; simpl; [|apply Hinv].
    destruct (Hinv f s Ef) as [_ Hdisk].
    destruct (fail s) eqn:Efail; simpl.
    { destruct (decide (f = g)) as [->|Hne].
      - rewrite lookup_insert_eq. by intros [= <-].
      - rewrite lookup_insert_ne by done. apply Hinv. }
    destruct o; simpl.
    all: destruct (decide (f = g)) as [->|Hne];
      [rewrite !lookup_insert_eq; by intros [= <-]
      |rewrite !lookup_insert_ne by done; apply Hinv].
  - unfold closeLogFile, close. destruct (logFiles w !! f) as [s|] eqn:Ef; [|apply Hinv].
    simpl. destruct (decide (f = g)) as [->|Hne].
    + by rewrite lookup_delete_eq.
    + rewrite lookup_delete_ne by done. intros Hs.
      destruct (Hinv g s' Hs) as [Ho Hd]. split; [done|].
      destruct (is_open s), (fail s); by rewrite ?lookup_insert_ne.
Qed.

Lemma exec_open ops : ∀ w,
  (∀ f s, logFiles w !! f = Some s → is_open s = true ∧ is_Some (disk w !! f)) →
  ∀ f s, logFiles (exec ops w).2 !! f = Some s →
         is_open s = true ∧ is_Some (disk (exec ops w).2 !! f).
Proof.
  induction ops as [|op ops IH]; intros w Hinv; [done|].
  rewrite exec_cons. simpl. apply IH. by apply step_open.
Qed.

(** ** A file that stays open and whose writes succeed *)


(** ** A stream in error *)


(** ** The properties of the manager *)

(** X15.  After any sequence of calls on a new manager, every stream in the
    map is open and its file exists, so the [is_open] tests of [writeLog]
    and [closeLogFile] never decide anything: [writeLog] returns [true]
    exactly when the name is in the map, its stream is not in an error state
    and the write succeeds; [closeLogFile] returns [true] exactly when the
    name is in the map. *)
Theorem streams_stay_open (files : gmap string string) (ops : list Op)
    (timestamp : string) (o : Outcome) (filename message : string) :
  let w := (exec ops (LogFileManager files)).2 in
  (∀ f s, logFiles w !! f = Some s → is_open s = true ∧ is_Some (disk w !! f))
  ∧ ((writeLog timestamp o filename message w).1 = true
     ↔ (∃ s, logFiles w !! filename = Some s ∧ fail s = false) ∧ o = Written)
  ∧ (∀ content, (closeLogFile content filename w).1 = true
                ↔ is_Some (logFiles w !! filename)).
Proof.
  intros w.
  assert (∀ f s, logFiles w !! f = Some s → is_open s = true ∧ is_Some (disk w !! f))
    as Hinv.
  { apply exec_open. intros f s. unfold LogFileManager. simpl.
    by rewrite lookup_empty. }
  split_and!; [done| |].
  - unfold writeLog, put. destruct (logFiles w !! filename) as [s|] eqn:Es.
    + destruct (Hinv _ _ Es) as [-> _]. simpl.
      destruct (fail s) eqn:Ef; simpl.
      * rewrite Ef. split; [done|]. by intros [(s' & [= <-] & Hs') _]; congruence.
      * destruct o; simpl; rewrite ?Ef; split; try done.
        -- intros _. split; [by exists s|done].
        -- by intros [_ ?].
    + split; [done|]. by intros [(s & ? & _) _].
  - intros content. unfold closeLogFile.
    destruct (logFiles w !! filename) as [s|]; simpl; split; try done.
Qed.



(** Those calls computed: the old content is gone, the two lines are
    read back, and a message with a newline is read back as two lines. *)
Example readLogs_two_lines :
  readLogs true "a.log"
    (exec [Open true "a.log";
           Write "[t1] " Written "a.log" "started";
           Open true "b.log";
           Write "[t2] " (Failed "") "b.log" "lost";
           Open true "a.log";
           Write "[t3] " Written "a.log" "stopped"]
          (LogFileManager {["a.log" := "old"]})).2
  = ["[t1] started"; "[t3] stopped"]
  ∧ getlines ("[t1] " +:+ String "a" (String newline "[t9] forged") +:+ String newline "")
    = ["[t1] a"; "[t9] forged"].
Proof. split; by vm_compute. Qed.



(** X18.  Closing a file whose writes succeeded: [closeLogFile] returns
    [true] and removes the name from the map; the log stays in the file, so
    [readLogs] returns what it returned before.  After that a second
    [closeLogFile] and any [writeLog] on the name return [false] and change
    nothing, an [openLogFile] that the system refuses returns [false] and
    changes nothing, and an [openLogFile] that succeeds empties the file.
    Before the close, [openLogFile] on the name returns [true] and changes
    nothing: only a file that is not open is emptied. *)
Theorem closeLogFile_keeps_log (w : World) (filename : string) (s : Stream)
    (content : string) :
  logFiles w !! filename = Some s → is_open s = true → fail s = false →
  (closeLogFile content filename w).1 = true
  ∧ logFiles (closeLogFile content filename w).2 !! filename = None
  ∧ (∀ os_ok, readLogs os_ok filename (closeLogFile content filename w).2
              = readLogs os_ok filename w)
  ∧ (∀ content', closeLogFile content' filename (closeLogFile content filename w).2
                 = (false, (closeLogFile content filename w).2))
  ∧ (∀ timestamp o message,
       writeLog timestamp o filename message (closeLogFile content filename w).2
       = (false, (closeLogFile content filename w).2))
  ∧ openLogFile false filename (closeLogFile content filename w).2
    = (false, (closeLogFile content filename w).2)
  ∧ readLogs true filename
      (openLogFile true filename (closeLogFile content filename w).2).2 = []
  ∧ (∀ os_ok, openLogFile os_ok filename w = (true, w)).
Proof.
  intros Hs Hopen Hfail.
  assert (closeLogFile content filename w
          = (true, mkWorld (delete filename (logFiles w)) (disk w))) as ->.
  { unfold closeLogFile, close. by rewrite Hs, Hopen, Hfail. }
  cbn [fst snd].
  split_and!; try done.
  - simpl. apply lookup_delete_eq.
  - intros content'. unfold closeLogFile. simpl. by rewrite lookup_delete_eq.
  - intros ts o m. unfold writeLog. simpl. by rewrite lookup_delete_eq.
  - unfold openLogFile. simpl. by rewrite lookup_delete_eq.
  - unfold openLogFile, readLogs. simpl. rewrite lookup_delete_eq. simpl.
    by rewrite lookup_insert_eq.
  - intros os_ok. unfold openLogFile. by rewrite Hs.
Qed.

Lemma closeLogFile_keeps_log_witness :
  (closeLogFile "" "a.log"
     (exec [Open true "a.log"; Write "[t1] " Written "a.log" "started"]
           (LogFileManager ∅)).2).1 = true
  ∧ logFiles (closeLogFile "" "a.log"
                (exec [Open true "a.log"; Write "[t1] " Written "a.log" "started"]
                      (LogFileManager ∅)).2).2 !! "a.log" = None
  ∧ (∀ os_ok,
       readLogs os_ok "a.log"
         (closeLogFile "" "a.log"
            (exec [Open true "a.log"; Write "[t1] " Written "a.log" "started"]
                  (LogFileManager ∅)).2).2
       = readLogs os_ok "a.log"
           (exec [Open true "a.log"; Write "[t1] " Written "a.log" "started"]
                 (LogFileManager ∅)).2)
  ∧ (∀ content',
       closeLogFile content' "a.log"
         (closeLogFile "" "a.log"
            (exec [Open true "a.log"; Write "[t1] " Written "a.log" "started"]
                  (LogFileManager ∅)).2).2
       = (false,
          (closeLogFile "" "a.log"
             (exec [Open true "a.log"; Write "[t1] " Written "a.log" "started"]
                   (LogFileManager ∅)).2).2))
  ∧ (∀ timestamp o message,
       writeLog timestamp o "a.log" message
         (closeLogFile "" "a.log"
            (exec [Open true "a.log"; Write "[t1] " Written "a.log" "started"]
                  (LogFileManager ∅)).2).2
       = (false,
          (closeLogFile "" "a.log"
             (exec [Open true "a.log"; Write "[t1] " Written "a.log" "started"]
                   (LogFileManager ∅)).2).2))
  ∧ openLogFile false "a.log"
      (closeLogFile "" "a.log"
         (exec [Open true "a.log"; Write "[t1] " Written "a.log" "started"]
               (LogFileManager ∅)).2).2
    = (false,
       (closeLogFile "" "a.log"
          (exec [Open true "a.log"; Write "[t1] " Written "a.log" "started"]
                (LogFileManager ∅)).2).2)
  ∧ readLogs true "a.log"
      (openLogFile true "a.log"
         (closeLogFile "" "a.log"
            (exec [Open true "a.log"; Write "[t1] " Written "a.log" "started"]
                  (LogFileManager ∅)).2).2).2 = []
  ∧ (∀ os_ok,
       openLogFile os_ok "a.log"
         (exec [Open true "a.log"; Write "[t1] " Written "a.log" "started"]
               (LogFileManager ∅)).2
       = (true,
          (exec [Open true "a.log"; Write "[t1] " Written "a.log" "started"]
                (LogFileManager ∅)).2)).
Proof.
  apply (closeLogFile_keeps_log
           (exec [Open true "a.log"; Write "[t1] " Written "a.log" "started"]
                 (LogFileManager ∅)).2
           "a.log" (mkStream true false) "").
  - by vm_compute.
  - reflexivity.
  - reflexivity.
Defined.

End LogFileManagerSpec.
